(** * A shallow embedding of the compiler pipeline

    The development follows the TypeScript sources: the lexer ([tokenize]),
    the recursive-descent parser ([parse]), the semantic analyzer
    ([analyze]), the IR generator ([generateIR]), the optimizer
    ([optimizeIR]) and the code generator ([generateAssembly]).

    Conventions of the embedding.
    - Source text and all other JavaScript strings are [string]s, that is,
      sequences of code units below 256.
    - A JavaScript object used as a dictionary is a finite map over its own
      properties ([gmap string _]); an optional field is an [option]. The
      properties that every object inherits ([constructor], [toString]
      and the like) are not looked at: the embedding is that of the
      sources on programs in which no identifier has such a name.
    - A function that can raise a [TypeError] (a property read on
      [undefined]) returns an [option]; [None] stands for the exception.
    - [Math.random], which the analyzer calls to name block scopes, is an
      oracle [rnd : nat -> string] that gives the text of each draw of a
      run. *)

From Stdlib Require Import ZArith Floats Ascii String.
From stdpp Require Import gmap strings list pretty.

Open Scope string_scope.
Open Scope nat_scope.
Open Scope list_scope.

(** ** JavaScript fragments shared by all passes *)

(** [s || d] on an optional string: [undefined] and the empty string are
    falsy. *)
Definition or_default (o : option string) (d : string) : string :=
  match o with
  | Some s => if decide (s = "") then d else s
  | None => d
  end.

(** Truthiness of an optional string. *)
Definition truthy (o : option string) : bool :=
  match o with
  | Some s => negb (bool_decide (s = ""))
  | None => false
  end.

(** [s.startsWith(p)] *)
Fixpoint startsWith (p s : string) : bool :=
  match p, s with
  | EmptyString, _ => true
  | String a p', String b s' => bool_decide (a = b) && startsWith p' s'
  | String _ _, EmptyString => false
  end.

(** [s.slice(n)] for [0 <= n] *)
Fixpoint slice (n : nat) (s : string) : string :=
  match n, s with
  | O, _ => s
  | S n', String _ s' => slice n' s'
  | S _, EmptyString => EmptyString
  end.

(** [s.slice(0, n)] *)
Fixpoint take_str (n : nat) (s : string) : string :=
  match n, s with
  | O, _ => EmptyString
  | S n', String c s' => String c (take_str n' s')
  | S _, EmptyString => EmptyString
  end.

(** The longest prefix of [s] whose characters all satisfy [p]: what a
    greedy [[class]*] consumes. *)
Fixpoint take_while (p : ascii -> bool) (s : string) : string :=
  match s with
  | String c s' => if p c then String c (take_while p s') else EmptyString
  | EmptyString => EmptyString
  end.

Definition code (c : ascii) : nat := nat_of_ascii c.

(** The double quote and the backslash. *)
Definition dquote : ascii := "034"%char.
Definition backslash : ascii := "092"%char.

(** Character classes used by the regular expressions of the lexer and
    by the number grammar, on code units below 256. *)

(** White space and line terminators: tab, line feed, vertical tab, form
    feed, carriage return, space and no-break space. *)
Definition is_space (c : ascii) : bool :=
  bool_decide (code c ∈ [9; 10; 11; 12; 13; 32; 160]).

Definition is_digit (c : ascii) : bool :=
  (48 <=? code c) && (code c <=? 57).

(** ** JavaScript numbers

    A Number is an IEEE 754 binary64 value. The arithmetic is that of
    [SpecFloat] at precision 53; what is added here is the conversion
    from and to decimal text ([Number.parseFloat], [toString]) and the
    remainder operator. *)

Module JSNumber.

Definition prec : Z := 53.
Definition emax : Z := 1024.

Definition number : Type := spec_float.

Definition isNaN (x : number) : bool :=
  match x with S754_nan => true | _ => false end.

Definition isFinite (x : number) : bool :=
  match x with S754_nan | S754_infinity _ => false | _ => true end.

(** The number nearest to [(-1)^sign * m * 10^e], ties to even. *)
Definition of_decimal (sign : bool) (m : Z) (e : Z) : number :=
  match m with
  | Z0 => S754_zero sign
  | Zneg _ => S754_nan
  | Zpos _ =>
      if (0 <=? e)%Z then
        binary_normalize prec emax (if sign then - (m * 10 ^ e) else m * 10 ^ e)%Z 0 false
      else
        let '(q, e', l) := SFdiv_core_binary prec emax m 0 (10 ^ (- e))%Z 0 in
        binary_round_aux prec emax sign q e' l
  end.

Definition digit_value (c : ascii) : Z := Z.of_nat (code c - 48).

(** The value of a run of decimal digits. *)
Fixpoint digits_value (acc : Z) (s : string) : Z :=
  match s with
  | String c s' => digits_value (10 * acc + digit_value c)%Z s'
  | EmptyString => acc
  end.

(** The exponent part that starts [s], if there is one: the letter e in
    either case, an optional sign and at least one digit. *)
Definition exponent_part (s : string) : Z :=
  match s with
  | String c s' =>
      if bool_decide (c = "e"%char) || bool_decide (c = "E"%char) then
        let '(neg, ds) :=
          match s' with
          | String "+" t => (false, take_while is_digit t)
          | String "-" t => (true, take_while is_digit t)
          | _ => (false, take_while is_digit s')
          end in
        match ds with
        | EmptyString => 0%Z
        | _ => if neg then (- digits_value 0 ds)%Z else digits_value 0 ds
        end
      else 0%Z
  | EmptyString => 0%Z
  end.

(** [Number.parseFloat]: leading white space is skipped, then the longest
    prefix that is a decimal literal (a sign, digits with an optional
    fraction, an optional exponent, or Infinity) is converted; [NaN] when
    no prefix is one. *)
Definition parseFloat (str : string) : number :=
  let trimmed := slice (String.length (take_while is_space str)) str in
  let '(sign, body) :=
    match trimmed with
    | String "+" t => (false, t)
    | String "-" t => (true, t)
    | _ => (false, trimmed)
    end in
  if startsWith "Infinity" body then S754_infinity sign
  else
    let int_part := take_while is_digit body in
    let rest := slice (String.length int_part) body in
    let '(frac_part, rest') :=
      match rest with
      | String "." t =>
          (take_while is_digit t, slice (String.length (take_while is_digit t)) t)
      | _ => (EmptyString, rest)
      end in
    match int_part +:+ frac_part with
    | EmptyString => S754_nan
    | ds =>
        of_decimal sign (digits_value 0 ds)
          (exponent_part rest' - Z.of_nat (String.length frac_part))
    end.

(** The value of a digit of radix 16, [None] for another character. *)
Definition hex_digit (c : ascii) : option Z :=
  let n := code c in
  if (48 <=? n) && (n <=? 57) then Some (Z.of_nat (n - 48))
  else if (97 <=? n) && (n <=? 102) then Some (Z.of_nat (n - 87))
  else if (65 <=? n) && (n <=? 70) then Some (Z.of_nat (n - 55))
  else None.

Fixpoint hex_value (acc : Z) (s : string) : Z :=
  match s with
  | String c s' => hex_value (16 * acc + default 0%Z (hex_digit c))%Z s'
  | EmptyString => acc
  end.

(** [Number.parseInt] without a radix: leading white space is skipped,
    then a sign, then the digits of radix 16 after a prefix 0x or 0X and
    of radix 10 otherwise; [NaN] when there is no digit. The integer is
    rounded to the nearest number. *)
Definition parseInt (str : string) : number :=
  let trimmed := slice (String.length (take_while is_space str)) str in
  let '(sign, body) :=
    match trimmed with
    | String "+" t => (false, t)
    | String "-" t => (true, t)
    | _ => (false, trimmed)
    end in
  if startsWith "0x" body || startsWith "0X" body then
    match take_while (fun c => bool_decide (is_Some (hex_digit c))) (slice 2 body) with
    | EmptyString => S754_nan
    | ds => of_decimal sign (hex_value 0 ds) 0
    end
  else
    match take_while is_digit body with
    | EmptyString => S754_nan
    | ds => of_decimal sign (digits_value 0 ds) 0
    end.

(** The exact value of a positive finite number as a fraction. *)
Definition num_den (m : positive) (e : Z) : Z * Z :=
  if (0 <=? e)%Z then (Zpos m * 2 ^ e, 1)%Z else (Zpos m, 2 ^ (- e))%Z.

(** [floor (num / den * 10^p)] *)
Definition scaled_floor (num den p : Z) : Z :=
  if (0 <=? p)%Z then (num * 10 ^ p / den)%Z else (num / (den * 10 ^ (- p)))%Z.

(** The [n] with [10^(n-1) <= num/den < 10^n], for a value of the binary64
    range. *)
Definition decimal_exponent (num den : Z) : Z :=
  (Z.of_nat (String.length (pretty (scaled_floor num den 400))) - 400)%Z.

(** The candidates with [k] digits around [num/den]: the digit strings
    just below and just above, each with its decimal exponent [n]. *)
Definition candidates (num den n k : Z) : list (Z * Z) :=
  let lo := scaled_floor num den (k - n) in
  let hi := (lo + 1)%Z in
  [(lo, n); if (hi =? 10 ^ k)%Z then ((10 ^ (k - 1))%Z, (n + 1)%Z) else (hi, n)].

(** The distance from [num/den] to [s * 10^(n-k)], as a fraction with a
    positive denominator. *)
Definition distance (num den k : Z) (c : Z * Z) : Z * Z :=
  let '(s, n) := c in
  let p := (n - k)%Z in
  if (0 <=? p)%Z then (Z.abs (s * 10 ^ p * den - num), den)%Z
  else (Z.abs (s * den - num * 10 ^ (- p)), den * 10 ^ (- p))%Z.

Definition same_number (x y : number) : bool :=
  match x, y with
  | S754_zero s1, S754_zero s2 => Bool.eqb s1 s2
  | S754_infinity s1, S754_infinity s2 => Bool.eqb s1 s2
  | S754_nan, S754_nan => true
  | S754_finite s1 m1 e1, S754_finite s2 m2 e2 =>
      Bool.eqb s1 s2 && (m1 =? m2)%positive && (e1 =? e2)%Z
  | _, _ => false
  end.

(** The shortest digit string that converts back to the number: the
    first [k] for which a candidate round-trips, and among the candidates
    of that [k] the closest, the even one on a tie. The result is the
    digits [s], the decimal exponent [n] and the number of digits [k]. *)
Fixpoint shortest (fuel : nat) (x : number) (num den n k : Z) : Z * Z * Z :=
  let ok := List.filter
    (fun c : Z * Z => same_number (of_decimal false c.1 (c.2 - k)) x)
    (candidates num den n k) in
  match ok, fuel with
  | [c], _ => (c.1, c.2, k)
  | [c1; c2], _ =>
      let '(a1, b1) := distance num den k c1 in
      let '(a2, b2) := distance num den k c2 in
      if (a1 * b2 <? a2 * b1)%Z then (c1.1, c1.2, k)
      else if (a2 * b1 <? a1 * b2)%Z then (c2.1, c2.2, k)
      else if Z.even c1.1 then (c1.1, c1.2, k) else (c2.1, c2.2, k)
  | _, S fuel' => shortest fuel' x num den n (k + 1)
  | _, O => (0, 0, 1)%Z
  end.

Definition repeat_zero (n : Z) : string :=
  String.concat EmptyString (List.repeat "0" (Z.to_nat n)).

(** [Number.prototype.toString] in radix ten. *)
Definition toString (x : number) : string :=
  match x with
  | S754_nan => "NaN"
  | S754_zero _ => "0"
  | S754_infinity s => if s then "-Infinity" else "Infinity"
  | S754_finite sign m e =>
      let '(num, den) := num_den m e in
      let '(s, n, k) :=
        shortest 17 (S754_finite false m e) num den (decimal_exponent num den) 1 in
      let ds := pretty s in
      let body :=
        if (k <=? n)%Z && (n <=? 21)%Z then ds +:+ repeat_zero (n - k)
        else if (0 <? n)%Z && (n <=? 21)%Z then
          take_str (Z.to_nat n) ds +:+ "." +:+ slice (Z.to_nat n) ds
        else if (-6 <? n)%Z && (n <=? 0)%Z then
          "0." +:+ repeat_zero (- n) +:+ ds
        else
          let ex := (if (0 <=? n - 1)%Z then "+" else "-") +:+ pretty (Z.abs (n - 1)) in
          if (k =? 1)%Z then ds +:+ "e" +:+ ex
          else take_str 1 ds +:+ "." +:+ slice 1 ds +:+ "e" +:+ ex in
      if sign then "-" +:+ body else body
  end.

Definition add : number -> number -> number := SFadd prec emax.
Definition sub : number -> number -> number := SFsub prec emax.
Definition mul : number -> number -> number := SFmul prec emax.
Definition div : number -> number -> number := SFdiv prec emax.

(** The remainder operator: the result has the sign of the dividend and
    is exact. *)
Definition rem (x y : number) : number :=
  match x, y with
  | S754_nan, _ | _, S754_nan => S754_nan
  | S754_infinity _, _ => S754_nan
  | _, S754_zero _ => S754_nan
  | _, S754_infinity _ => x
  | S754_zero _, _ => x
  | S754_finite sx mx ex, S754_finite _ my ey =>
      let ez := Z.min ex ey in
      let r := (Z.shiftl (Zpos mx) (ex - ez) mod Z.shiftl (Zpos my) (ey - ez))%Z in
      match r with
      | Z0 => S754_zero sx
      | _ => binary_normalize prec emax (if sx then - r else r)%Z ez false
      end
  end.

(** [x === y], [x < y] and [x <= y] on numbers. *)
Definition eqb : number -> number -> bool := SFeqb.
Definition ltb : number -> number -> bool := SFltb.
Definition leb : number -> number -> bool := SFleb.

(** [x === 0] *)
Definition is_zero (x : number) : bool :=
  match x with S754_zero _ => true | _ => false end.

End JSNumber.

(** The helper [isNumeric] that the optimizer and the code generator
    each define. *)
Definition isNumeric (str : string) : bool :=
  negb (JSNumber.isNaN (JSNumber.parseFloat str))
  && JSNumber.isFinite (JSNumber.parseFloat str).

(** ** Computations over a mutable state that may not complete

    [Comp S A] threads a state of type [S]; [None] stands for a run that
    produces no result (an exception, or a loop of the model that ran out
    of fuel, as each use says). *)

Definition Comp (S A : Type) : Type := S -> option (A * S).

Definition ret {S A} (a : A) : Comp S A := fun st => Some (a, st).
Definition throw {S A} : Comp S A := fun _ => None.
Definition bind {S A B} (m : Comp S A) (k : A -> Comp S B) : Comp S B :=
  fun st => match m st with
            | Some (a, st') => k a st'
            | None => None
            end.
Definition get {S} : Comp S S := fun st => Some (st, st).
Definition put {S} (st : S) : Comp S unit := fun _ => Some (tt, st).
Definition modify {S} (f : S -> S) : Comp S unit := fun st => Some (tt, f st).

Notation "'do' x <- m ; k" := (bind m (fun x => k))
  (at level 10, x name, m at level 100, k at level 200).
Notation "'run' m ; k" := (bind m (fun _ => k))
  (at level 10, m at level 100, k at level 200).

Definition when {S} (b : bool) (m : Comp S unit) : Comp S unit :=
  if b then m else ret tt.

(** Run the computations of a list in order. *)
Fixpoint sequence {S A} (ms : list (Comp S A)) : Comp S (list A) :=
  match ms with
  | [] => ret []
  | m :: ms' => do a <- m; do r <- sequence ms'; ret (a :: r)
  end.

(** ** Tokens and diagnostics *)

Record Token := mkToken {
  tok_type : string;
  tok_value : string;
  tok_line : nat;
  tok_column : nat
}.

Record CompilerError := mkError {
  err_message : string;
  err_line : nat;
  err_column : nat
}.

(** ** Lexer *)

Module Lexer.

Definition KEYWORDS : list string :=
  ["int"; "float"; "bool"; "void"; "if"; "else"; "while"; "for"; "return";
   "true"; "false"; "print"; "read"; "switch"; "case"; "default"; "break"].

Definition OPERATORS : list string :=
  ["+"; "-"; "*"; "/"; "%"; "="; "=="; "!="; "<"; ">"; "<="; ">="; "&&";
   "||"; "!"].

Definition PUNCTUATION : list string :=
  ["("; ")"; "{"; "}"; "["; "]"; ";"; ","; "."].

(** What [.] does not match: the line terminators. *)
Definition is_line_terminator (c : ascii) : bool :=
  bool_decide (code c ∈ [10; 13]).

Definition is_ident_start (c : ascii) : bool :=
  ((65 <=? code c) && (code c <=? 90))
  || ((97 <=? code c) && (code c <=? 122))
  || (code c =? 95).

Definition is_ident_char (c : ascii) : bool :=
  is_ident_start c || is_digit c.

(** Each [match_*] returns the matched text [m[0]] of [currentInput.match]
    on the corresponding pattern, [None] for [null]. All patterns are
    anchored at the start of the input. *)

(** [/^\s+/] *)
Definition match_WHITESPACE (s : string) : option string :=
  match take_while is_space s with
  | EmptyString => None
  | ws => Some ws
  end.

(** [/^\/\/.*$/]. The pattern has no [m] flag, so [$] matches at the end of
    the input only. [.*] takes the characters up to the first line
    terminator; giving characters back cannot help [$], hence the match
    succeeds exactly when that run reaches the end of the input. *)
Definition match_COMMENT_SINGLE (s : string) : option string :=
  if startsWith "//" s then
    let body := take_while (fun c => negb (is_line_terminator c)) (slice 2 s) in
    if String.length (slice 2 s) =? String.length body
    then Some ("//" +:+ body) else None
  else None.

(** The shortest prefix of [s] that ends with "*/": what the lazy
    [[\s\S]*?\*\/] consumes. *)
Fixpoint until_close (s : string) : option string :=
  match s with
  | String c s' =>
      if startsWith "*/" s then Some "*/"
      else String c <$> until_close s'
  | EmptyString => None
  end.

(** [/^\/\*[\s\S]*?\*\//] *)
Definition match_COMMENT_MULTI (s : string) : option string :=
  if startsWith "/*" s then String.app "/*" <$> until_close (slice 2 s)
  else None.

(** [/^[0-9]+(\.[0-9]+)?/] *)
Definition match_NUMBER (s : string) : option string :=
  match take_while is_digit s with
  | EmptyString => None
  | int_part =>
      match slice (String.length int_part) s with
      | String "." rest =>
          match take_while is_digit rest with
          | EmptyString => Some int_part
          | frac => Some (int_part +:+ "." +:+ frac)
          end
      | _ => Some int_part
      end
  end.

(** [/^[a-zA-Z_][a-zA-Z0-9_]*/] *)
Definition match_IDENTIFIER (s : string) : option string :=
  match s with
  | String c s' =>
      if is_ident_start c then Some (String c (take_while is_ident_char s'))
      else None
  | EmptyString => None
  end.

(** The rest of a string literal after its opening quote, closing quote
    included. The group of the pattern is either one character other than
    a quote or a backslash, or a backslash followed by one character that
    is not a line terminator. At every position at most one alternative
    applies and an iteration never starts on a quote, so the greedy star
    followed by the closing quote has a single way to match. *)
Fixpoint string_body (s : string) : option string :=
  match s with
  | String c s' =>
      if bool_decide (c = dquote) then Some (String c EmptyString)
      else if bool_decide (c = backslash) then
        match s' with
        | String d s'' =>
            if is_line_terminator d then None
            else (fun r => String c (String d r)) <$> string_body s''
        | EmptyString => None
        end
      else String c <$> string_body s'
  | EmptyString => None
  end.

(** The STRING pattern: a quote, the group repeated, a quote. *)
Definition match_STRING (s : string) : option string :=
  match s with
  | String c s' =>
      if bool_decide (c = dquote) then String c <$> string_body s' else None
  | EmptyString => None
  end.

(** An alternation of literal strings tries its alternatives from left to
    right and keeps the first that matches: the OPERATOR and PUNCTUATION
    patterns are built by joining the tables in their order. *)
Definition match_alternation (alts : list string) (s : string) : option string :=
  List.find (fun a => startsWith a s) alts.

Definition match_OPERATOR : string -> option string := match_alternation OPERATORS.
Definition match_PUNCTUATION : string -> option string := match_alternation PUNCTUATION.

Definition includes (l : list string) (v : string) : bool :=
  bool_decide (v ∈ l).

(** The mutable locals of [tokenize]. *)
Record LexState := mkLexState {
  tokens : list Token;
  errors : list CompilerError;
  line : nat;
  column : nat;
  pos : nat
}.

(** The [for] loop over a run of whitespace: a line feed starts a new
    line, any other character advances the column. *)
Fixpoint track_whitespace (ws : string) (line column : nat) : nat * nat :=
  match ws with
  | String c ws' =>
      if bool_decide (code c = 10) then track_whitespace ws' (S line) 1
      else track_whitespace ws' line (S column)
  | EmptyString => (line, column)
  end.

(** [comment.split(sep)] on the line feed. *)
Fixpoint split_lines (s : string) : list string :=
  match s with
  | String c s' =>
      if bool_decide (code c = 10) then EmptyString :: split_lines s'
      else match split_lines s' with
           | l :: ls => String c l :: ls
           | [] => [String c EmptyString]
           end
  | EmptyString => [EmptyString]
  end.

Definition push_token (ty value : string) (st : LexState) : LexState :=
  {| tokens := tokens st ++ [mkToken ty value (line st) (column st)];
     errors := errors st;
     line := line st;
     column := column st + String.length value;
     pos := pos st + String.length value |}.

(** One iteration of the scanning loop. *)
Definition scan_step (input : string) (st : LexState) : LexState :=
  let currentInput := slice (pos st) input in
  match match_WHITESPACE currentInput with
  | Some whitespace =>
      let '(l, c) := track_whitespace whitespace (line st) (column st) in
      {| tokens := tokens st; errors := errors st; line := l; column := c;
         pos := pos st + String.length whitespace |}
  | None =>
  match match_COMMENT_SINGLE currentInput with
  | Some comment =>
      {| tokens := tokens st; errors := errors st; line := S (line st);
         column := 1; pos := pos st + String.length comment |}
  | None =>
  match match_COMMENT_MULTI currentInput with
  | Some comment =>
      let lines := split_lines comment in
      {| tokens := tokens st; errors := errors st;
         line := line st + (length lines - 1);
         column := if 1 <? length lines
                   then String.length (List.last lines EmptyString) + 1
                   else column st + String.length comment;
         pos := pos st + String.length comment |}
  | None =>
  match match_IDENTIFIER currentInput with
  | Some value =>
      push_token (if includes KEYWORDS value then "KEYWORD" else "IDENTIFIER")
                 value st
  | None =>
  match match_NUMBER currentInput with
  | Some value => push_token "NUMBER" value st
  | None =>
  match match_STRING currentInput with
  | Some value => push_token "STRING" value st
  | None =>
  match match_OPERATOR currentInput with
  | Some value => push_token "OPERATOR" value st
  | None =>
  match match_PUNCTUATION currentInput with
  | Some value => push_token "PUNCTUATION" value st
  | None =>
      {| tokens := tokens st;
         errors := errors st ++
           [mkError ("Unexpected character: " +:+ take_str 1 currentInput)
                    (line st) (column st)];
         line := line st;
         column := S (column st);
         pos := S (pos st) |}
  end end end end end end end end.

(** The [while (pos < input.length)] loop. [None] when the loop is still
    running after [fuel] iterations. *)
Fixpoint scan_loop (fuel : nat) (input : string) (st : LexState) : option LexState :=
  if pos st <? String.length input then
    match fuel with
    | O => None
    | S fuel' => scan_loop fuel' input (scan_step input st)
    end
  else Some st.

Definition init_state : LexState :=
  {| tokens := []; errors := []; line := 1; column := 1; pos := 0 |}.

Definition tokenize_fuel (fuel : nat) (input : string)
  : option (list Token * list CompilerError) :=
  (fun st => (tokens st, errors st)) <$> scan_loop fuel input init_state.

(** [tokenize]: the loop never needs more iterations than the input has
    characters (see [scan_loop_terminates]). *)
Definition tokenize (input : string) : list Token * list CompilerError :=
  default ([], []) (tokenize_fuel (String.length input) input).

End Lexer.

(** ** Shared data types *)

(** [ASTNode]: a string kind, optional text and position, and optional
    children read by position. The parser can leave [null] in a children
    array, so an element of the array is an [option]. *)
Unset Elimination Schemes.
Inductive ASTNode : Type := mkNode {
  node_type : string;
  node_value : option string;
  node_line : option nat;
  node_column : option nat;
  node_children : option (list (option ASTNode))
}.
Set Elimination Schemes.

Record IRInstruction := mkInstr {
  op : string;
  result : option string;
  arg1 : option string;
  arg2 : option string
}.

Global Instance IRInstruction_eq_dec : EqDecision IRInstruction.
Proof. solve_decision. Defined.

(** Object literals with some fields left out. *)
Definition instr0 (o : string) : IRInstruction := mkInstr o None None None.
Definition instr_r (o r : string) : IRInstruction := mkInstr o (Some r) None None.
Definition instr_a (o a : string) : IRInstruction := mkInstr o None (Some a) None.
Definition instr_ra (o r a : string) : IRInstruction := mkInstr o (Some r) (Some a) None.
Definition instr_rab (o r a b : string) : IRInstruction :=
  mkInstr o (Some r) (Some a) (Some b).

(** [node.children![i]]: raises when there are no children; [None] is
    [undefined] or [null]. *)
Definition child {S} (kids : option (list (option ASTNode))) (i : nat)
  : Comp S (option ASTNode) :=
  match kids with
  | Some l => ret (mjoin (l !! i))
  | None => throw
  end.

(** A property read on [node.children![i]]. *)
Definition child_get {S A} (kids : option (list (option ASTNode))) (i : nat)
    (f : ASTNode -> A) : Comp S A :=
  do c <- child kids i;
  match c with
  | Some n => ret (f n)
  | None => throw
  end.

(** [node.children!.length] *)
Definition children_length {S} (kids : option (list (option ASTNode)))
  : Comp S nat :=
  match kids with
  | Some l => ret (length l)
  | None => throw
  end.

(** ** Parser *)

Module Parser.
Import Lexer.

(** The mutable locals of [parse]. *)
Record PState := mkP {
  currentTokenIndex : nat;
  perrors : list CompilerError
}.

(** A computation of the parser. The parser raises nowhere; [None] means
    that a loop or a recursion of the model ran out of fuel. *)
Definition P (A : Type) : Type := Comp PState A.

Definition out_of_fuel {A} : P A := throw.

Definition leaf (ty : string) (t : Token) : ASTNode :=
  mkNode ty (Some (tok_value t)) (Some (tok_line t)) (Some (tok_column t)) None.

Definition inner (ty : string) (kids : list (option ASTNode)) : ASTNode :=
  mkNode ty None None None (Some kids).

Definition inner_at (ty : string) (t : Token) (kids : list (option ASTNode)) : ASTNode :=
  mkNode ty None (Some (tok_line t)) (Some (tok_column t)) (Some kids).

(** [if (x) kids.push(x)] *)
Definition push_if (kids : list (option ASTNode)) (x : option ASTNode)
  : list (option ASTNode) :=
  match x with
  | Some _ => kids ++ [x]
  | None => kids
  end.

Section WithTokens.

Variable tokens : list Token.

Definition peek : P (option Token) :=
  fun st => Some (tokens !! currentTokenIndex st, st).

Definition consume : P (option Token) :=
  fun st =>
    if currentTokenIndex st <? length tokens
    then Some (tokens !! currentTokenIndex st,
               mkP (S (currentTokenIndex st)) (perrors st))
    else Some (None, st).

Definition push_error (message : string) (line column : nat) : P unit :=
  modify (fun st => mkP (currentTokenIndex st)
                        (perrors st ++ [mkError message line column])).

(** [token.type === type && (!value || token.value === value)] *)
Definition token_is (t : Token) (ty : string) (value : option string) : bool :=
  bool_decide (tok_type t = ty)
  && (negb (truthy value) || bool_decide (Some (tok_value t) = value)).

Definition matches (ty : string) (value : option string) : P bool :=
  do token <- peek;
  match token with
  | None => ret false
  | Some t => if token_is t ty value then run consume; ret true else ret false
  end.

Definition expected_text (ty : string) (value : option string) : string :=
  "Expected " +:+ ty
  +:+ (if truthy value then " '" +:+ or_default value "" +:+ "'" else "").

Definition expect (ty : string) (value errorMessage : option string)
  : P (option Token) :=
  do token <- peek;
  match token with
  | None =>
      let last := match length tokens with
                  | O => None
                  | S n => tokens !! n
                  end in
      run push_error
        (or_default errorMessage
           (expected_text ty value +:+ ", but got end of input"))
        (from_option tok_line 0 last) (from_option tok_column 0 last);
      ret None
  | Some t =>
      if token_is t ty value then consume
      else
        run push_error
          (or_default errorMessage
             (expected_text ty value +:+ ", but got " +:+ tok_type t
              +:+ " '" +:+ tok_value t +:+ "'"))
          (tok_line t) (tok_column t);
        ret None
  end.

Definition punct (v : string) : P bool := matches "PUNCTUATION" (Some v).
Definition oper (v : string) : P bool := matches "OPERATOR" (Some v).
Definition expect_punct (v msg : string) : P (option Token) :=
  expect "PUNCTUATION" (Some v) (Some msg).

(** [while (peek() && !match(..., ";") && !match(..., "}")) consume()] *)
Fixpoint recover (fuel : nat) : P unit :=
  match fuel with
  | O => out_of_fuel
  | S fuel' =>
      do token <- peek;
      match token with
      | None => ret tt
      | Some _ =>
          do semi <- punct ";";
          if semi then ret tt
          else do brace <- punct "}";
               if brace then ret tt
               else run consume; recover fuel'
      end
  end.

(** The first operator of [ops] that [match] accepts, as left in
    [tokens[currentTokenIndex - 1].value]. *)
Fixpoint oper_any (ops : list string) : P (option string) :=
  match ops with
  | [] => ret None
  | o :: ops' => do m <- oper o; if m then ret (Some o) else oper_any ops'
  end.

(** The loop of a left-associative binary level: [kind] gives the node
    kind for the operator that was matched. *)
Fixpoint binary_loop (fuel : nat) (ops : list string) (kind : string -> string)
    (operand : P (option ASTNode)) (expr : option ASTNode) : P (option ASTNode) :=
  match fuel with
  | O => out_of_fuel
  | S fuel' =>
      do o <- oper_any ops;
      match o with
      | None => ret expr
      | Some operator =>
          do right <- operand;
          match right with
          | None => ret None
          | Some _ =>
              binary_loop fuel' ops kind operand
                (Some (inner (kind operator) [expr; right]))
          end
      end
  end.

Definition binary_level (fuel : nat) (ops : list string) (kind : string -> string)
    (operand : P (option ASTNode)) : P (option ASTNode) :=
  do expr <- operand;
  binary_loop fuel ops kind operand expr.

(** The mutually recursive rules, one level of recursion depth at a
    time: the rules reached again from inside a rule are taken from
    [self]. *)
Record Rules := mkRules {
  ruleStatement : P (option ASTNode);
  ruleExpression : P (option ASTNode);
  ruleUnary : P (option ASTNode)
}.

Section OneLevel.

Variable self : Rules.
Variable fuel : nat.

Definition parsePrimary : P (option ASTNode) :=
  do token <- peek;
  match token with
  | None => ret None
  | Some t =>
      if bool_decide (tok_type t = "NUMBER") then
        run consume; ret (Some (leaf "NumberLiteral" t))
      else if bool_decide (tok_type t = "STRING") then
        run consume; ret (Some (leaf "StringLiteral" t))
      else if bool_decide (tok_type t = "KEYWORD")
              && (bool_decide (tok_value t = "true")
                  || bool_decide (tok_value t = "false")) then
        run consume; ret (Some (leaf "BooleanLiteral" t))
      else if bool_decide (tok_type t = "IDENTIFIER") then
        run consume; ret (Some (leaf "Identifier" t))
      else if bool_decide (tok_type t = "PUNCTUATION")
              && bool_decide (tok_value t = "(") then
        run consume;
        do expr <- ruleExpression self;
        run expect_punct ")" "Expected closing parenthesis";
        match expr with
        | None => ret None
        | Some _ => ret (Some (inner "Grouping" [expr]))
        end
      else
        run push_error
          ("Expected expression, but got " +:+ tok_type t +:+ " '"
           +:+ tok_value t +:+ "'")
          (tok_line t) (tok_column t);
        ret None
  end.

(** The [do ... while (match(..., ","))] loop of [finishCall]. *)
Fixpoint call_args (n : nat) (args : list (option ASTNode))
  : P (list (option ASTNode)) :=
  match n with
  | O => out_of_fuel
  | S n' =>
      do arg <- ruleExpression self;
      let args := push_if args arg in
      do comma <- punct ",";
      if comma then call_args n' args else ret args
  end.

Definition finishCall (callee : ASTNode) : P ASTNode :=
  do close <- punct ")";
  do args <- (if close then ret []
              else do args <- call_args fuel [];
                   run expect_punct ")" "Expected closing parenthesis after arguments";
                   ret args);
  ret (inner "FunctionCall" (Some callee :: args)).

Fixpoint call_loop (n : nat) (expr : ASTNode) : P (option ASTNode) :=
  match n with
  | O => out_of_fuel
  | S n' =>
      do open <- punct "(";
      if open then do expr' <- finishCall expr; call_loop n' expr'
      else ret (Some expr)
  end.

Definition parseCall : P (option ASTNode) :=
  do expr <- parsePrimary;
  match expr with
  | None => ret None
  | Some e => call_loop fuel e
  end.

Definition parseUnary : P (option ASTNode) :=
  do o <- oper_any ["!"; "-"];
  match o with
  | Some operator =>
      do right <- ruleUnary self;
      match right with
      | None => ret None
      | Some _ =>
          ret (Some (inner (if decide (operator = "!") then "LogicalNot"
                            else "Negation") [right]))
      end
  | None => parseCall
  end.

(** [switch (operator)] with no default: the kind stays [undefined] for
    an operator that is not listed, which cannot happen after the match. *)
Definition factor_kind (o : string) : string :=
  if decide (o = "*") then "Multiplication"
  else if decide (o = "/") then "Division"
  else "Modulo".

Definition comparison_kind (o : string) : string :=
  if decide (o = "<") then "LessThan"
  else if decide (o = ">") then "GreaterThan"
  else if decide (o = "<=") then "LessThanEqual"
  else "GreaterThanEqual".

Definition parseFactor : P (option ASTNode) :=
  binary_level fuel ["*"; "/"; "%"] factor_kind parseUnary.

Definition parseTerm : P (option ASTNode) :=
  binary_level fuel ["+"; "-"]
    (fun o => if decide (o = "+") then "Addition" else "Subtraction") parseFactor.

Definition parseComparison : P (option ASTNode) :=
  binary_level fuel ["<"; ">"; "<="; ">="] comparison_kind parseTerm.

Definition parseEquality : P (option ASTNode) :=
  binary_level fuel ["=="; "!="]
    (fun o => if decide (o = "==") then "Equal" else "NotEqual") parseComparison.

Definition parseLogicalAnd : P (option ASTNode) :=
  binary_level fuel ["&&"] (fun _ => "LogicalAnd") parseEquality.

Definition parseLogicalOr : P (option ASTNode) :=
  binary_level fuel ["||"] (fun _ => "LogicalOr") parseLogicalAnd.

Definition parseAssignment : P (option ASTNode) :=
  do left <- parseLogicalOr;
  match left with
  | None => ret None
  | Some _ =>
      do eq <- oper "=";
      if eq then
        do right <- ruleExpression self;
        match right with
        | None => ret None
        | Some _ => ret (Some (inner "Assignment" [left; right]))
        end
      else ret left
  end.

Definition parseExpression : P (option ASTNode) := parseAssignment.

Definition parseExpressionStatement : P (option ASTNode) :=
  do expression <- parseExpression;
  match expression with
  | None => ret None
  | Some _ =>
      run expect_punct ";" "Expected semicolon after expression";
      ret (Some (inner "ExpressionStatement" [expression]))
  end.

Definition parsePrintStatement : P (option ASTNode) :=
  do printToken <- consume;
  match printToken with
  | None => throw
  | Some t =>
      run expect_punct "(" "Expected opening parenthesis after print";
      do expression <- parseExpression;
      run expect_punct ")" "Expected closing parenthesis after print argument";
      run expect_punct ";" "Expected semicolon after print statement";
      ret (Some (inner_at "PrintStatement" t (push_if [] expression)))
  end.

Definition parseReturnStatement : P (option ASTNode) :=
  do returnToken <- consume;
  match returnToken with
  | None => throw
  | Some t =>
      do semi <- punct ";";
      do kids <- (if semi then ret []
                  else do expression <- parseExpression;
                       run expect_punct ";" "Expected semicolon after return statement";
                       ret (push_if [] expression));
      ret (Some (inner_at "ReturnStatement" t kids))
  end.

Definition parseVariableDeclaration (typeToken identifierToken : Token)
  : P (option ASTNode) :=
  let kids := [Some (leaf "Type" typeToken); Some (leaf "Identifier" identifierToken)] in
  do eq <- oper "=";
  do kids <- (if eq then do expression <- parseExpression;
                         ret (push_if kids expression)
              else ret kids);
  run expect_punct ";" "Expected semicolon after variable declaration";
  ret (Some (inner "VariableDeclaration" kids)).

(** The loop of [parseBlock]: statements up to the closing brace. *)
Fixpoint block_loop (n : nat) (kids : list (option ASTNode))
  : P (list (option ASTNode)) :=
  match n with
  | O => out_of_fuel
  | S n' =>
      do token <- peek;
      match token with
      | None => ret kids
      | Some t =>
          if bool_decide (tok_value t = "}") then ret kids
          else
            do statement <- ruleStatement self;
            match statement with
            | Some _ => block_loop n' (kids ++ [statement])
            | None => run recover fuel; block_loop n' kids
            end
      end
  end.

Definition parseBlock : P (option ASTNode) :=
  do open <- punct "{";
  if open then
    do kids <- block_loop fuel [];
    run expect_punct "}" "Expected closing brace";
    ret (Some (inner "Block" kids))
  else
    do token <- peek;
    run push_error "Expected opening brace"
      (from_option tok_line 0 token) (from_option tok_column 0 token);
    ret None.

Definition parseIfStatement : P (option ASTNode) :=
  run consume;
  run expect_punct "(" "Expected opening parenthesis after if";
  do condition <- parseExpression;
  let kids := push_if [] condition in
  run expect_punct ")" "Expected closing parenthesis after condition";
  do thenBranch <- ruleStatement self;
  let kids := push_if kids thenBranch in
  do els <- matches "KEYWORD" (Some "else");
  do kids <- (if els then do elseBranch <- ruleStatement self;
                          ret (push_if kids elseBranch)
              else ret kids);
  ret (Some (inner "IfStatement" kids)).

Definition parseWhileStatement : P (option ASTNode) :=
  run consume;
  run expect_punct "(" "Expected opening parenthesis after while";
  do condition <- parseExpression;
  let kids := push_if [] condition in
  run expect_punct ")" "Expected closing parenthesis after condition";
  do body <- ruleStatement self;
  ret (Some (inner "WhileStatement" (push_if kids body))).

Definition empty_node : option ASTNode := Some (mkNode "Empty" None None None None).

Definition parseForStatement : P (option ASTNode) :=
  run consume;
  run expect_punct "(" "Expected opening parenthesis after for";
  do semi <- punct ";";
  do kids <- (if semi then ret [empty_node]
              else do initialization <- ruleStatement self;
                   ret (push_if [] initialization));
  do semi <- punct ";";
  do kids <- (if semi then ret (kids ++ [empty_node])
              else do condition <- parseExpression;
                   run expect_punct ";" "Expected semicolon after for condition";
                   ret (push_if kids condition));
  do close <- punct ")";
  do kids <- (if close then ret (kids ++ [empty_node])
              else do increment <- parseExpression;
                   run expect_punct ")" "Expected closing parenthesis after for increment";
                   ret (push_if kids increment));
  do body <- ruleStatement self;
  ret (Some (inner "ForStatement" (push_if kids body))).

Definition parseStatement : P (option ASTNode) :=
  do token <- peek;
  match token with
  | None => ret None
  | Some t =>
      let keyword v := bool_decide (tok_type t = "KEYWORD")
                       && bool_decide (tok_value t = v) in
      if bool_decide (tok_type t = "PUNCTUATION") && bool_decide (tok_value t = "{")
      then parseBlock
      else if keyword "if" then parseIfStatement
      else if keyword "while" then parseWhileStatement
      else if keyword "for" then parseForStatement
      else if keyword "return" then parseReturnStatement
      else if keyword "print" then parsePrintStatement
      else if bool_decide (tok_type t = "KEYWORD")
              && bool_decide (tok_value t ∈ ["int"; "float"; "bool"]) then
        run consume;
        do identifierToken <- expect "IDENTIFIER" None (Some "Expected variable name");
        match identifierToken with
        | None => ret None
        | Some i => parseVariableDeclaration t i
        end
      else parseExpressionStatement
  end.

(** The [do ... while (match(..., ","))] loop over the parameters. *)
Fixpoint param_loop (n : nat) (params : list (option ASTNode))
  : P (list (option ASTNode)) :=
  match n with
  | O => out_of_fuel
  | S n' =>
      do paramType <- expect "KEYWORD" None (Some "Expected parameter type");
      do paramName <- expect "IDENTIFIER" None (Some "Expected parameter name");
      let params :=
        match paramType, paramName with
        | Some ty, Some name =>
            params ++ [Some (inner "Parameter"
                         [Some (leaf "Type" ty); Some (leaf "Identifier" name)])]
        | _, _ => params
        end in
      do comma <- punct ",";
      if comma then param_loop n' params else ret params
  end.

Definition parseFunctionDeclaration (typeToken identifierToken : Token)
  : P (option ASTNode) :=
  let kids := [Some (leaf "Type" typeToken); Some (leaf "Identifier" identifierToken)] in
  run expect_punct "(" "Expected opening parenthesis";
  do close <- punct ")";
  do params <- (if close then ret []
                else do params <- param_loop fuel [];
                     run expect_punct ")" "Expected closing parenthesis or comma";
                     ret params);
  let kids := kids ++ [Some (inner "Parameters" params)] in
  do body <- parseBlock;
  ret (Some (inner "FunctionDeclaration" (push_if kids body))).

Definition parseDeclaration : P (option ASTNode) :=
  do token <- peek;
  match token with
  | None => ret None
  | Some t =>
      if bool_decide (tok_type t = "KEYWORD")
         && bool_decide (tok_value t ∈ ["int"; "float"; "bool"; "void"]) then
        run consume;
        do identifierToken <-
          expect "IDENTIFIER" None (Some "Expected function or variable name");
        match identifierToken with
        | None => ret None
        | Some i =>
            do next <- peek;
            if from_option (fun n => bool_decide (tok_type n = "PUNCTUATION")
                                     && bool_decide (tok_value n = "(")) false next
            then parseFunctionDeclaration t i
            else parseVariableDeclaration t i
        end
      else
        run push_error
          ("Expected declaration, but got " +:+ tok_type t +:+ " '"
           +:+ tok_value t +:+ "'")
          (tok_line t) (tok_column t);
        ret None
  end.

(** The loop of [parseProgram]. *)
Fixpoint program_loop (n : nat) (kids : list (option ASTNode))
  : P (list (option ASTNode)) :=
  match n with
  | O => out_of_fuel
  | S n' =>
      do token <- peek;
      match token with
      | None => ret kids
      | Some _ =>
          do declaration <- parseDeclaration;
          match declaration with
          | Some _ => program_loop n' (kids ++ [declaration])
          | None => run recover fuel; program_loop n' kids
          end
      end
  end.

Definition parseProgram : P ASTNode :=
  do kids <- program_loop fuel [];
  ret (inner "Program" kids).

End OneLevel.

(** The rules at recursion depth [depth]; loops are given [fuel]
    iterations. *)
Fixpoint rules (fuel depth : nat) : Rules :=
  match depth with
  | O => mkRules out_of_fuel out_of_fuel out_of_fuel
  | S depth' =>
      let self := rules fuel depth' in
      mkRules (parseStatement self fuel) (parseExpression self fuel)
              (parseUnary self fuel)
  end.

Definition parse_fuel (fuel : nat) : option (ASTNode * list CompilerError) :=
  match parseProgram (rules fuel fuel) fuel (mkP 0 []) with
  | Some (ast, st) => Some (ast, perrors st)
  | None => None
  end.

End WithTokens.

(** [parse]. Every loop iteration and every nested rule consumes a token
    first, so a budget of one more than the number of tokens is never
    used up. *)
Definition parse (tokens : list Token) : option (ASTNode * list CompilerError) :=
  parse_fuel tokens (S (length tokens)).

End Parser.

(** ** Semantic analyzer *)

Module Analyzer.

Record Symbol := mkSymbol {
  sym_name : string;
  sym_type : string;
  sym_kind : string;
  sym_line : nat;
  sym_column : nat;
  sym_initialized : bool;
  sym_params : option (list (string * string));
  sym_returnType : option string
}.

Record Scope := mkScope {
  parent : option string;
  symbols : gmap string Symbol
}.

Record SymbolTable := mkTable {
  scopes : gmap string Scope;
  currentScope : string
}.

(** The state of one run of [analyze]: the table, the diagnostics, and
    the number of calls made to [Math.random] so far. *)
Record AState := mkA {
  symbolTable : SymbolTable;
  errors : list CompilerError;
  draws : nat
}.

(** A computation of the analyzer. [None]: the run does not return,
    because a [TypeError] is raised or a walk up the scope chain never
    ends. *)
Definition A (X : Type) : Type := Comp AState X.

Definition set_table (f : SymbolTable -> SymbolTable) : A unit :=
  modify (fun st => mkA (f (symbolTable st)) (errors st) (draws st)).

Definition push_error (message : string) (line column : nat) : A unit :=
  modify (fun st => mkA (symbolTable st)
                        (errors st ++ [mkError message line column]) (draws st)).

(** [node.line || 0] and [node.column || 0] *)
Definition line_of (n : ASTNode) : nat := default 0 (node_line n).
Definition column_of (n : ASTNode) : nat := default 0 (node_column n).

Definition error_at (message : string) (n : ASTNode) : A unit :=
  push_error message (line_of n) (column_of n).

Definition enterScope (scopeName : string) : A unit :=
  set_table (fun t =>
    mkTable (<[scopeName := mkScope (Some (currentScope t)) ∅]> (scopes t))
            scopeName).

Definition exitScope : A unit :=
  do st <- get;
  match scopes (symbolTable st) !! currentScope (symbolTable st) with
  | Some scope =>
      set_table (fun t => mkTable (scopes t) (or_default (parent scope) "global"))
  | None => throw
  end.

(** The scope object [symbolTable.scopes[symbolTable.currentScope]]; a
    property read on it raises when it is [undefined]. *)
Definition current_scope : A Scope :=
  do st <- get;
  match scopes (symbolTable st) !! currentScope (symbolTable st) with
  | Some scope => ret scope
  | None => throw
  end.

(** [node] is the argument [node.children![1]] of the caller, [None]
    when that is [undefined] or [null]; both branches read its position. *)
Definition declareSymbol (name type kind : string) (node : option ASTNode)
    (params : option (list (string * string))) (returnType : option string)
  : A unit :=
  do scope <- current_scope;
  match node with
  | None => throw
  | Some n =>
      match symbols scope !! name with
      | Some prior =>
          error_at ("Redeclaration of '" +:+ name
                    +:+ "'. It was already declared at line "
                    +:+ pretty (sym_line prior) +:+ ", column "
                    +:+ pretty (sym_column prior)) n
      | None =>
          let sym := mkSymbol name type kind (line_of n) (column_of n)
                       (bool_decide (kind = "parameter")
                        || bool_decide (kind = "function"))
                       params returnType in
          set_table (fun t =>
            mkTable (<[currentScope t :=
                        mkScope (parent scope) (<[name := sym]> (symbols scope))]>
                       (scopes t))
                    (currentScope t))
      end
  end.

(** The [while (currentScopeName)] loop of [resolveSymbol]: the scope
    where the name is found and its symbol. The walk follows parent
    links without changing the table, so a walk longer than the number of
    scopes is in a cycle and never ends; that is the outer [None], as is
    the [TypeError] on a scope that does not exist. *)
Fixpoint resolve_from (fuel : nat) (scopes : gmap string Scope) (name : string)
    (currentScopeName : string) : option (option (string * Symbol)) :=
  match fuel with
  | O => None
  | S fuel' =>
      if decide (currentScopeName = "") then Some None
      else match scopes !! currentScopeName with
           | None => None
           | Some scope =>
               match symbols scope !! name with
               | Some sym => Some (Some (currentScopeName, sym))
               | None => resolve_from fuel' scopes name (or_default (parent scope) "")
               end
           end
  end.

Definition resolveSymbol (name : string) (node : ASTNode)
  : A (option (string * Symbol)) :=
  do st <- get;
  let t := symbolTable st in
  match resolve_from (S (size (scopes t))) (scopes t) name (currentScope t) with
  | None => throw
  | Some (Some found) => ret (Some found)
  | Some None =>
      run error_at ("Undefined symbol '" +:+ name +:+ "'") node;
      ret None
  end.

(** [symbol.initialized = true] on the symbol object held by [scopeName]
    under [name]. *)
Definition mark_initialized (scopeName name : string) : A unit :=
  set_table (fun t =>
    mkTable
      (alter (fun sc =>
                mkScope (parent sc)
                  (alter (fun sym =>
                            mkSymbol (sym_name sym) (sym_type sym) (sym_kind sym)
                              (sym_line sym) (sym_column sym) true
                              (sym_params sym) (sym_returnType sym))
                         name (symbols sc)))
             scopeName (scopes t))
      (currentScope t)).

(** [s.includes(".")] *)
Fixpoint has_dot (s : string) : bool :=
  match s with
  | String c s' => bool_decide (c = "."%char) || has_dot s'
  | EmptyString => false
  end.

(** [s.toLowerCase()] on the letters A to Z. *)
Fixpoint toLowerCase (s : string) : string :=
  match s with
  | String c s' =>
      String (if (65 <=? code c) && (code c <=? 90)
              then ascii_of_nat (code c + 32) else c) (toLowerCase s')
  | EmptyString => EmptyString
  end.

Definition arithmetic_kinds : list string :=
  ["Addition"; "Subtraction"; "Multiplication"; "Division"; "Modulo"].

Definition bool_kinds : list string :=
  ["Equal"; "NotEqual"; "LessThan"; "GreaterThan"; "LessThanEqual";
   "GreaterThanEqual"; "LogicalAnd"; "LogicalOr"; "LogicalNot"].

Definition is_number_type (t : string) : bool :=
  bool_decide (t = "int") || bool_decide (t = "float").

(** [expected !== actual && !(expected === "float" && actual === "int")] *)
Definition type_mismatch (expected actual : string) : bool :=
  negb (bool_decide (expected = actual))
  && negb (bool_decide (expected = "float") && bool_decide (actual = "int")).

(** The children of a node as nodes, [undefined] and [null] alike. *)
Definition kid (kids : option (list (option ASTNode))) (i : nat) : option ASTNode :=
  l ← kids; mjoin (l !! i).

(** The cases of [getTypeOfNode], for a node whose children have their
    types prepared in [types]: [type_at i] is
    [getTypeOfNode(node.children![i])]. *)
Section TypeCases.

Variable node : ASTNode.
Variable types : option (list (A string)).

Let kids := node_children node.

Definition type_at (i : nat) : A string :=
  match types with
  | Some ts => match ts !! i with Some t => t | None => throw end
  | None => throw
  end.

Definition type_arithmetic : A string :=
  do leftType <- type_at 0;
  do rightType <- type_at 1;
  if bool_decide (leftType = "int") && bool_decide (rightType = "int") then ret "int"
  else if is_number_type leftType && is_number_type rightType then ret "float"
  else
    run error_at ("Invalid operand types for " +:+ toLowerCase (node_type node)
                  +:+ ": " +:+ leftType +:+ " and " +:+ rightType) node;
    ret "unknown".

Definition type_Negation : A string :=
  do exprType <- type_at 0;
  run when (negb (is_number_type exprType))
        (error_at ("Cannot negate type " +:+ exprType) node);
  ret exprType.

(** The body of the loop over the arguments of a call. *)
Definition check_argument (funcName : string) (f : Symbol) (i : nat) : A unit :=
  match sym_params f ≫= (.!! i) with
  | None => throw
  | Some (_, expectedType) =>
      do actualType <- type_at (i + 1);
      when (type_mismatch expectedType actualType)
        (match kid kids (i + 1) with
         | Some arg =>
             error_at ("Argument " +:+ pretty (i + 1) +:+ " of function '"
                       +:+ funcName +:+ "' expects type " +:+ expectedType
                       +:+ ", but got " +:+ actualType) arg
         | None => throw
         end)
  end.

Definition type_FunctionCall : A string :=
  do funcName <- child_get kids 0 (fun n => or_default (node_value n) "");
  do funcSymbol <- resolveSymbol funcName node;
  match funcSymbol with
  | Some (_, f) =>
      if bool_decide (sym_kind f = "function") then
        let expectedArgCount := from_option length 0 (sym_params f) in
        do len <- children_length kids;
        let actualArgCount := len - 1 in
        run (if negb (expectedArgCount =? actualArgCount) then
               error_at ("Function '" +:+ funcName +:+ "' expects "
                         +:+ pretty expectedArgCount +:+ " arguments, but got "
                         +:+ pretty actualArgCount) node
             else
               run sequence (map (check_argument funcName f) (seq 0 actualArgCount));
               ret tt);
        ret (or_default (sym_returnType f) "void")
      else ret "unknown"
  | None => ret "unknown"
  end.

Definition type_cases : A string :=
  let ty := node_type node in
  if decide (ty = "NumberLiteral") then
    ret (if from_option has_dot false (node_value node) then "float" else "int")
  else if decide (ty = "StringLiteral") then ret "string"
  else if decide (ty = "BooleanLiteral") then ret "bool"
  else if decide (ty = "Identifier") then
    do symbol <- resolveSymbol (or_default (node_value node) "") node;
    ret (from_option (fun f => sym_type f.2) "unknown" symbol)
  else if bool_decide (ty ∈ arithmetic_kinds) then type_arithmetic
  else if bool_decide (ty ∈ bool_kinds) then ret "bool"
  else if decide (ty = "Negation") then type_Negation
  else if decide (ty = "FunctionCall") then type_FunctionCall
  else ret "unknown".

End TypeCases.

(** What a recursive function does on a child that may be [null]. *)
Definition on_child {X} (f : ASTNode -> A X) (c : option ASTNode) : A X :=
  match c with
  | Some n => f n
  | None => throw
  end.

Fixpoint getTypeOfNode (node : ASTNode) : A string :=
  type_cases node
    (match node_children node with
     | Some l => Some (map (on_child getTypeOfNode) l)
     | None => None
     end).

(** The [while] loop of the [ReturnStatement] case: the first scope on
    the chain whose name starts with [function_]. As in [resolve_from],
    the outer [None] is a walk that never ends or a [TypeError]. *)
Fixpoint enclosing_function (fuel : nat) (scopes : gmap string Scope)
    (currentScopeName : string) : option (option string) :=
  match fuel with
  | O => None
  | S fuel' =>
      if decide (currentScopeName = "") then Some None
      else if startsWith "function_" currentScopeName then Some (Some currentScopeName)
      else match scopes !! currentScopeName with
           | None => None
           | Some scope =>
               enclosing_function fuel' scopes (or_default (parent scope) "")
           end
  end.

Section WithRandom.

(** [rnd k] is the text that the [k]-th call of
    [Math.random().toString(36).substr(2, 9)] of a run yields. *)
Variable rnd : nat -> string.

Definition fresh_block_id : A string :=
  do st <- get;
  run put (mkA (symbolTable st) (errors st) (S (draws st)));
  ret ("block_" +:+ rnd (draws st)).

(** The name and the type of a [Parameter] node. *)
Definition param_info (paramNode : option ASTNode) : A (string * string * option ASTNode) :=
  match paramNode with
  | None => throw
  | Some p =>
      do paramType <- child_get (node_children p) 0
                        (fun n => or_default (node_value n) "");
      do paramName <- child_get (node_children p) 1
                        (fun n => or_default (node_value n) "");
      ret (paramName, paramType, kid (node_children p) 1)
  end.

(** The cases of the [switch] of [visitNode], for a node whose children
    have their visits prepared in [visits]. *)
Section Cases.

Variable node : ASTNode.
Variable visits : option (list (A unit)).

Let kids := node_children node.

Definition visit (i : nat) : A unit :=
  match visits with
  | Some vs => match vs !! i with Some v => v | None => throw end
  | None => throw
  end.

Definition visitChildren : A unit :=
  match visits with
  | Some vs => run sequence vs; ret tt
  | None => ret tt
  end.

(** [getTypeOfNode(node.children![i])] *)
Definition type_of (i : nat) : A string :=
  do c <- child kids i;
  on_child getTypeOfNode c.

Definition case_Program : A unit :=
  run visitChildren;
  do st <- get;
  match scopes (symbolTable st) !! "global" with
  | None => throw
  | Some g =>
      when (negb (from_option (fun m => bool_decide (sym_kind m = "function"))
                    false (symbols g !! "main")))
        (push_error "Program must have a main function" 0 0)
  end.

Definition case_FunctionDeclaration : A unit :=
  do returnType <- child_get kids 0 (fun n => or_default (node_value n) "void");
  do funcName <- child_get kids 1 (fun n => or_default (node_value n) "");
  do paramNodes <- child_get kids 2 node_children;
  do params <- sequence (map param_info (default [] paramNodes));
  run declareSymbol funcName "function" "function" (kid kids 1)
        (Some (map (fun p => (p.1.1, p.1.2)) params)) (Some returnType);
  run enterScope ("function_" +:+ funcName);
  run sequence (map (fun p : string * string * option ASTNode =>
                       declareSymbol p.1.1 p.1.2 "parameter" p.2 None None)
                    params);
  do len <- children_length kids;
  run when (3 <? len) (visit 3);
  exitScope.

Definition case_VariableDeclaration : A unit :=
  do varType <- child_get kids 0 (fun n => or_default (node_value n) "");
  do varName <- child_get kids 1 (fun n => or_default (node_value n) "");
  run declareSymbol varName varType "variable" (kid kids 1) None None;
  do len <- children_length kids;
  when (2 <? len)
    (do exprType <- type_of 2;
     run when (type_mismatch varType exprType)
           (match kid kids 2 with
            | Some initExpr =>
                error_at ("Cannot initialize variable of type '" +:+ varType
                          +:+ "' with value of type '" +:+ exprType +:+ "'")
                         initExpr
            | None => throw
            end);
     do st <- get;
     do scope <- current_scope;
     when (bool_decide (is_Some (symbols scope !! varName)))
       (mark_initialized (currentScope (symbolTable st)) varName)).

Definition case_Block : A unit :=
  do blockId <- fresh_block_id;
  run enterScope blockId;
  run visitChildren;
  exitScope.

(** [IfStatement], [WhileStatement] and [ForStatement] share one case;
    the node checked as the condition is the first child. *)
Definition case_condition : A unit :=
  do conditionType <- type_of 0;
  run when (negb (bool_decide (conditionType = "bool")))
        (match kid kids 0 with
         | Some conditionNode =>
             error_at ("Condition must be of type 'bool', but got '"
                       +:+ conditionType +:+ "'") conditionNode
         | None => throw
         end);
  visitChildren.

(** The checks of a [return] against the symbol of its function. *)
Definition check_return (functionName : string) (functionSymbol : Symbol) : A unit :=
  let expectedReturnType := or_default (sym_returnType functionSymbol) "void" in
  do len <- children_length kids;
  if 0 <? len then
    do actualReturnType <- type_of 0;
    if bool_decide (expectedReturnType = "void") then
      error_at ("Function '" +:+ functionName
                +:+ "' has void return type but returns a value") node
    else
      when (type_mismatch expectedReturnType actualReturnType)
        (match kid kids 0 with
         | Some returnExpr =>
             error_at ("Function '" +:+ functionName +:+ "' expects return type '"
                       +:+ expectedReturnType +:+ "', but got '"
                       +:+ actualReturnType +:+ "'") returnExpr
         | None => throw
         end)
  else
    when (negb (bool_decide (expectedReturnType = "void")))
      (error_at ("Function '" +:+ functionName +:+ "' expects return type '"
                 +:+ expectedReturnType +:+ "', but no value is returned") node).

Definition case_ReturnStatement : A unit :=
  do st <- get;
  let t := symbolTable st in
  run match enclosing_function (S (size (scopes t))) (scopes t) (currentScope t) with
      | None => throw
      | Some None => ret tt
      | Some (Some functionScope) =>
          let functionName := slice 9 functionScope in
          match scopes t !! "global" with
          | None => throw
          | Some g =>
              match symbols g !! functionName with
              | None => ret tt
              | Some functionSymbol => check_return functionName functionSymbol
              end
          end
      end;
  visitChildren.

Definition case_Assignment : A unit :=
  do leftNode <- child kids 0;
  do rightNode <- child kids 1;
  match leftNode with
  | None => throw
  | Some lhs =>
      run (if negb (bool_decide (node_type lhs = "Identifier")) then
             error_at "Left side of assignment must be a variable" lhs
           else
             let varName := or_default (node_value lhs) "" in
             do symbol <- resolveSymbol varName lhs;
             match symbol with
             | None => ret tt
             | Some (scopeName, sym) =>
                 if negb (bool_decide (sym_kind sym = "variable"))
                    && negb (bool_decide (sym_kind sym = "parameter")) then
                   error_at ("Cannot assign to '" +:+ varName
                             +:+ "' because it is not a variable") lhs
                 else
                   let leftType := sym_type sym in
                   do rightType <- type_of 1;
                   run when (type_mismatch leftType rightType)
                         (error_at ("Cannot assign value of type '" +:+ rightType
                                    +:+ "' to variable of type '" +:+ leftType
                                    +:+ "'") node);
                   mark_initialized scopeName varName
             end);
      visitChildren
  end.

Definition visit_cases : A unit :=
  let ty := node_type node in
  if decide (ty = "Program") then case_Program
  else if decide (ty = "FunctionDeclaration") then case_FunctionDeclaration
  else if decide (ty = "VariableDeclaration") then case_VariableDeclaration
  else if decide (ty = "Block") then case_Block
  else if bool_decide (ty ∈ ["IfStatement"; "WhileStatement"; "ForStatement"])
  then case_condition
  else if decide (ty = "ReturnStatement") then case_ReturnStatement
  else if decide (ty = "Assignment") then case_Assignment
  else visitChildren.

End Cases.

Fixpoint visitNode (node : ASTNode) : A unit :=
  visit_cases node
    (match node_children node with
     | Some l => Some (map (on_child visitNode) l)
     | None => None
     end).

Definition initial_state : AState :=
  mkA (mkTable {["global" := mkScope None ∅]} "global") [] 0.

Definition analyze (ast : ASTNode) : option (SymbolTable * list CompilerError) :=
  match visitNode ast initial_state with
  | Some (_, st) => Some (symbolTable st, errors st)
  | None => None
  end.

End WithRandom.

End Analyzer.

(** ** IR generator *)

Module IRGenerator.

(** The array under construction and the two module-level counters.
    [generateIR] resets the counters before the walk, so their values
    from an earlier call play no role. *)
Record GenState := mkGen {
  instructions : list IRInstruction;
  tempCounter : nat;
  labelCounter : nat
}.

(** A computation over [GenState]; [None] is a raised [TypeError]. *)
Definition Gen (A : Type) : Type := Comp GenState A.

Definition push (i : IRInstruction) : Gen unit :=
  fun st => Some (tt, mkGen (instructions st ++ [i]) (tempCounter st) (labelCounter st)).

Definition newTemp : Gen string :=
  fun st => Some ("t" +:+ pretty (tempCounter st),
                  mkGen (instructions st) (S (tempCounter st)) (labelCounter st)).

Definition newLabel : Gen string :=
  fun st => Some ("L" +:+ pretty (labelCounter st),
                  mkGen (instructions st) (tempCounter st) (S (labelCounter st))).

Definition binary_ops : list (string * string) :=
  [("Equal", "EQ"); ("NotEqual", "NE"); ("LessThan", "LT");
   ("GreaterThan", "GT"); ("LessThanEqual", "LE"); ("GreaterThanEqual", "GE");
   ("Addition", "ADD"); ("Subtraction", "SUB"); ("Multiplication", "MUL");
   ("Division", "DIV"); ("Modulo", "MOD")].

Definition unary_ops : list (string * string) :=
  [("LogicalNot", "NOT"); ("Negation", "NEG")].

Definition lookup_op (table : list (string * string)) (ty : string) : option string :=
  snd <$> List.find (fun p => bool_decide (p.1 = ty)) table.

(** The text of an empty string literal: two double quotes. *)
Definition empty_literal : string := String dquote (String dquote EmptyString).

(** The cases of the [switch] of [visitNode], for a node whose children
    have their visits prepared in [visits]: [visit i] is
    [visitNode(node.children![i])], and visiting [undefined] or [null]
    raises. *)
Section Cases.

Variable node : ASTNode.
Variable visits : option (list (Gen (option string))).

Let kids := node_children node.

Definition visit (i : nat) : Gen (option string) :=
  match visits with
  | Some vs => match vs !! i with Some v => v | None => throw end
  | None => throw
  end.

Definition visitChildren : Gen unit :=
  match visits with
  | Some vs => run sequence vs; ret tt
  | None => ret tt
  end.

Definition case_FunctionDeclaration : Gen (option string) :=
  do funcName <- child_get kids 1 (fun n => or_default (node_value n) "");
  run push (instr_r "LABEL" funcName);
  run push (instr0 "ENTER");
  do len <- children_length kids;
  run when (3 <? len) (run visit 3; ret tt);
  run push (instr0 "LEAVE");
  run push (instr0 "RET");
  ret None.

Definition case_VariableDeclaration : Gen (option string) :=
  do varName <- child_get kids 1 (fun n => or_default (node_value n) "");
  do len <- children_length kids;
  run when (2 <? len)
    (do exprResult <- visit 2;
     when (truthy exprResult)
       (push (instr_ra "ASSIGN" varName (or_default exprResult ""))));
  ret None.

Definition case_IfStatement : Gen (option string) :=
  do condition <- visit 0;
  do elseLabel <- newLabel;
  do endLabel <- newLabel;
  run push (mkInstr "JUMPFALSE" (Some elseLabel) (Some (or_default condition "")) None);
  run visit 1;
  run push (instr_r "JUMP" endLabel);
  run push (instr_r "LABEL" elseLabel);
  do len <- children_length kids;
  run when (2 <? len) (run visit 2; ret tt);
  run push (instr_r "LABEL" endLabel);
  ret None.

Definition case_WhileStatement : Gen (option string) :=
  do startLabel <- newLabel;
  do whileEndLabel <- newLabel;
  run push (instr_r "LABEL" startLabel);
  do whileCondition <- visit 0;
  run push (mkInstr "JUMPFALSE" (Some whileEndLabel)
              (Some (or_default whileCondition "")) None);
  run visit 1;
  run push (instr_r "JUMP" startLabel);
  run push (instr_r "LABEL" whileEndLabel);
  ret None.

Definition case_ForStatement : Gen (option string) :=
  do ty0 <- child_get kids 0 node_type;
  run when (negb (bool_decide (ty0 = "Empty"))) (run visit 0; ret tt);
  do forStartLabel <- newLabel;
  do forEndLabel <- newLabel;
  run push (instr_r "LABEL" forStartLabel);
  do ty1 <- child_get kids 1 node_type;
  run when (negb (bool_decide (ty1 = "Empty")))
    (do forCondition <- visit 1;
     push (mkInstr "JUMPFALSE" (Some forEndLabel)
             (Some (or_default forCondition "")) None));
  run visit 3;
  do ty2 <- child_get kids 2 node_type;
  run when (negb (bool_decide (ty2 = "Empty"))) (run visit 2; ret tt);
  run push (instr_r "JUMP" forStartLabel);
  run push (instr_r "LABEL" forEndLabel);
  ret None.

Definition case_ReturnStatement : Gen (option string) :=
  do len <- children_length kids;
  run (if 0 <? len then
         do returnValue <- visit 0;
         push (instr_a "RET" (or_default returnValue ""))
       else push (instr0 "RET"));
  ret None.

Definition case_PrintStatement : Gen (option string) :=
  do printArg <- visit 0;
  run push (instr_a "PRINT" (or_default printArg ""));
  ret None.

Definition case_Assignment : Gen (option string) :=
  do rightValue <- visit 1;
  do leftName <- child_get kids 0 (fun n => or_default (node_value n) "");
  run push (instr_ra "ASSIGN" leftName (or_default rightValue ""));
  ret (Some leftName).

(** [LogicalOr] and [LogicalAnd] differ in the jump only. The first of
    the two labels they draw is never placed. *)
Definition case_Logical (jump : string) : Gen (option string) :=
  do temp <- newTemp;
  do rightLabel <- newLabel;
  do endLabel <- newLabel;
  do lhs <- visit 0;
  run push (instr_ra "ASSIGN" temp (or_default lhs ""));
  run push (mkInstr jump (Some endLabel) (Some temp) None);
  do rhs <- visit 1;
  run push (instr_ra "ASSIGN" temp (or_default rhs ""));
  run push (instr_r "LABEL" endLabel);
  ret (Some temp).

(** The eleven comparison and arithmetic cases. *)
Definition case_binary (o : string) : Gen (option string) :=
  do lhs <- visit 0;
  do rhs <- visit 1;
  do temp <- newTemp;
  run push (instr_rab o temp (or_default lhs "") (or_default rhs ""));
  ret (Some temp).

Definition case_unary (o : string) : Gen (option string) :=
  do expr <- visit 0;
  do temp <- newTemp;
  run push (instr_ra o temp (or_default expr ""));
  ret (Some temp).

Definition case_FunctionCall : Gen (option string) :=
  do funcCallName <- child_get kids 0 (fun n => or_default (node_value n) "");
  do results <- match visits with
                | Some vs => sequence (drop 1 vs)
                | None => throw
                end;
  let args := omap (fun r => if truthy r then r else None) results in
  run sequence (map (fun a => push (instr_a "PARAM" a)) args);
  do callTemp <- newTemp;
  run push (instr_rab "CALL" callTemp funcCallName (pretty (length args)));
  ret (Some callTemp).

Definition visit_cases : Gen (option string) :=
  let ty := node_type node in
  if decide (ty = "Program") then run visitChildren; ret None
  else if decide (ty = "FunctionDeclaration") then case_FunctionDeclaration
  else if decide (ty = "VariableDeclaration") then case_VariableDeclaration
  else if decide (ty = "Block") then run visitChildren; ret None
  else if decide (ty = "IfStatement") then case_IfStatement
  else if decide (ty = "WhileStatement") then case_WhileStatement
  else if decide (ty = "ForStatement") then case_ForStatement
  else if decide (ty = "ReturnStatement") then case_ReturnStatement
  else if decide (ty = "PrintStatement") then case_PrintStatement
  else if decide (ty = "Assignment") then case_Assignment
  else if decide (ty = "LogicalOr") then case_Logical "JUMPTRUE"
  else if decide (ty = "LogicalAnd") then case_Logical "JUMPFALSE"
  else match lookup_op binary_ops ty with
  | Some o => case_binary o
  | None =>
  match lookup_op unary_ops ty with
  | Some o => case_unary o
  | None =>
  if decide (ty = "FunctionCall") then case_FunctionCall
  else if decide (ty = "NumberLiteral") then ret (Some (or_default (node_value node) "0"))
  else if decide (ty = "StringLiteral") then
    ret (Some (or_default (node_value node) empty_literal))
  else if decide (ty = "BooleanLiteral") then
    ret (Some (or_default (node_value node) "false"))
  else if decide (ty = "Identifier") then ret (Some (or_default (node_value node) ""))
  else if decide (ty = "Grouping") then visit 0
  else run visitChildren; ret None
  end end.

End Cases.

(** The visit of a child that may be [null]. *)
Definition visit_child (visitNode : ASTNode -> Gen (option string))
    (c : option ASTNode) : Gen (option string) :=
  match c with
  | Some n => visitNode n
  | None => throw
  end.

Fixpoint visitNode (node : ASTNode) : Gen (option string) :=
  visit_cases node
    (match node_children node with
     | Some l => Some (map (visit_child visitNode) l)
     | None => None
     end).

Definition generateIR (ast : ASTNode) : option (list IRInstruction) :=
  match visitNode ast (mkGen [] 0 0) with
  | Some (_, st) => Some (instructions st)
  | None => None
  end.

End IRGenerator.

(** ** Optimizer *)

Module Optimizer.

(** [for (let i = 0; i < n; i++) body(i)] over a state. *)
Definition for_range {S} (n : nat) (body : nat -> S -> S) (s : S) : S :=
  fold_left (fun s i => body i s) (seq 0 n) s.

Definition arithmetic_ops : list string := ["ADD"; "SUB"; "MUL"; "DIV"; "MOD"].
Definition comparison_ops : list string := ["EQ"; "NE"; "LT"; "GT"; "LE"; "GE"].

Definition includes (l : list string) (v : string) : bool := bool_decide (v ∈ l).

(** The first [switch] of [constantFolding]: the folded value, [None]
    where the loop goes on to the next instruction without a
    replacement. *)
Definition fold_arithmetic (o : string) (num1 num2 : JSNumber.number)
  : option JSNumber.number :=
  if decide (o = "ADD") then Some (JSNumber.add num1 num2)
  else if decide (o = "SUB") then Some (JSNumber.sub num1 num2)
  else if decide (o = "MUL") then Some (JSNumber.mul num1 num2)
  else if decide (o = "DIV") then
    if JSNumber.is_zero num2 then None else Some (JSNumber.div num1 num2)
  else if decide (o = "MOD") then
    if JSNumber.is_zero num2 then None else Some (JSNumber.rem num1 num2)
  else None.

(** The second [switch]. *)
Definition fold_comparison (o : string) (num1 num2 : JSNumber.number)
  : option bool :=
  if decide (o = "EQ") then Some (JSNumber.eqb num1 num2)
  else if decide (o = "NE") then Some (negb (JSNumber.eqb num1 num2))
  else if decide (o = "LT") then Some (JSNumber.ltb num1 num2)
  else if decide (o = "GT") then Some (JSNumber.ltb num2 num1)
  else if decide (o = "LE") then Some (JSNumber.leb num1 num2)
  else if decide (o = "GE") then Some (JSNumber.leb num2 num1)
  else None.

Definition bool_toString (b : bool) : string := if b then "true" else "false".

(** What one iteration of [constantFolding] leaves in [ir[i]]. Both
    tests read the instruction fetched at the start of the iteration. *)
Definition fold_instr (instr : IRInstruction) : IRInstruction :=
  let a1 := or_default (arg1 instr) "" in
  let a2 := or_default (arg2 instr) "" in
  let num1 := JSNumber.parseFloat a1 in
  let num2 := JSNumber.parseFloat a2 in
  if includes arithmetic_ops (op instr) then
    if isNumeric a1 && isNumeric a2 then
      match fold_arithmetic (op instr) num1 num2 with
      | Some r => mkInstr "ASSIGN" (result instr) (Some (JSNumber.toString r)) None
      | None => instr
      end
    else instr
  else if includes comparison_ops (op instr) then
    if isNumeric a1 && isNumeric a2 then
      match fold_comparison (op instr) num1 num2 with
      | Some r => mkInstr "ASSIGN" (result instr) (Some (bool_toString r)) None
      | None => instr
      end
    else instr
  else instr.

Definition constantFolding (ir : list IRInstruction) : list IRInstruction :=
  for_range (length ir)
    (fun i ir => match ir !! i with
                 | Some instr => <[i := fold_instr instr]> ir
                 | None => ir
                 end) ir.

(** A truthy entry of the [constants] object. *)
Definition tracked (constants : gmap string string) (key : option string)
  : option string :=
  match key with
  | Some k => match constants !! k with
              | Some c => if decide (c = "") then None else Some c
              | None => None
              end
  | None => None
  end.

(** One iteration of the first loop of [constantPropagation]. *)
Definition record_constant (constants : gmap string string) (instr : IRInstruction)
  : gmap string string :=
  match result instr with
  | Some r =>
      if decide (r = "") then constants
      else if bool_decide (op instr = "ASSIGN") && truthy (arg1 instr)
              && isNumeric (or_default (arg1 instr) "")
      then <[r := or_default (arg1 instr) ""]> constants
      else if bool_decide (op instr = "ASSIGN") && truthy (arg1 instr) then
        match tracked constants (arg1 instr) with
        | Some c => <[r := c]> constants
        | None => delete r constants
        end
      else delete r constants
  | None => constants
  end.

(** One iteration of the second loop: the two operands are replaced by
    their entries in the finished [constants]. *)
Definition substitute (constants : gmap string string) (instr : IRInstruction)
  : IRInstruction :=
  let a1 := match tracked constants (arg1 instr) with
            | Some c => if truthy (arg1 instr) then Some c else arg1 instr
            | None => arg1 instr
            end in
  let a2 := match tracked constants (arg2 instr) with
            | Some c => if truthy (arg2 instr) then Some c else arg2 instr
            | None => arg2 instr
            end in
  mkInstr (op instr) (result instr) a1 a2.

Definition constantPropagation (ir : list IRInstruction) : list IRInstruction :=
  let constants :=
    for_range (length ir)
      (fun i constants => match ir !! i with
                          | Some instr => record_constant constants instr
                          | None => constants
                          end) (∅ : gmap string string) in
  for_range (length ir)
    (fun i ir => match ir !! i with
                 | Some instr => <[i := substitute constants instr]> ir
                 | None => ir
                 end) ir.

(** An operand that the first loop of [deadCodeElimination] marks. *)
Definition marks (a : option string) : option string :=
  match a with
  | Some x =>
      if truthy a && negb (isNumeric x) && negb (startsWith "L" x)
      then Some x else None
  | None => None
  end.

Definition mark_used (used : gset string) (instr : IRInstruction) : gset string :=
  let used := match marks (arg1 instr) with
              | Some x => {[x]} ∪ used
              | None => used
              end in
  match marks (arg2 instr) with
  | Some x => {[x]} ∪ used
  | None => used
  end.

Definition is_dead (used : gset string) (instr : IRInstruction) : bool :=
  bool_decide (op instr = "ASSIGN") && truthy (result instr)
  && negb (bool_decide (or_default (result instr) "" ∈ used)).

(** The last loop: [splice] removes the element at [i] and the index is
    kept for the next round. [fuel] bounds the number of rounds. *)
Fixpoint remove_nops (fuel i : nat) (ir : list IRInstruction) : list IRInstruction :=
  match fuel with
  | O => ir
  | S fuel' =>
      match ir !! i with
      | Some instr =>
          if decide (op instr = "NOP") then remove_nops fuel' i (delete i ir)
          else remove_nops fuel' (S i) ir
      | None => ir
      end
  end.

Definition deadCodeElimination (ir : list IRInstruction) : list IRInstruction :=
  let used :=
    for_range (length ir)
      (fun i used => match ir !! i with
                     | Some instr => mark_used used instr
                     | None => used
                     end) (∅ : gset string) in
  let ir :=
    for_range (length ir)
      (fun i ir => match ir !! i with
                   | Some instr =>
                       if is_dead used instr then <[i := instr0 "NOP"]> ir else ir
                   | None => ir
                   end) ir in
  remove_nops (length ir) 0 ir.

(** [optimizeIR] works on a deep copy, which is the list itself here. *)
Definition optimizeIR (ir : list IRInstruction) : list IRInstruction :=
  deadCodeElimination (constantPropagation (constantFolding ir)).



End Optimizer.

(** ** Code generator *)

Module CodeGenerator.

(** The variables of [generateAssembly]: the text produced so far, the
    register of each name, and the names seen as memory operands, in the
    order in which the [Set] received them. *)
Record CGState := mkCG {
  assembly : string;
  registers : gmap string string;
  variables : list string
}.

Definition newline : string := String "010"%char EmptyString.

(** [assembly += text] *)
Definition emit (text : string) (st : CGState) : CGState :=
  mkCG (assembly st +:+ text) (registers st) (variables st).

(** [assembly += text] for a line: the text and a line feed. *)
Definition emit_line (text : string) (st : CGState) : CGState :=
  emit (text +:+ newline) st.

Definition getRegister (variable : string) (st : CGState) : string * CGState :=
  if truthy (registers st !! variable) then (default "" (registers st !! variable), st)
  else
    let reg := "r" +:+ pretty (size (registers st) mod 6 + 1) in
    (reg, mkCG (assembly st) (<[variable := reg]> (registers st)) (variables st)).

Definition freeRegister (variable : string) (st : CGState) : CGState :=
  mkCG (assembly st) (delete variable (registers st)) (variables st).

(** [variables.add(operand)] *)
Definition add_variable (operand : string) (st : CGState) : CGState :=
  mkCG (assembly st) (registers st)
       (if bool_decide (operand ∈ variables st) then variables st
        else variables st ++ [operand]).

Definition getOperand (operand : option string) (st : CGState) : string * CGState :=
  if negb (truthy operand) then ("", st)
  else
    let o := default "" operand in
    if isNumeric o then (o, st)
    else if startsWith "L" o then (o, st)
    else if truthy (registers st !! o) then (default "" (registers st !! o), st)
    else ("[" +:+ o +:+ "]", add_variable o st).

(** A line whose text ends in [getOperand(operand)]. *)
Definition emit_operand (text : string) (operand : option string) (st : CGState)
  : CGState :=
  let '(o, st1) := getOperand operand st in
  emit_line (text +:+ o) st1.

(** A string field inside a template literal. *)
Definition template (o : option string) : string := default "undefined" o.

(** [ADD] and [SUB]. *)
Definition case_add_sub (mnemonic : string) (instr : IRInstruction) (st : CGState)
  : CGState :=
  if truthy (result instr) && truthy (arg1 instr) && truthy (arg2 instr) then
    let '(resultReg, st) := getRegister (default "" (result instr)) st in
    let st := emit_operand ("    mov " +:+ resultReg +:+ ", ") (arg1 instr) st in
    emit_operand ("    " +:+ mnemonic +:+ " " +:+ resultReg +:+ ", ") (arg2 instr) st
  else st.

Definition case_MUL (instr : IRInstruction) (st : CGState) : CGState :=
  if truthy (result instr) && truthy (arg1 instr) && truthy (arg2 instr) then
    let '(resultReg, st) := getRegister (default "" (result instr)) st in
    let st := emit_operand "    mov eax, " (arg1 instr) st in
    let st := emit_operand "    imul eax, " (arg2 instr) st in
    emit_line ("    mov " +:+ resultReg +:+ ", eax") st
  else st.

(** [DIV] and [MOD]: the result is taken from [source], [eax] or [edx]. *)
Definition case_div_mod (source : string) (instr : IRInstruction) (st : CGState)
  : CGState :=
  if truthy (result instr) && truthy (arg1 instr) && truthy (arg2 instr) then
    let '(resultReg, st) := getRegister (default "" (result instr)) st in
    let st := emit_operand "    mov eax, " (arg1 instr) st in
    let st := emit_line "    cdq" st in
    let st := emit_operand "    mov ebx, " (arg2 instr) st in
    let st := emit_line "    idiv ebx" st in
    emit_line ("    mov " +:+ resultReg +:+ ", " +:+ source) st
  else st.

(** The six comparisons, each with its [set] instruction. *)
Definition case_compare (set : string) (instr : IRInstruction) (st : CGState)
  : CGState :=
  if truthy (result instr) && truthy (arg1 instr) && truthy (arg2 instr) then
    let '(resultReg, st) := getRegister (default "" (result instr)) st in
    let st := emit_operand "    mov eax, " (arg1 instr) st in
    let st := emit_operand "    cmp eax, " (arg2 instr) st in
    let st := emit_line ("    " +:+ set +:+ " al") st in
    emit_line ("    movzx " +:+ resultReg +:+ ", al") st
  else st.

(** [NOT] and [NEG]: a move and a second line [tail] on the register. *)
Definition case_not_neg (tail : string -> string) (instr : IRInstruction)
    (st : CGState) : CGState :=
  if truthy (result instr) && truthy (arg1 instr) then
    let '(resultReg, st) := getRegister (default "" (result instr)) st in
    let st := emit_operand ("    mov " +:+ resultReg +:+ ", ") (arg1 instr) st in
    emit_line (tail resultReg) st
  else st.

(** [JUMPTRUE] and [JUMPFALSE]. *)
Definition case_jump_if (mnemonic : string) (instr : IRInstruction) (st : CGState)
  : CGState :=
  if truthy (arg1 instr) && truthy (result instr) then
    let '(o, st) := getOperand (arg1 instr) st in
    let st := emit_line ("    cmp " +:+ o +:+ ", 0") st in
    emit_line ("    " +:+ mnemonic +:+ " " +:+ template (result instr)) st
  else st.

Definition case_RET (instr : IRInstruction) (st : CGState) : CGState :=
  let st :=
    if truthy (arg1 instr) then
      let '(_, st) := getRegister (default "" (arg1 instr)) st in
      let st := emit_operand "    mov eax, " (arg1 instr) st in
      freeRegister (default "" (arg1 instr)) st
    else st in
  emit_line "    ret" st.

Definition case_ASSIGN (instr : IRInstruction) (st : CGState) : CGState :=
  if truthy (result instr) && truthy (arg1 instr) then
    let '(resultReg, st) := getRegister (default "" (result instr)) st in
    emit_operand ("    mov " +:+ resultReg +:+ ", ") (arg1 instr) st
  else st.

Definition case_CALL (instr : IRInstruction) (st : CGState) : CGState :=
  if truthy (arg1 instr) then
    let st := emit_line ("    call " +:+ template (arg1 instr)) st in
    let argc := JSNumber.parseInt (default "" (arg2 instr)) in
    let st :=
      if truthy (arg2 instr) && JSNumber.ltb (S754_zero false) argc then
        emit_line ("    add esp, "
                   +:+ JSNumber.toString
                         (JSNumber.mul argc (JSNumber.of_decimal false 4 0))) st
      else st in
    if truthy (result instr) then
      let '(resultReg, st) := getRegister (default "" (result instr)) st in
      emit_line ("    mov " +:+ resultReg +:+ ", eax") st
    else st
  else st.

Definition case_PRINT (instr : IRInstruction) (st : CGState) : CGState :=
  if truthy (arg1 instr) then
    let st := emit_operand "    ; Print value in " (arg1 instr) st in
    let st := emit_operand "    push " (arg1 instr) st in
    let st := emit_line "    call printf" st in
    emit_line "    add esp, 4" st
  else st.

(** The [switch] on [instr.op]; an operation that has no case emits
    nothing. *)
Definition lower (instr : IRInstruction) (st : CGState) : CGState :=
  let o := op instr in
  if decide (o = "LABEL") then emit_line (template (result instr) +:+ ":") st
  else if decide (o = "ENTER") then
    emit_line "    mov ebp, esp" (emit_line "    push ebp" st)
  else if decide (o = "LEAVE") then
    emit_line "    pop ebp" (emit_line "    mov esp, ebp" st)
  else if decide (o = "RET") then case_RET instr st
  else if decide (o = "ASSIGN") then case_ASSIGN instr st
  else if decide (o = "ADD") then case_add_sub "add" instr st
  else if decide (o = "SUB") then case_add_sub "sub" instr st
  else if decide (o = "MUL") then case_MUL instr st
  else if decide (o = "DIV") then case_div_mod "eax" instr st
  else if decide (o = "MOD") then case_div_mod "edx" instr st
  else if decide (o = "EQ") then case_compare "sete" instr st
  else if decide (o = "NE") then case_compare "setne" instr st
  else if decide (o = "LT") then case_compare "setl" instr st
  else if decide (o = "GT") then case_compare "setg" instr st
  else if decide (o = "LE") then case_compare "setle" instr st
  else if decide (o = "GE") then case_compare "setge" instr st
  else if decide (o = "NOT") then
    case_not_neg (fun reg => "    xor " +:+ reg +:+ ", 1") instr st
  else if decide (o = "NEG") then
    case_not_neg (fun reg => "    neg " +:+ reg) instr st
  else if decide (o = "JUMP") then
    if truthy (result instr) then emit_line ("    jmp " +:+ template (result instr)) st
    else st
  else if decide (o = "JUMPTRUE") then case_jump_if "jne" instr st
  else if decide (o = "JUMPFALSE") then case_jump_if "je" instr st
  else if decide (o = "PARAM") then
    if truthy (arg1 instr) then emit_operand "    push " (arg1 instr) st else st
  else if decide (o = "CALL") then case_CALL instr st
  else if decide (o = "PRINT") then case_PRINT instr st
  else st.

(** The text in front of the instructions. *)
Definition prologue : string :=
  "; Generated x86 Assembly" +:+ newline +:+ "section .data" +:+ newline
  +:+ newline +:+ "section .text" +:+ newline
  +:+ "global _start" +:+ newline +:+ newline.

(** The [_start] and [printf] routines that follow the instructions. *)
Definition epilogue : list string :=
  [""; "_start:"; "    call main"; "    mov ebx, 0"; "    mov eax, 1";
   "    int 0x80";
   ""; "printf:"; "    push ebp"; "    mov ebp, esp"; "    push dword [ebp+8]";
   "    push fmt"; "    call _printf"; "    add esp, 8"; "    pop ebp"; "    ret"].

(** The data section: one line for each variable, then the format string
    of [printf]. *)
Definition dataSection (variables : list string) : string :=
  "section .data" +:+ newline
  +:+ String.concat "" (map (fun variable => "    " +:+ variable +:+ " dd 0" +:+ newline)
                            variables)
  +:+ "    fmt db " +:+ String dquote ("%d" +:+ String dquote (", 10, 0" +:+ newline)).

Definition generateAssembly (ir : list IRInstruction) : string :=
  let st := fold_left (fun st instr => lower instr st) ir (mkCG prologue ∅ []) in
  let st := fold_left (fun st text => emit_line text st) epilogue st in
  dataSection (variables st) +:+ newline +:+ assembly st.

End CodeGenerator.

(** ** The pipeline *)

Module Compiler.

Record CompilationErrors := mkErrors {
  lexical : list CompilerError;
  syntax : list CompilerError;
  semantic : list CompilerError
}.

Record CompilationResult := mkResult {
  tokens : list Token;
  ast : option ASTNode;
  symbolTable : option Analyzer.SymbolTable;
  ir : list IRInstruction;
  optimizedIr : list IRInstruction;
  assembly : string;
  errors : CompilationErrors
}.

(** The tree that the lexer and the parser make of a source text, with
    the diagnostics of the parser. *)
Definition parsed (source : string) : option (ASTNode * list CompilerError) :=
  Parser.parse (Lexer.tokenize source).1.

(** Modelled from the spec: [compile] runs the six stages in order, each
    on the artifact of the stage before it, and gathers the artifacts and
    the three lists of diagnostics; no stage ends the run, and an
    artifact that a stage does not deliver is [null] or empty. [rnd] is
    the text that [Math.random] yields to the analyzer, draw by draw. *)
Definition compile (rnd : nat -> string) (source : string) : CompilationResult :=
  let lexed := Lexer.tokenize source in
  let tree := fst <$> parsed source in
  let analysis := tree ≫= Analyzer.analyze rnd in
  let ir := default [] (tree ≫= IRGenerator.generateIR) in
  let optimizedIr := Optimizer.optimizeIR ir in
  mkResult lexed.1 tree (fst <$> analysis) ir optimizedIr
           (CodeGenerator.generateAssembly optimizedIr)
           (mkErrors lexed.2 (from_option snd [] (parsed source))
                     (from_option snd [] analysis)).

End Compiler.

(** * Properties of the lexer *)

Module LexerFacts.
Import Lexer.

(** Every pattern that matches consumes at least one character. *)

Lemma length_app_str (a b : string) :
  String.length (a +:+ b) = String.length a + String.length b.
Proof. induction a as [|c a IH]; simpl; [reflexivity | now rewrite IH]. Qed.

Lemma match_WHITESPACE_nonempty s v :
  match_WHITESPACE s = Some v -> 1 <= String.length v.
Proof.
  unfold match_WHITESPACE. destruct (take_while is_space s); [discriminate|].
  intros [= <-]. simpl. lia.
Qed.

Lemma match_COMMENT_SINGLE_nonempty s v :
  match_COMMENT_SINGLE s = Some v -> 1 <= String.length v.
Proof.
  unfold match_COMMENT_SINGLE. destruct (startsWith "//" s); [|discriminate].
  destruct (_ =? _); [|discriminate]. intros [= <-]. simpl. lia.
Qed.

Lemma match_COMMENT_MULTI_nonempty s v :
  match_COMMENT_MULTI s = Some v -> 1 <= String.length v.
Proof.
  unfold match_COMMENT_MULTI. destruct (startsWith "/*" s); [|discriminate].
  destruct (until_close _); [|discriminate]. intros [= <-]. simpl. lia.
Qed.

Lemma match_IDENTIFIER_nonempty s v :
  match_IDENTIFIER s = Some v -> 1 <= String.length v.
Proof.
  unfold match_IDENTIFIER. destruct s as [|c s]; [discriminate|].
  destruct (is_ident_start c); [|discriminate]. intros [= <-]. simpl. lia.
Qed.

Lemma match_NUMBER_nonempty s v :
  match_NUMBER s = Some v -> 1 <= String.length v.
Proof.
  unfold match_NUMBER. destruct (take_while is_digit s) as [|d ds]; [discriminate|].
  intros H. repeat case_match; simplify_eq; rewrite ?length_app_str; simpl; lia.
Qed.

Lemma match_STRING_nonempty s v :
  match_STRING s = Some v -> 1 <= String.length v.
Proof.
  unfold match_STRING. destruct s as [|c s]; [discriminate|].
  destruct (bool_decide _); [|discriminate].
  destruct (string_body s); [|discriminate]. intros [= <-]. simpl. lia.
Qed.

Lemma match_alternation_nonempty alts s v :
  Forall (fun a => 1 <= String.length a) alts ->
  match_alternation alts s = Some v -> 1 <= String.length v.
Proof.
  intros Hall Hf. apply find_some in Hf as [Hin _].
  rewrite Forall_forall in Hall. apply Hall. now apply list_elem_of_In.
Qed.

Lemma match_OPERATOR_nonempty s v :
  match_OPERATOR s = Some v -> 1 <= String.length v.
Proof.
  apply match_alternation_nonempty. unfold OPERATORS.
  repeat constructor.
Qed.

Lemma match_PUNCTUATION_nonempty s v :
  match_PUNCTUATION s = Some v -> 1 <= String.length v.
Proof.
  apply match_alternation_nonempty. unfold PUNCTUATION.
  repeat constructor.
Qed.

(** Each iteration of the scanning loop moves the position forward. *)
Lemma scan_step_advances input st : pos st < pos (scan_step input st).
Proof.
  unfold scan_step.
  destruct (match_WHITESPACE _) eqn:E1.
  { apply match_WHITESPACE_nonempty in E1.
    destruct (track_whitespace _ _ _). simpl. lia. }
  destruct (match_COMMENT_SINGLE _) eqn:E2.
  { apply match_COMMENT_SINGLE_nonempty in E2. simpl. lia. }
  destruct (match_COMMENT_MULTI _) eqn:E3.
  { apply match_COMMENT_MULTI_nonempty in E3. simpl. lia. }
  destruct (match_IDENTIFIER _) eqn:E4.
  { apply match_IDENTIFIER_nonempty in E4. simpl. lia. }
  destruct (match_NUMBER _) eqn:E5.
  { apply match_NUMBER_nonempty in E5. simpl. lia. }
  destruct (match_STRING _) eqn:E6.
  { apply match_STRING_nonempty in E6. simpl. lia. }
  destruct (match_OPERATOR _) eqn:E7.
  { apply match_OPERATOR_nonempty in E7. simpl. lia. }
  destruct (match_PUNCTUATION _) eqn:E8.
  { apply match_PUNCTUATION_nonempty in E8. simpl. lia. }
  simpl. lia.
Qed.

(** The loop is well-founded on the remaining input length: as many
    iterations as characters remain are enough. *)
Lemma scan_loop_terminates fuel input st :
  String.length input - pos st <= fuel ->
  is_Some (scan_loop fuel input st).
Proof.
  revert st. induction fuel as [|fuel IH]; intros st Hle; simpl.
  - destruct (Nat.ltb_spec (pos st) (String.length input)); [lia | eauto].
  - destruct (Nat.ltb_spec (pos st) (String.length input)); [|eauto].
    apply IH. pose proof (scan_step_advances input st). lia.
Qed.

(** More fuel does not change the outcome of a loop that has ended. *)
Lemma scan_loop_more_fuel fuel fuel' input st r :
  scan_loop fuel input st = Some r -> fuel <= fuel' ->
  scan_loop fuel' input st = Some r.
Proof.
  revert fuel' st. induction fuel as [|fuel IH]; intros fuel' st H Hle.
  - simpl in H. destruct (pos st <? String.length input) eqn:E; [discriminate|].
    destruct fuel'; simpl; now rewrite E.
  - destruct fuel' as [|fuel']; [lia|]. simpl in *.
    destruct (pos st <? String.length input); [|assumption].
    apply IH; [assumption | lia].
Qed.

(** C10: [tokenize] terminates on every input. Each iteration of the
    scanning loop advances the position by at least one character, so the
    loop ends within as many iterations as the input has characters, and
    any larger iteration budget yields the same result. *)
Theorem tokenize_terminates (input : string) :
  (forall st, pos st < pos (scan_step input st))
  /\ (exists r, tokenize_fuel (String.length input) input = Some r
                /\ tokenize input = r
                /\ forall fuel, String.length input <= fuel ->
                     tokenize_fuel fuel input = Some r).
Proof.
  split; [apply scan_step_advances|].
  destruct (scan_loop_terminates (String.length input) input init_state) as [st Hst].
  { simpl. lia. }
  exists (tokens st, errors st). unfold tokenize, tokenize_fuel.
  rewrite Hst. simpl. repeat split; [].
  intros fuel Hle. now rewrite (scan_loop_more_fuel _ fuel _ _ _ Hst Hle).
Qed.

Definition kinds_and_values (input : string) : list (string * string) :=
  map (fun t => (tok_type t, tok_value t)) (tokenize input).1.

(** The alternation built from [OPERATORS] lists the one-character
    operators [=], [<] and [>] before the two-character operators that
    start with them, so the longer ones are never the match. *)
Lemma match_OPERATOR_never_long s v :
  match_OPERATOR s = Some v -> v <> "==" /\ v <> "<=" /\ v <> ">=".
Proof.
  unfold match_OPERATOR, match_alternation, OPERATORS. simpl.
  destruct s as [|c [|d s]]; simpl;
    repeat (case_bool_decide; simpl; try (intros [= <-]; repeat split; discriminate));
    try discriminate; subst; congruence.
Qed.

(** C2, at the failing input: [a == b] is lexed with two tokens [=]
    where the claim wants one token [==]; the same happens to [<=] and
    [>=], while [!=], [&&] and [||] come out whole. *)
Theorem tokenize_splits_double_equals :
  kinds_and_values "a == b"
  = [("IDENTIFIER", "a"); ("OPERATOR", "="); ("OPERATOR", "=");
     ("IDENTIFIER", "b")]
  /\ kinds_and_values "a <= b"
     = [("IDENTIFIER", "a"); ("OPERATOR", "<"); ("OPERATOR", "=");
        ("IDENTIFIER", "b")]
  /\ kinds_and_values "a >= b"
     = [("IDENTIFIER", "a"); ("OPERATOR", ">"); ("OPERATOR", "=");
        ("IDENTIFIER", "b")]
  /\ kinds_and_values "a != b && c || d"
     = [("IDENTIFIER", "a"); ("OPERATOR", "!="); ("IDENTIFIER", "b");
        ("OPERATOR", "&&"); ("IDENTIFIER", "c"); ("OPERATOR", "||");
        ("IDENTIFIER", "d")].
Proof. vm_compute. auto. Qed.

Definition line_feed : string := String "010"%char EmptyString.

(** The line-comment pattern matches only a comment that runs to the end
    of the input. *)
Lemma match_COMMENT_SINGLE_whole s v :
  match_COMMENT_SINGLE s = Some v -> v = s.
Proof.
  unfold match_COMMENT_SINGLE. intros H.
  destruct s as [|a [|b s]]; simpl in H; try discriminate;
    repeat (case_bool_decide; simpl in H; try discriminate). subst.
  destruct (_ =? _) eqn:E; [|discriminate]. injection H as <-.
  apply Nat.eqb_eq in E.
  enough (Hs : take_while (fun c => negb (is_line_terminator c)) s = s)
    by (rewrite Hs; reflexivity).
  revert E. generalize (fun c => negb (is_line_terminator c)) as p.
  intros p. induction s as [|c s IH]; simpl; [reflexivity|].
  destruct (p c); simpl; [|discriminate]. intros [= E]. f_equal. auto.
Qed.

(** C3, at the failing input: a line comment followed by a line feed and
    more text is not consumed. Its two slashes become two operator tokens
    and its words become identifiers; only a comment that ends the input
    is skipped. *)
Theorem tokenize_line_comment_before_code :
  kinds_and_values ("// note" +:+ line_feed +:+ "x")
  = [("OPERATOR", "/"); ("OPERATOR", "/"); ("IDENTIFIER", "note");
     ("IDENTIFIER", "x")]
  /\ kinds_and_values "x // note" = [("IDENTIFIER", "x")].
Proof. vm_compute. auto. Qed.

Definition minimal_program : string := "int main() { return 0; }".

(** C7 (as amended): on the minimal program the lexer reports no lexical
    error and produces exactly nine tokens: int, main, the two
    parentheses, the opening brace, return, 0, the semicolon and the
    closing brace. *)
Theorem tokenize_minimal_program :
  (tokenize minimal_program).2 = []
  /\ length (tokenize minimal_program).1 = 9
  /\ map tok_value (tokenize minimal_program).1
     = ["int"; "main"; "("; ")"; "{"; "return"; "0"; ";"; "}"].
Proof. vm_compute. auto. Qed.

(** C7 as stated fails: the token count is not eight. *)
Lemma tokenize_minimal_program_not_eight :
  ~ ((tokenize minimal_program).2 = []
     /\ length (tokenize minimal_program).1 = 8).
Proof. vm_compute. intros [_ H]. discriminate H. Qed.

End LexerFacts.

(** * Properties of the optimizer *)

Module OptimizerFacts.
Import Optimizer.

(** ** The index loops as list functions *)

(** A loop that overwrites [ir[i]] with a function of [ir[i]]. *)
Lemma for_range_update {X} (f : X -> X) (body : nat -> list X -> list X) (l : list X) :
  (forall i s x, s !! i = Some x -> body i s = <[i := f x]> s) ->
  for_range (length l) body l = map f l.
Proof.
  intros Hbody. unfold for_range.
  enough (H : forall n a, a + n <= length l ->
            fold_left (fun s i => body i s) (seq a n) (map f (take a l) ++ drop a l)
            = map f (take (a + n) l) ++ drop (a + n) l).
  { specialize (H (length l) 0). simpl in H. rewrite drop_0 in H.
    rewrite H by lia. rewrite firstn_all, drop_all. apply app_nil_r. }
  induction n as [|n IH]; intros a Ha; simpl.
  - now rewrite Nat.add_0_r.
  - destruct (lookup_lt_is_Some_2 l a) as [x Hx]; [lia|].
    rewrite (Hbody a _ x).
    + replace (<[a:=f x]> (map f (take a l) ++ drop a l))
        with (map f (take (S a) l) ++ drop (S a) l).
      { rewrite IH by lia. now replace (S a + n) with (a + S n) by lia. }
      rewrite (take_S_r _ _ _ Hx), map_app, <- app_assoc. simpl.
      rewrite (drop_S _ _ _ Hx).
      rewrite insert_app_r_alt; rewrite length_map, length_take; [|lia].
      replace (a - a `min` length l) with 0 by lia. reflexivity.
    + rewrite lookup_app_r; rewrite length_map, length_take; [|lia].
      replace (a - a `min` length l) with 0 by lia.
      rewrite lookup_drop. now rewrite Nat.add_0_r.
Qed.


Lemma constantFolding_map ir : constantFolding ir = map fold_instr ir.
Proof.
  unfold constantFolding. apply for_range_update.
  intros i s x Hx. now rewrite Hx.
Qed.




(** ** Scenario 2 *)

Definition scenario2_source : string := "int main() { int a = 2 + 3 * 4; return a; }".

Definition leaf_at (ty v : string) (l c : nat) : option ASTNode :=
  Some (mkNode ty (Some v) (Some l) (Some c) None).

Definition node_of (ty : string) (kids : list (option ASTNode)) : option ASTNode :=
  Some (mkNode ty None None None (Some kids)).

(** The tree of the scenario: a function declaration is
    [Type, Identifier, Parameters, Block], a variable declaration is
    [Type, Identifier, initializer], a binary node is [left, right]. *)
Definition scenario2_ast : ASTNode :=
  mkNode "Program" None None None (Some
    [node_of "FunctionDeclaration"
       [leaf_at "Type" "int" 1 1; leaf_at "Identifier" "main" 1 5;
        node_of "Parameters" [];
        node_of "Block"
          [node_of "VariableDeclaration"
             [leaf_at "Type" "int" 1 14; leaf_at "Identifier" "a" 1 18;
              node_of "Addition"
                [leaf_at "NumberLiteral" "2" 1 22;
                 node_of "Multiplication"
                   [leaf_at "NumberLiteral" "3" 1 26;
                    leaf_at "NumberLiteral" "4" 1 30]]];
           Some (mkNode "ReturnStatement" None (Some 1) (Some 33)
                   (Some [leaf_at "Identifier" "a" 1 40]))]]]).

Definition scenario2_ir : list IRInstruction :=
  [instr_r "LABEL" "main"; instr0 "ENTER";
   instr_rab "MUL" "t0" "3" "4"; instr_rab "ADD" "t1" "2" "t0";
   instr_ra "ASSIGN" "a" "t1"; instr_a "RET" "a";
   instr0 "LEAVE"; instr0 "RET"].

(** What the specification expects of the optimizer: the frame, [RET a]
    and the single instruction [ASSIGN a, 14]. *)
Definition scenario2_expected : list IRInstruction :=
  [instr_r "LABEL" "main"; instr0 "ENTER";
   instr_ra "ASSIGN" "a" "14"; instr_a "RET" "a";
   instr0 "LEAVE"; instr0 "RET"].

Lemma scenario2_optimizeIR :
  optimizeIR scenario2_ir
  = [instr_r "LABEL" "main"; instr0 "ENTER";
     instr_rab "ADD" "t1" "2" "12"; instr_ra "ASSIGN" "a" "t1";
     instr_a "RET" "a"; instr0 "LEAVE"; instr0 "RET"].
Proof. vm_compute. reflexivity. Qed.

(** C4 (as amended): the parser builds the tree above for the scenario,
    the raw IR contains [MUL t0,3,4], [ADD t1,2,t0] and [ASSIGN a,t1] in
    this order, and the optimizer leaves, besides the frame and [RET a],
    the two instructions [ADD t1,2,12] and [ASSIGN a,t1]: folding runs
    once, before propagation puts the constant 12 into the addition. *)
Theorem scenario2_optimized :
  Parser.parse (Lexer.tokenize scenario2_source).1 = Some (scenario2_ast, [])
  /\ IRGenerator.generateIR scenario2_ast = Some scenario2_ir
  /\ constantFolding scenario2_ir
     = [instr_r "LABEL" "main"; instr0 "ENTER";
        instr_ra "ASSIGN" "t0" "12"; instr_rab "ADD" "t1" "2" "t0";
        instr_ra "ASSIGN" "a" "t1"; instr_a "RET" "a";
        instr0 "LEAVE"; instr0 "RET"]
  /\ optimizeIR scenario2_ir
     = [instr_r "LABEL" "main"; instr0 "ENTER";
        instr_rab "ADD" "t1" "2" "12"; instr_ra "ASSIGN" "a" "t1";
        instr_a "RET" "a"; instr0 "LEAVE"; instr0 "RET"].
Proof. vm_compute. auto. Qed.

(** C4 as stated fails: the optimized IR is not the expected one, and
    [ASSIGN a, 14] does not occur in it. *)
Lemma scenario2_not_collapsed :
  optimizeIR scenario2_ir <> scenario2_expected
  /\ instr_ra "ASSIGN" "a" "14" ∉ optimizeIR scenario2_ir.
Proof.
  rewrite scenario2_optimizeIR. split; [discriminate|].
  repeat (apply not_elem_of_cons; split; [discriminate|]).
  apply not_elem_of_nil.
Qed.

(** ** Constant propagation *)




(** ** Idempotence *)

(** Folding either leaves an instruction as it is or turns it into an
    [ASSIGN], and an [ASSIGN] is not folded. *)
Lemma fold_instr_cases instr :
  fold_instr instr = instr \/ op (fold_instr instr) = "ASSIGN".
Proof.
  unfold fold_instr. repeat case_match; auto.
Qed.

Lemma fold_instr_assign instr : op instr = "ASSIGN" -> fold_instr instr = instr.
Proof.
  intros H. unfold fold_instr. rewrite H. reflexivity.
Qed.

Lemma fold_instr_idempotent instr : fold_instr (fold_instr instr) = fold_instr instr.
Proof.
  destruct (fold_instr_cases instr) as [H|H].
  - now rewrite !H.
  - now apply fold_instr_assign.
Qed.

(** C6 (as amended): the constant-folding pass is idempotent. *)
Theorem constantFolding_idempotent (ir : list IRInstruction) :
  constantFolding (constantFolding ir) = constantFolding ir.
Proof.
  rewrite !constantFolding_map, map_map.
  apply map_ext. intros instr. apply fold_instr_idempotent.
Qed.

(** C6 as stated fails: on the IR of scenario 2 a second run of the
    optimizer folds the addition that the first run's propagation made
    constant, and ends with [RET 14]. *)
Lemma optimizeIR_not_idempotent :
  optimizeIR (optimizeIR scenario2_ir)
  = [instr_r "LABEL" "main"; instr0 "ENTER"; instr_a "RET" "14";
     instr0 "LEAVE"; instr0 "RET"]
  /\ optimizeIR (optimizeIR scenario2_ir) <> optimizeIR scenario2_ir.
Proof. split; vm_compute; [reflexivity | discriminate]. Qed.

End OptimizerFacts.

(** * Runs of a computation *)

(** A run of [bind m k] that returns is a run of [m] followed by a run
    of [k]. *)
Lemma bind_inv {S A B} (m : Comp S A) (k : A -> Comp S B) st r :
  bind m k st = Some r -> exists a st1, m st = Some (a, st1) /\ k a st1 = Some r.
Proof.
  unfold bind. destruct (m st) as [[a st1]|]; [eauto | discriminate].
Qed.

(** * Induction on syntax trees *)

Section ASTInduction.

Variable P : ASTNode -> Prop.

Hypothesis Hnode : forall ty v l c kids,
  from_option (Forall (from_option P True)) True kids ->
  P (mkNode ty v l c kids).

Fixpoint ASTNode_ind (n : ASTNode) : P n :=
  let fix all (ks : list (option ASTNode)) : Forall (from_option P True) ks :=
    match ks with
    | [] => @List.Forall_nil _ _
    | c :: ks' =>
        @List.Forall_cons _ _ c ks'
          (match c return from_option P True c with
           | Some m => ASTNode_ind m
           | None => I
           end) (all ks')
    end in
  match n with
  | mkNode ty v l c kids =>
      Hnode ty v l c kids
        (match kids return from_option (Forall (from_option P True)) True kids with
         | Some ks => all ks
         | None => I
         end)
  end.

End ASTInduction.

(** [every_node P n]: [P] holds of [n] and of every node below it. *)
Fixpoint every_node (P : ASTNode -> Prop) (n : ASTNode) : Prop :=
  P n /\
  match node_children n with
  | Some ks =>
      (fix every (ks : list (option ASTNode)) : Prop :=
         match ks with
         | [] => True
         | c :: ks' =>
             match c with
             | Some m => every_node P m
             | None => True
             end /\ every ks'
         end) ks
  | None => True
  end.

Lemma every_children (P : ASTNode -> Prop) (ks : list (option ASTNode)) :
  (fix every (ks : list (option ASTNode)) : Prop :=
     match ks with
     | [] => True
     | c :: ks' =>
         match c with
         | Some m => every_node P m
         | None => True
         end /\ every ks'
     end) ks ->
  Forall (from_option (every_node P) True) ks.
Proof.
  induction ks as [|c ks IH]; intros H; constructor.
  - destruct H as [H _]. now destruct c.
  - apply IH. now destruct H.
Qed.

Module IRGeneratorFacts.
Import IRGenerator.

(** The label that [newLabel] draws when the counter is [k]. *)
Definition L (k : nat) : string := "L" +:+ pretty k.

Lemma L_inj j k : L j = L k -> j = k.
Proof. unfold L. intros H. injection H as H. now apply pretty_nat_inj in H. Qed.

Definition is_jump (i : IRInstruction) : Prop :=
  op i = "JUMP" \/ op i = "JUMPTRUE" \/ op i = "JUMPFALSE".

Definition is_label (t : string) (i : IRInstruction) : Prop :=
  op i = "LABEL" /\ result i = Some t.

Global Instance is_label_dec t i : Decision (is_label t i).
Proof. unfold is_label. apply _. Defined.

(** The number of [LABEL] instructions whose result is [t]. *)
Definition count_labels (t : string) (ir : list IRInstruction) : nat :=
  length (filter (is_label t) ir).

Lemma count_labels_nil t : count_labels t [] = 0.
Proof. reflexivity. Qed.

Lemma count_labels_app t s1 s2 :
  count_labels t (s1 ++ s2) = count_labels t s1 + count_labels t s2.
Proof. unfold count_labels. now rewrite filter_app, length_app. Qed.

Lemma count_labels_cons t i s :
  count_labels t (i :: s) = (if decide (is_label t i) then 1 else 0) + count_labels t s.
Proof. unfold count_labels. rewrite filter_cons. now destruct (decide _). Qed.

Lemma count_labels_L_label k j s :
  count_labels (L k) (instr_r "LABEL" (L j) :: s)
  = (if decide (k = j) then 1 else 0) + count_labels (L k) s.
Proof.
  rewrite count_labels_cons. f_equal.
  destruct (decide (is_label _ _)) as [[_ H]|H]; destruct (decide (k = j)) as [E|E];
    try reflexivity.
  - cbn [result instr_r] in H. apply (inj Some) in H. apply L_inj in H. congruence.
  - subst. exfalso. apply H. split; reflexivity.
Qed.

Lemma count_labels_other t i s :
  op i <> "LABEL" -> count_labels t (i :: s) = count_labels t s.
Proof.
  intros H. rewrite count_labels_cons. case_decide as Hl; [|reflexivity].
  destruct Hl as [Hl _]. contradiction.
Qed.

(** A stretch of instructions that keeps the label discipline on its own:
    the labels [L k] it places are placed once and were drawn while the
    counter went from [lo] to [hi], and each of its jumps goes to a label
    that it places. *)
Record Seg (lo hi : nat) (seg : list IRInstruction) : Prop := {
  seg_once : forall k, count_labels (L k) seg <= 1;
  seg_range : forall k, count_labels (L k) seg <> 0 -> lo <= k < hi;
  seg_jumps : forall i, i ∈ seg -> is_jump i ->
    exists k, result i = Some (L k) /\ count_labels (L k) seg = 1
}.

(** An instruction that neither jumps nor places a generated label. *)
Definition plain (i : IRInstruction) : Prop :=
  ~ is_jump i /\ forall k, ~ is_label (L k) i.

Lemma Seg_nil lo hi : Seg lo hi [].
Proof.
  split.
  - intros k. rewrite count_labels_nil. lia.
  - intros k H. now rewrite count_labels_nil in H.
  - intros i H. now apply elem_of_nil in H.
Qed.

Lemma Seg_weaken lo hi lo' hi' seg :
  Seg lo hi seg -> lo' <= lo -> hi <= hi' -> Seg lo' hi' seg.
Proof.
  intros [H1 H2 H3] ? ?. split; auto.
  intros k Hk. specialize (H2 k Hk). lia.
Qed.

Lemma Seg_app lo mid hi s1 s2 :
  Seg lo mid s1 -> Seg mid hi s2 -> lo <= mid <= hi -> Seg lo hi (s1 ++ s2).
Proof.
  intros [A1 A2 A3] [B1 B2 B3] Hle. split.
  - intros k. rewrite count_labels_app.
    pose proof (A1 k). pose proof (A2 k). pose proof (B1 k). pose proof (B2 k). lia.
  - intros k. rewrite count_labels_app.
    pose proof (A2 k). pose proof (B2 k). lia.
  - intros i Hi Hj. apply elem_of_app in Hi as [Hi|Hi].
    + destruct (A3 i Hi Hj) as (k & Hr & Hc). exists k. split; [assumption|].
      rewrite count_labels_app. pose proof (A2 k). pose proof (B2 k). lia.
    + destruct (B3 i Hi Hj) as (k & Hr & Hc). exists k. split; [assumption|].
      rewrite count_labels_app. pose proof (A2 k). pose proof (B2 k). lia.
Qed.

Lemma Seg_plain lo i : plain i -> Seg lo lo [i].
Proof.
  intros [Hj Hl]. split.
  - intros k. rewrite count_labels_cons. case_decide as H; [now apply Hl in H|].
    rewrite count_labels_nil. lia.
  - intros k. rewrite count_labels_cons. case_decide as H; [now apply Hl in H|].
    rewrite count_labels_nil. lia.
  - intros j Hin Hjj. apply list_elem_of_singleton in Hin. subst. contradiction.
Qed.

(** ** What a computation of the generator emits *)

Definition emitted (st st' : GenState) (seg : list IRInstruction) : Prop :=
  instructions st' = instructions st ++ seg.

Lemma emitted_refl st : emitted st st [].
Proof. unfold emitted. now rewrite app_nil_r. Qed.

Lemma emitted_trans st1 st2 st3 s1 s2 :
  emitted st1 st2 s1 -> emitted st2 st3 s2 -> emitted st1 st3 (s1 ++ s2).
Proof. unfold emitted. intros H1 H2. now rewrite H2, H1, app_assoc. Qed.

(** [Good m]: whatever [m] emits keeps the label discipline, with the
    labels drawn during [m]. *)
Definition Good {A} (m : Gen A) : Prop :=
  forall st a st', m st = Some (a, st') ->
    exists seg, emitted st st' seg
      /\ labelCounter st <= labelCounter st'
      /\ Seg (labelCounter st) (labelCounter st') seg.

Lemma Good_ret {A} (a : A) : Good (ret a).
Proof.
  intros st b st' [= <- <-]. exists []. split; [apply emitted_refl|].
  split; [lia | apply Seg_nil].
Qed.

Lemma Good_throw {A} : Good (@throw GenState A).
Proof. intros st b st' [=]. Qed.

Lemma Good_bind {A B} (m : Gen A) (k : A -> Gen B) :
  Good m -> (forall a, Good (k a)) -> Good (bind m k).
Proof.
  intros Hm Hk st b st' H. apply bind_inv in H as (a & st1 & H1 & H2).
  destruct (Hm _ _ _ H1) as (s1 & E1 & L1 & S1).
  destruct (Hk _ _ _ _ H2) as (s2 & E2 & L2 & S2).
  exists (s1 ++ s2). split; [eapply emitted_trans; eassumption|].
  split; [lia|]. eapply Seg_app; eauto.
Qed.

Lemma push_inv i st a st' :
  push i st = Some (a, st') ->
  emitted st st' [i] /\ labelCounter st' = labelCounter st.
Proof. intros [= <- <-]. split; reflexivity. Qed.

Lemma newLabel_inv st a st' :
  newLabel st = Some (a, st') ->
  a = L (labelCounter st) /\ emitted st st' []
  /\ labelCounter st' = S (labelCounter st).
Proof.
  intros [= <- <-]. repeat split. unfold emitted. simpl. now rewrite app_nil_r.
Qed.

Lemma Good_push i : plain i -> Good (push i).
Proof.
  intros Hp st a st' H. apply push_inv in H as [E Hl].
  exists [i]. split; [assumption|]. rewrite Hl. split; [lia|]. now apply Seg_plain.
Qed.

Lemma Good_newTemp : Good newTemp.
Proof.
  intros st a st' [= <- <-]. exists [].
  split; [unfold emitted; simpl; now rewrite app_nil_r|].
  simpl. split; [lia | apply Seg_nil].
Qed.

Lemma Good_newLabel : Good newLabel.
Proof.
  intros st a st' [= <- <-]. exists [].
  split; [unfold emitted; simpl; now rewrite app_nil_r|].
  simpl. split; [lia | apply Seg_nil].
Qed.

Lemma Good_child kids i : Good (child (S:=GenState) kids i).
Proof. unfold child. destruct kids; [apply Good_ret | apply Good_throw]. Qed.

Lemma Good_child_get {A} kids i (f : ASTNode -> A) : Good (child_get (S:=GenState) kids i f).
Proof.
  unfold child_get. apply Good_bind; [apply Good_child|].
  intros [n|]; [apply Good_ret | apply Good_throw].
Qed.

Lemma Good_children_length kids : Good (children_length (S:=GenState) kids).
Proof. unfold children_length. destruct kids; [apply Good_ret | apply Good_throw]. Qed.

Lemma Good_when b (m : Gen unit) : Good m -> Good (when b m).
Proof. intros H. destruct b; [assumption | apply Good_ret]. Qed.

Lemma Good_sequence {A} (ms : list (Gen A)) : Forall Good ms -> Good (sequence ms).
Proof.
  induction 1 as [|m ms Hm Hms IH]; simpl; [apply Good_ret|].
  apply Good_bind; [assumption|]. intros a.
  apply Good_bind; [assumption|]. intros r. apply Good_ret.
Qed.


Lemma plain_other i :
  op i <> "JUMP" -> op i <> "JUMPTRUE" -> op i <> "JUMPFALSE" -> op i <> "LABEL" ->
  plain i.
Proof.
  intros H1 H2 H3 H4. split.
  - intros [H|[H|H]]; contradiction.
  - intros k [H _]. contradiction.
Qed.

Lemma lookup_op_elem table ty o :
  lookup_op table ty = Some o -> o ∈ map snd table.
Proof.
  unfold lookup_op. destruct (List.find _ table) as [p|] eqn:E; [|discriminate].
  intros [= <-]. apply find_some in E as [E _].
  apply list_elem_of_In in E. now apply list_elem_of_fmap_2.
Qed.

Ltac plain_tac := apply plain_other; discriminate.

Section CaseFacts.

Variable node : ASTNode.
Variable visits : option (list (Gen (option string))).
Hypothesis Hvisits : from_option (Forall Good) True visits.

Lemma Good_visit i : Good (visit visits i).
Proof.
  unfold visit. destruct visits as [vs|]; [|apply Good_throw].
  destruct (vs !! i) as [v|] eqn:E; [|apply Good_throw].
  simpl in Hvisits. rewrite Forall_forall in Hvisits. apply Hvisits.
  eapply list_elem_of_lookup_2; eassumption.
Qed.

Lemma Good_visitChildren : Good (visitChildren visits).
Proof.
  unfold visitChildren. destruct visits as [vs|]; [|apply Good_ret].
  apply Good_bind; [now apply Good_sequence | intros; apply Good_ret].
Qed.

Ltac good :=
  repeat first
    [ apply Good_ret | apply Good_throw | apply Good_visit | apply Good_visitChildren
    | apply Good_newTemp | apply Good_child_get | apply Good_children_length
    | apply Good_when
    | apply Good_push; plain_tac
    | apply Good_bind; [|intros ?] ].

Lemma Good_case_VariableDeclaration : Good (case_VariableDeclaration node visits).
Proof. unfold case_VariableDeclaration. good. Qed.

Lemma Good_case_ReturnStatement : Good (case_ReturnStatement node visits).
Proof. unfold case_ReturnStatement. good. case_match; good. Qed.

Lemma Good_case_PrintStatement : Good (case_PrintStatement visits).
Proof. unfold case_PrintStatement. good. Qed.

Lemma Good_case_Assignment : Good (case_Assignment node visits).
Proof. unfold case_Assignment. good. Qed.

Lemma Good_case_binary o :
  o ∈ map snd binary_ops -> Good (case_binary visits o).
Proof.
  intros Ho. unfold case_binary. good. apply Good_push.
  simpl in Ho. repeat (apply elem_of_cons in Ho as [->|Ho]; [plain_tac|]).
  now apply elem_of_nil in Ho.
Qed.

Lemma Good_case_unary o :
  o ∈ map snd unary_ops -> Good (case_unary visits o).
Proof.
  intros Ho. unfold case_unary. good. apply Good_push.
  simpl in Ho. repeat (apply elem_of_cons in Ho as [->|Ho]; [plain_tac|]).
  now apply elem_of_nil in Ho.
Qed.

Lemma Good_case_FunctionCall : Good (case_FunctionCall node visits).
Proof.
  unfold case_FunctionCall. good.
  - destruct visits as [vs|]; [|apply Good_throw].
    apply Good_sequence. simpl in Hvisits. now apply Forall_drop.
  - apply Good_sequence. apply Forall_forall. intros m Hm.
    apply list_elem_of_fmap in Hm as (x & -> & _). good.
Qed.

(** Computations that leave the state alone. *)
Definition Pure {A} (m : Gen A) : Prop :=
  forall st a st', m st = Some (a, st') -> st' = st.

Lemma Pure_ret {A} (a : A) : Pure (ret a).
Proof. now intros st b st' [= _ <-]. Qed.

Lemma Pure_throw {A} : Pure (@throw GenState A).
Proof. intros st b st' [=]. Qed.

Lemma Pure_child_get {A} kids i (f : ASTNode -> A) :
  Pure (child_get (S:=GenState) kids i f).
Proof.
  intros st a st' H. unfold child_get, child in H.
  destruct kids as [l|]; [|discriminate]. apply bind_inv in H as (c & st1 & [= <- <-] & H).
  destruct (mjoin (l !! i)); [now injection H | discriminate].
Qed.

Lemma Pure_children_length kids : Pure (children_length (S:=GenState) kids).
Proof.
  intros st a st' H. unfold children_length in H.
  destruct kids; [now injection H | discriminate].
Qed.

Ltac pure :=
  first [ apply Pure_ret | apply Pure_throw | apply Pure_child_get
        | apply Pure_children_length ].

Lemma newTemp_inv st a st' :
  newTemp st = Some (a, st') ->
  emitted st st' [] /\ labelCounter st' = labelCounter st.
Proof.
  intros [= <- <-]. split; [|reflexivity]. unfold emitted. simpl. now rewrite app_nil_r.
Qed.

(** Take a run of a case apart: the runs of its parts, with what each
    emits and how it moves the label counter. *)
Ltac invert_run :=
  repeat match goal with
  | H : push _ _ = Some _ |- _ => apply push_inv in H as [? ?]
  | H : newLabel _ = Some _ |- _ => apply newLabel_inv in H as (-> & ? & ?)
  | H : newTemp _ = Some _ |- _ => apply newTemp_inv in H as (? & ?)
  | H : ?m _ = Some (_, ?st') |- _ =>
      let G := fresh "G" in
      assert (G : Pure m) by (solve [pure]);
      apply G in H; clear G; subst st'
  | H : ?m ?st = Some (_, _) |- _ =>
      let G := fresh "G" in
      assert (G : Good m) by (solve [good]);
      apply G in H as (? & ? & ? & ?); clear G
  | H : bind _ _ _ = Some _ |- _ => apply bind_inv in H as (? & ? & ? & H)
  | H : (if ?b then _ else _) _ = Some _ |- _ => destruct b
  | H : when ?b _ _ = Some _ |- _ => destruct b; simpl in H
  end.

Ltac chain_emitted :=
  repeat (eapply emitted_trans; [eassumption|]); apply emitted_refl.

Ltac seg_facts k :=
  repeat match goal with
  | S : Seg _ _ _ |- _ =>
      pose proof (seg_once _ _ _ S k); pose proof (seg_range _ _ _ S k); clear S
  end.

Ltac count_simpl :=
  repeat first
    [ rewrite count_labels_app | rewrite count_labels_nil
    | rewrite count_labels_L_label
    | rewrite count_labels_other by (simpl; discriminate) ].

Ltac count_solve k := count_simpl; seg_facts k; repeat case_decide; lia.

Ltac seg_solve :=
  constructor;
  [ let k := fresh "k" in intros k; count_solve k
  | let k := fresh "k" in intros k; count_solve k
  | let i := fresh "i" in let Hin := fresh "Hin" in let Hj := fresh "Hj" in
    intros i Hin Hj;
    repeat (rewrite ?elem_of_app, ?elem_of_cons, ?elem_of_nil in Hin);
    destruct_or?; try contradiction;
    first
      [ match goal with
        | S : Seg _ _ ?s, Hi : i ∈ ?s |- _ =>
            let k := fresh "k" in
            destruct (seg_jumps _ _ _ S i Hi Hj) as (k & ? & ?);
            exists k; split; [assumption | count_solve k]
        end
      | subst i; exfalso; destruct Hj as [Hj|[Hj|Hj]]; discriminate Hj
      | subst i; eexists; split; [reflexivity|];
        match goal with |- count_labels (L ?k) _ = 1 => count_solve k end ] ].

Ltac case_solve :=
  let st := fresh "st" in let a := fresh "a" in let st' := fresh "st'" in
  let H := fresh "H" in
  intros st a st' H; invert_run;
  eexists; (split; [chain_emitted|]); (split; [lia | seg_solve]).

Lemma Good_case_IfStatement : Good (case_IfStatement node visits).
Proof. unfold case_IfStatement. case_solve. Qed.

Lemma Good_case_WhileStatement : Good (case_WhileStatement visits).
Proof. unfold case_WhileStatement. case_solve. Qed.

Lemma Good_case_ForStatement : Good (case_ForStatement node visits).
Proof. unfold case_ForStatement. case_solve. Qed.

Lemma Good_case_Logical jump :
  jump = "JUMPTRUE" \/ jump = "JUMPFALSE" -> Good (case_Logical visits jump).
Proof. intros [->| ->]; unfold case_Logical; case_solve. Qed.

(** The name that [visitNode] reads off a function declaration. *)
Definition function_name : option string :=
  n ← mjoin (default [] (node_children node) !! 1);
  Some (or_default (node_value n) "").

Lemma child_get_function_name (st : GenState) a st' :
  child_get (node_children node) 1 (fun n => or_default (node_value n) "") st
  = Some (a, st') ->
  function_name = Some a.
Proof.
  unfold child_get, child, function_name. intros H.
  destruct (node_children node) as [l|]; [|discriminate].
  apply bind_inv in H as (c & st1 & [= <- <-] & H). simpl.
  destruct (mjoin (l !! 1)); [|discriminate]. now injection H as <- _.
Qed.

Lemma Good_case_FunctionDeclaration :
  (forall name k, function_name = Some name -> name <> L k) ->
  Good (case_FunctionDeclaration node visits).
Proof.
  intros Hname. unfold case_FunctionDeclaration.
  intros st a st' H. apply bind_inv in H as (funcName & st1 & Hf & H).
  pose proof (child_get_function_name _ _ _ Hf) as Hfn.
  apply Pure_child_get in Hf. subst st1.
  revert st a st' H. good. apply Good_push. split.
  - intros [H|[H|H]]; discriminate.
  - intros k [_ H]. injection H as H. now apply (Hname _ k Hfn).
Qed.

Lemma Good_visit_cases :
  (node_type node = "FunctionDeclaration" ->
   forall name k, function_name = Some name -> name <> L k) ->
  Good (visit_cases node visits).
Proof.
  intros Hname. unfold visit_cases.
  destruct (decide _); [good|].
  destruct (decide _); [now apply Good_case_FunctionDeclaration, Hname|].
  destruct (decide _); [apply Good_case_VariableDeclaration|].
  destruct (decide _); [good|].
  destruct (decide _); [apply Good_case_IfStatement|].
  destruct (decide _); [apply Good_case_WhileStatement|].
  destruct (decide _); [apply Good_case_ForStatement|].
  destruct (decide _); [apply Good_case_ReturnStatement|].
  destruct (decide _); [apply Good_case_PrintStatement|].
  destruct (decide _); [apply Good_case_Assignment|].
  destruct (decide _); [apply Good_case_Logical; auto|].
  destruct (decide _); [apply Good_case_Logical; auto|].
  destruct (lookup_op binary_ops _) as [o|] eqn:Eb.
  { apply Good_case_binary. eapply lookup_op_elem; eassumption. }
  destruct (lookup_op unary_ops _) as [o|] eqn:Eu.
  { apply Good_case_unary. eapply lookup_op_elem; eassumption. }
  destruct (decide _); [apply Good_case_FunctionCall|].
  repeat (destruct (decide _); [good|]). good.
Qed.

End CaseFacts.

(** A function declaration whose name has the form of a generated label
    would place that label a second time. *)
Definition function_label_free (n : ASTNode) : Prop :=
  node_type n = "FunctionDeclaration" ->
  forall name k, function_name n = Some name -> name <> L k.

Lemma visitNode_unfold ty v l c kids :
  visitNode (mkNode ty v l c kids)
  = visit_cases (mkNode ty v l c kids)
      (match kids with
       | Some ks => Some (map (visit_child visitNode) ks)
       | None => None
       end).
Proof. reflexivity. Qed.

Lemma Good_visitNode n : every_node function_label_free n -> Good (visitNode n).
Proof.
  induction n as [ty v l c kids IH] using ASTNode_ind. intros [Hn Hkids].
  rewrite visitNode_unfold. apply Good_visit_cases; [|exact Hn].
  destruct kids as [ks|]; simpl in *; [|exact I].
  apply every_children in Hkids. apply Forall_fmap.
  rewrite Forall_forall in *. intros [m|] Hm; simpl; [|apply Good_throw].
  apply (IH _ Hm). apply (Hkids _ Hm).
Qed.

(** ** Well-formed trees are lowered without an exception *)

(** The least number of children that [visitNode] reads of a node of
    each kind, after the positional contracts: a binary node is
    [left, right], an [IfStatement] is [cond, then, else?], a
    [ForStatement] is [init, cond, step, body], a [FunctionCall] is
    [callee, arg...], a declaration starts with [Type, Identifier]. Kinds
    that are not listed may come without children. *)
Definition min_children (ty : string) : option nat :=
  if bool_decide (ty ∈ ["FunctionDeclaration"; "VariableDeclaration";
                        "IfStatement"; "WhileStatement"; "Assignment";
                        "LogicalOr"; "LogicalAnd"] ++ map fst binary_ops)
  then Some 2
  else if bool_decide (ty = "ForStatement") then Some 4
  else if bool_decide (ty ∈ ["PrintStatement"; "Grouping"; "FunctionCall"]
                            ++ map fst unary_ops)
  then Some 1
  else if bool_decide (ty = "ReturnStatement") then Some 0
  else None.

Definition shape_ok (n : ASTNode) : Prop :=
  match node_children n with
  | Some ks =>
      Forall is_Some ks
      /\ from_option (fun k => k <= length ks) True (min_children (node_type n))
  | None => min_children (node_type n) = None
  end.

Definition well_formed : ASTNode -> Prop := every_node shape_ok.

Definition Runs {A} (m : Gen A) : Prop := forall st, is_Some (m st).

Lemma Runs_ret {A} (a : A) : Runs (ret a).
Proof. intros st. eexists. reflexivity. Qed.

Lemma Runs_bind {A B} (m : Gen A) (k : A -> Gen B) :
  Runs m -> (forall a, Runs (k a)) -> Runs (bind m k).
Proof.
  intros Hm Hk st. unfold bind. destruct (Hm st) as [[a st1] ->]. apply Hk.
Qed.

Lemma Runs_push i : Runs (push i).
Proof. intros st. eexists. reflexivity. Qed.

Lemma Runs_newTemp : Runs newTemp.
Proof. intros st. eexists. reflexivity. Qed.

Lemma Runs_newLabel : Runs newLabel.
Proof. intros st. eexists. reflexivity. Qed.

Lemma Runs_sequence {A} (ms : list (Gen A)) : Forall Runs ms -> Runs (sequence ms).
Proof.
  induction 1 as [|m ms Hm Hms IH]; simpl; [apply Runs_ret|].
  apply Runs_bind; [assumption|]. intros a.
  apply Runs_bind; [assumption|]. intros r. apply Runs_ret.
Qed.

Section RunsCases.

Variables (ty : string) (v : option string) (l c : option nat).
Variable ks : list (option ASTNode).
Variable vs : list (Gen (option string)).

Let node := mkNode ty v l c (Some ks).

Hypothesis Hkids : Forall is_Some ks.
Hypothesis Hlen : length vs = length ks.
Hypothesis Hvs : Forall Runs vs.

Lemma Runs_visit i : i < length ks -> Runs (visit (Some vs) i).
Proof.
  intros Hi. unfold visit.
  destruct (lookup_lt_is_Some_2 vs i) as [m Hm]; [lia|]. rewrite Hm.
  rewrite Forall_forall in Hvs. apply Hvs. eapply list_elem_of_lookup_2; eassumption.
Qed.

Lemma Runs_visitChildren : Runs (visitChildren (Some vs)).
Proof.
  unfold visitChildren. apply Runs_bind; [now apply Runs_sequence|].
  intros; apply Runs_ret.
Qed.

Lemma Runs_child_get {A B} i (f : ASTNode -> A) (k : A -> Gen B) :
  i < length ks -> (forall a, Runs (k a)) ->
  Runs (bind (child_get (Some ks) i f) k).
Proof.
  intros Hi Hk. destruct (lookup_lt_is_Some_2 ks i) as [o Ho]; [lia|].
  rewrite Forall_forall in Hkids.
  destruct (Hkids o) as [n ->]; [eapply list_elem_of_lookup_2; eassumption|].
  intros st. unfold bind, child_get, child, ret; simpl. rewrite Ho. simpl. apply Hk.
Qed.

Lemma Runs_children_length {B} (k : nat -> Gen B) :
  Runs (k (length ks)) -> Runs (bind (children_length (Some ks)) k).
Proof. intros Hk st. apply Hk. Qed.

Ltac runs :=
  repeat first
    [ apply Runs_ret | apply Runs_push | apply Runs_newTemp | apply Runs_newLabel
    | apply Runs_visitChildren
    | apply Runs_visit; lia
    | apply Runs_children_length
    | apply Runs_child_get; [lia | intros ?]
    | apply Runs_bind; [|intros ?]
    | match goal with
      | |- Runs (when ?b _) => destruct b eqn:?; simpl
      | |- Runs (if ?b then _ else _) => destruct b eqn:?
      | H : (_ <? _) = true |- _ => apply Nat.ltb_lt in H
      end ].

Lemma Runs_visit_cases :
  from_option (fun k => k <= length ks) True (min_children ty) ->
  Runs (visit_cases node (Some vs)).
Proof.
  intros Hmin. unfold visit_cases, node; simpl.
  destruct (decide _); [runs|].
  destruct (decide _) as [->|]; [simpl in Hmin; unfold case_FunctionDeclaration; simpl; runs|].
  destruct (decide _) as [->|]; [simpl in Hmin; unfold case_VariableDeclaration; simpl; runs|].
  destruct (decide _); [runs|].
  destruct (decide _) as [->|]; [simpl in Hmin; unfold case_IfStatement; simpl; runs|].
  destruct (decide _) as [->|]; [simpl in Hmin; unfold case_WhileStatement; simpl; runs|].
  destruct (decide _) as [->|]; [simpl in Hmin; unfold case_ForStatement; simpl; runs|].
  destruct (decide _) as [->|]; [simpl in Hmin; unfold case_ReturnStatement; simpl; runs|].
  destruct (decide _) as [->|]; [simpl in Hmin; unfold case_PrintStatement; simpl; runs|].
  destruct (decide _) as [->|]; [simpl in Hmin; unfold case_Assignment; simpl; runs|].
  destruct (decide _) as [->|]; [simpl in Hmin; unfold case_Logical; simpl; runs|].
  destruct (decide _) as [->|]; [simpl in Hmin; unfold case_Logical; simpl; runs|].
  destruct (lookup_op binary_ops ty) as [o|] eqn:Eb.
  { assert (Hty : ty ∈ map fst binary_ops).
    { unfold lookup_op in Eb. destruct (List.find _ _) as [p|] eqn:E; [|discriminate].
      apply find_some in E as [E1 E2]. apply bool_decide_eq_true_1 in E2. subst ty.
      apply list_elem_of_fmap_2. now apply list_elem_of_In. }
    unfold min_children in Hmin.
    rewrite bool_decide_eq_true_2 in Hmin by (apply elem_of_app; now right).
    simpl in Hmin. unfold case_binary. runs. }
  destruct (lookup_op unary_ops ty) as [o|] eqn:Eu.
  { assert (Hty : ty ∈ map fst unary_ops).
    { unfold lookup_op in Eu. destruct (List.find _ _) as [p|] eqn:E; [|discriminate].
      apply find_some in E as [E1 E2]. apply bool_decide_eq_true_1 in E2. subst ty.
      apply list_elem_of_fmap_2. now apply list_elem_of_In. }
    simpl in Hty. unfold case_unary.
    repeat (apply elem_of_cons in Hty as [->|Hty]; [simpl in Hmin; runs|]).
    now apply elem_of_nil in Hty. }
  destruct (decide _) as [->|].
  { simpl in Hmin. unfold case_FunctionCall; simpl. runs.
    - apply Runs_sequence. now apply Forall_drop.
    - apply Runs_sequence. apply Forall_forall. intros m Hm.
      apply list_elem_of_fmap in Hm as (x & -> & _). apply Runs_push. }
  repeat (destruct (decide _) as [->|]; [simpl in Hmin; runs|]). runs.
Qed.

End RunsCases.

Lemma lookup_op_fst table ty o :
  lookup_op table ty = Some o -> ty ∈ map fst table.
Proof.
  unfold lookup_op. destruct (List.find _ _) as [p|] eqn:E; [|discriminate].
  intros _. apply find_some in E as [E1 E2]. apply bool_decide_eq_true_1 in E2.
  subst ty. apply list_elem_of_fmap_2. now apply list_elem_of_In.
Qed.

Lemma Runs_visit_cases_leaf ty v l c :
  min_children ty = None -> Runs (visit_cases (mkNode ty v l c None) None).
Proof.
  intros Hmin. unfold visit_cases, visitChildren; simpl.
  assert (Hr : Runs (run ret (S:=GenState) tt; ret (@None string))).
  { apply Runs_bind; [apply Runs_ret | intros; apply Runs_ret]. }
  repeat (destruct (decide _) as [->|];
          [first [discriminate Hmin | exact Hr | apply Runs_ret]|]).
  destruct (lookup_op binary_ops ty) as [o|] eqn:Eb.
  { apply lookup_op_fst in Eb. unfold min_children in Hmin.
    rewrite bool_decide_eq_true_2 in Hmin by (apply elem_of_app; now right).
    discriminate. }
  destruct (lookup_op unary_ops ty) as [o|] eqn:Eu.
  { apply lookup_op_fst in Eu. simpl in Eu.
    repeat (apply elem_of_cons in Eu as [->|Eu]; [discriminate Hmin|]).
    now apply elem_of_nil in Eu. }
  repeat (destruct (decide _) as [->|];
          [first [discriminate Hmin | exact Hr | apply Runs_ret]|]).
  exact Hr.
Qed.

Lemma Runs_visitNode n : well_formed n -> Runs (visitNode n).
Proof.
  induction n as [ty v l c kids IH] using ASTNode_ind. intros [Hn Hkids].
  rewrite visitNode_unfold. unfold shape_ok in Hn.
  destruct kids as [ks|]; simpl in Hn, Hkids, IH.
  - destruct Hn as [Hsome Hmin]. apply Runs_visit_cases; try assumption.
    + now rewrite length_map.
    + apply every_children in Hkids. apply Forall_fmap.
      rewrite Forall_forall in *. intros [m|] Hm; simpl.
      * apply (IH _ Hm). apply (Hkids _ Hm).
      * destruct (Hsome _ Hm) as [? [=]].
  - now apply Runs_visit_cases_leaf.
Qed.

(** C8 (as amended): for every well-formed tree in which no function is
    named like a generated label, [generateIR] returns an IR in which the
    target of every [JUMP], [JUMPTRUE] and [JUMPFALSE] is the result of
    exactly one [LABEL] instruction. *)
Theorem generateIR_jump_targets (ast : ASTNode) :
  well_formed ast ->
  every_node function_label_free ast ->
  exists ir, generateIR ast = Some ir
    /\ forall i, i ∈ ir -> is_jump i ->
         exists target, result i = Some target /\ count_labels target ir = 1.
Proof.
  intros Hwf Hok. unfold generateIR.
  destruct (Runs_visitNode ast Hwf (mkGen [] 0 0)) as [[r st] Hrun].
  rewrite Hrun. eexists. split; [reflexivity|]. intros i Hi Hj.
  destruct (Good_visitNode ast Hok _ _ _ Hrun) as (seg & Hseg & _ & HS).
  unfold emitted in Hseg. simpl in Hseg. rewrite Hseg in *.
  destruct (seg_jumps _ _ _ HS i Hi Hj) as (k & Hr & Hc). eauto.
Qed.

(** A loop in [main]: the tree of [int main() { while (true) { } }]. *)
Definition loop_ast : ASTNode :=
  mkNode "Program" None None None (Some
    [Some (mkNode "FunctionDeclaration" None None None (Some
       [Some (mkNode "Type" (Some "int") (Some 1) (Some 1) None);
        Some (mkNode "Identifier" (Some "main") (Some 1) (Some 5) None);
        Some (mkNode "Parameters" None None None (Some []));
        Some (mkNode "Block" None None None (Some
          [Some (mkNode "WhileStatement" None None None (Some
             [Some (mkNode "BooleanLiteral" (Some "true") (Some 1) (Some 21) None);
              Some (mkNode "Block" None None None (Some []))]))]))]))]).

Lemma generateIR_jump_targets_witness :
  well_formed loop_ast
  /\ every_node function_label_free loop_ast
  /\ exists ir, generateIR loop_ast = Some ir
       /\ forall i, i ∈ ir -> is_jump i ->
            exists target, result i = Some target /\ count_labels target ir = 1.
Proof.
  assert (Hwf : well_formed loop_ast).
  { unfold well_formed, loop_ast, shape_ok; simpl.
    repeat split; repeat constructor; eauto. }
  assert (Hok : every_node function_label_free loop_ast).
  { unfold loop_ast, function_label_free; simpl.
    repeat split; intros Hty name k Hname; try discriminate Hty.
    injection Hname as <-. discriminate. }
  split; [exact Hwf|]. split; [exact Hok|].
  exact (generateIR_jump_targets loop_ast Hwf Hok).
Defined.

(** A function named like the first generated label: the tree of
    [int L0() { if (true) { } }]. *)
Definition label_named_source : string := "int L0() { if (true) { } }".

Definition label_named_ast : ASTNode :=
  mkNode "Program" None None None (Some
    [Some (mkNode "FunctionDeclaration" None None None (Some
       [Some (mkNode "Type" (Some "int") (Some 1) (Some 1) None);
        Some (mkNode "Identifier" (Some "L0") (Some 1) (Some 5) None);
        Some (mkNode "Parameters" None None None (Some []));
        Some (mkNode "Block" None None None (Some
          [Some (mkNode "IfStatement" None None None (Some
             [Some (mkNode "BooleanLiteral" (Some "true") (Some 1) (Some 16) None);
              Some (mkNode "Block" None None None (Some []))]))]))]))]).

Definition label_named_ir : list IRInstruction :=
  [instr_r "LABEL" "L0"; instr0 "ENTER";
   mkInstr "JUMPFALSE" (Some "L0") (Some "true") None;
   instr_r "JUMP" "L1"; instr_r "LABEL" "L0"; instr_r "LABEL" "L1";
   instr0 "LEAVE"; instr0 "RET"].

(** C8 as stated fails: the tree is what the parser builds for the source
    above and is well formed, and the target [L0] of its [JUMPFALSE] is
    the result of two [LABEL] instructions, the function's and the
    else-branch's. *)
Lemma generateIR_label_named_function :
  Parser.parse (Lexer.tokenize label_named_source).1 = Some (label_named_ast, [])
  /\ well_formed label_named_ast
  /\ generateIR label_named_ast = Some label_named_ir
  /\ count_labels "L0" label_named_ir = 2
  /\ ~ (forall i, i ∈ label_named_ir -> is_jump i ->
          exists target, result i = Some target
                         /\ count_labels target label_named_ir = 1).
Proof.
  split; [vm_compute; reflexivity|]. split.
  { unfold well_formed, label_named_ast, shape_ok; simpl.
    repeat split; repeat constructor; eauto. }
  split; [vm_compute; reflexivity|]. split; [vm_compute; reflexivity|].
  intros H.
  destruct (H (mkInstr "JUMPFALSE" (Some "L0") (Some "true") None))
    as (target & [= <-] & Hc).
  - unfold label_named_ir. set_solver.
  - right. right. reflexivity.
  - vm_compute in Hc. discriminate.
Qed.

End IRGeneratorFacts.

(** * Properties of the semantic analyzer *)

Module AnalyzerFacts.
Import Analyzer.

(** ** Computations that only read the symbol table *)

(** Computations that leave the table and the draw count alone. *)
Definition Reads {X} (m : A X) : Prop :=
  forall st x st', m st = Some (x, st') ->
    symbolTable st' = symbolTable st /\ draws st' = draws st.

Lemma Reads_ret {X} (x : X) : Reads (ret x).
Proof. intros st y st' [= _ <-]. auto. Qed.

Lemma Reads_throw {X} : Reads (@throw AState X).
Proof. intros st y st' [=]. Qed.

Lemma Reads_bind {X Y} (m : A X) (k : X -> A Y) :
  Reads m -> (forall x, Reads (k x)) -> Reads (bind m k).
Proof.
  intros Hm Hk st y st' H. apply bind_inv in H as (x & st1 & H1 & H2).
  destruct (Hm _ _ _ H1) as [Ht Hd]. destruct (Hk _ _ _ _ H2) as [Ht' Hd'].
  split; congruence.
Qed.

Lemma Reads_get : Reads get.
Proof. intros st y st' [= _ <-]. auto. Qed.

Lemma Reads_push_error msg l c : Reads (push_error msg l c).
Proof. intros st y st' [= _ <-]. auto. Qed.

Lemma Reads_error_at msg n : Reads (error_at msg n).
Proof. apply Reads_push_error. Qed.

Lemma Reads_when b (m : A unit) : Reads m -> Reads (when b m).
Proof. intros H. destruct b; [assumption | apply Reads_ret]. Qed.

Lemma Reads_sequence {X} (ms : list (A X)) : Forall Reads ms -> Reads (sequence ms).
Proof.
  induction 1 as [|m ms Hm Hms IH]; simpl; [apply Reads_ret|].
  apply Reads_bind; [assumption|]. intros a.
  apply Reads_bind; [assumption|]. intros r. apply Reads_ret.
Qed.

Lemma Reads_child kids i : Reads (child (S:=AState) kids i).
Proof. unfold child. destruct kids; [apply Reads_ret | apply Reads_throw]. Qed.

Lemma Reads_child_get {X} kids i (f : ASTNode -> X) :
  Reads (child_get (S:=AState) kids i f).
Proof.
  unfold child_get. apply Reads_bind; [apply Reads_child|].
  intros [n|]; [apply Reads_ret | apply Reads_throw].
Qed.

Lemma Reads_children_length kids : Reads (children_length (S:=AState) kids).
Proof. unfold children_length. destruct kids; [apply Reads_ret | apply Reads_throw]. Qed.

Lemma Reads_current_scope : Reads current_scope.
Proof.
  unfold current_scope. apply Reads_bind; [apply Reads_get|]. intros st.
  destruct (_ !! _); [apply Reads_ret | apply Reads_throw].
Qed.

Lemma Reads_resolveSymbol name n : Reads (resolveSymbol name n).
Proof.
  unfold resolveSymbol. apply Reads_bind; [apply Reads_get|]. intros st.
  destruct (resolve_from _ _ _ _) as [[f|]|]; [apply Reads_ret | | apply Reads_throw].
  apply Reads_bind; [apply Reads_error_at | intros; apply Reads_ret].
Qed.

Ltac reads_more := fail.

Ltac reads :=
  repeat first
    [ reads_more | apply Reads_ret | apply Reads_throw | apply Reads_get | apply Reads_error_at
    | apply Reads_push_error | apply Reads_child | apply Reads_child_get
    | apply Reads_children_length | apply Reads_current_scope
    | apply Reads_resolveSymbol | apply Reads_when
    | apply Reads_bind; [|intros ?]
    | match goal with
      | |- Reads (if ?b then _ else _) => destruct b
      | |- Reads (match ?o with Some _ => _ | None => _ end) => destruct o
      | |- Reads (let '(_, _) := ?p in _) => destruct p
      end ].

Section TypeFacts.

Variable node : ASTNode.
Variable types : option (list (A string)).
Hypothesis Htypes : from_option (Forall Reads) True types.

Lemma Reads_type_at i : Reads (type_at types i).
Proof.
  unfold type_at. destruct types as [ts|]; [|apply Reads_throw].
  destruct (ts !! i) as [t|] eqn:E; [|apply Reads_throw].
  simpl in Htypes. rewrite Forall_forall in Htypes. apply Htypes.
  eapply list_elem_of_lookup_2; eassumption.
Qed.

Lemma Reads_type_cases : Reads (type_cases node types).
Proof.
  unfold type_cases, type_arithmetic, type_Negation, type_FunctionCall.
  reads; try apply Reads_type_at.
  apply Reads_sequence. apply Forall_forall. intros m Hm.
  apply list_elem_of_fmap in Hm as (i & -> & _). unfold check_argument.
  reads; apply Reads_type_at.
Qed.

End TypeFacts.

Lemma Reads_getTypeOfNode n : Reads (getTypeOfNode n).
Proof.
  induction n as [ty v l c kids IH] using ASTNode_ind.
  change (Reads (type_cases (mkNode ty v l c kids)
                   (match kids with
                    | Some ks => Some (map (on_child getTypeOfNode) ks)
                    | None => None
                    end))).
  apply Reads_type_cases. destruct kids as [ks|]; simpl in *; [|exact I].
  apply Forall_fmap. rewrite Forall_forall in *.
  intros [m|] Hm; simpl; [apply (IH _ Hm) | apply Reads_throw].
Qed.

Lemma Reads_type_of node i : Reads (type_of node i).
Proof.
  unfold type_of. apply Reads_bind; [apply Reads_child|].
  intros [n|]; simpl; [apply Reads_getTypeOfNode | apply Reads_throw].
Qed.

Lemma Reads_param_info p : Reads (param_info p).
Proof. unfold param_info. reads. Qed.

Ltac reads_more ::= first [apply Reads_type_of | apply Reads_param_info].

(** ** The current scope after a walk *)

(** The name under which the analyzer declares a function. *)
Definition declared_name (n : ASTNode) : string :=
  from_option (fun c => or_default (node_value c) "") ""
    (kid (node_children n) 1).

(** [nested_ok fs n]: below [n], no function is declared inside a
    function of the same name, nor inside one of the functions [fs]. *)
Fixpoint nested_ok (fs : list string) (n : ASTNode) : Prop :=
  let inside :=
    if decide (node_type n = "FunctionDeclaration") then declared_name n :: fs
    else fs in
  (node_type n = "FunctionDeclaration" -> declared_name n ∉ fs)
  /\ match node_children n with
     | Some ks =>
         (fix every (ks : list (option ASTNode)) : Prop :=
            match ks with
            | [] => True
            | c :: ks' =>
                match c with
                | Some m => nested_ok inside m
                | None => True
                end /\ every ks'
            end) ks
     | None => True
     end.

Section WithRandom.

Variable rnd : nat -> string.
Hypothesis rnd_inj : Inj (=) (=) rnd.

(** The scope names that a visit must leave in place: the global scope,
    the scopes of the enclosing functions [fs], and the block scopes
    entered before the visit, when [d] identifiers had been drawn. *)
Definition protected (fs : list string) (d : nat) (s : string) : Prop :=
  s = "global"
  \/ (exists f, f ∈ fs /\ s = "function_" +:+ f)
  \/ (exists j, j < d /\ s = "block_" +:+ rnd j).

Lemma protected_mono fs d d' s : protected fs d s -> d <= d' -> protected fs d' s.
Proof.
  intros [H|[H|(j & Hj & H)]] Hle; [now left | now right; left|].
  right; right. exists j. split; [lia | assumption].
Qed.

Lemma protected_cons fs f d s : protected fs d s -> protected (f :: fs) d s.
Proof.
  intros [H|[(g & Hg & H)|H]]; [now left | | now right; right].
  right; left. exists g. split; [now apply elem_of_cons; right | assumption].
Qed.

Lemma protected_nonempty fs d s : protected fs d s -> s <> "".
Proof. intros [H|[(f & _ & H)|(j & _ & H)]]; subst s; discriminate. Qed.

Lemma block_not_protected fs d : ~ protected fs d ("block_" +:+ rnd d).
Proof.
  intros [H|[(f & _ & H)|(j & Hj & H)]]; try discriminate.
  apply (inj (String.app _)), rnd_inj in H. lia.
Qed.

Lemma function_not_protected fs d f :
  f ∉ fs -> ~ protected fs d ("function_" +:+ f).
Proof.
  intros Hf [H|[(g & Hg & H)|(j & Hj & H)]]; try discriminate.
  apply (inj (String.app _)) in H. subst g. contradiction.
Qed.

(** What a visit may change: the current scope and the parent links of
    the protected scopes stay, and identifiers are only drawn. *)
Definition frame (fs : list string) (d : nat) (st st' : AState) : Prop :=
  currentScope (symbolTable st') = currentScope (symbolTable st)
  /\ (forall s, protected fs d s ->
        parent <$> scopes (symbolTable st') !! s
        = parent <$> scopes (symbolTable st) !! s)
  /\ draws st <= draws st'.

Definition Keeps {X} (fs : list string) (m : A X) : Prop :=
  forall st x st', m st = Some (x, st') ->
    protected fs (draws st) (currentScope (symbolTable st)) ->
    frame fs (draws st) st st'.

Lemma frame_refl fs d st : frame fs d st st.
Proof. repeat split; auto. Qed.

Lemma Keeps_of_Reads {X} fs (m : A X) : Reads m -> Keeps fs m.
Proof.
  intros Hm st x st' H _. destruct (Hm _ _ _ H) as [Ht Hd].
  unfold frame. rewrite Ht, Hd. repeat split; auto.
Qed.

(** ** Computations that keep the scope chain *)

Lemma frame_trans fs d d1 st st1 st2 :
  frame fs d st st1 -> frame fs d1 st1 st2 -> d <= d1 -> frame fs d st st2.
Proof.
  intros (C1 & P1 & D1) (C2 & P2 & D2) Hle. split; [congruence|]. split; [|lia].
  intros s Hs. rewrite P2 by (eapply protected_mono; eassumption). now apply P1.
Qed.

Lemma frame_weaken fs fs' d d' st st' :
  frame fs' d' st st' -> (forall s, protected fs d s -> protected fs' d' s) ->
  frame fs d st st'.
Proof. intros (C & P & D) H. split; [assumption|]. split; auto. Qed.

Lemma Keeps_bind {X Y} fs (m : A X) (k : X -> A Y) :
  Keeps fs m -> (forall x, Keeps fs (k x)) -> Keeps fs (bind m k).
Proof.
  intros Hm Hk st y st' H Hp. apply bind_inv in H as (x & st1 & H1 & H2).
  pose proof (Hm _ _ _ H1 Hp) as F1. destruct F1 as (C1 & P1 & D1).
  assert (Hp1 : protected fs (draws st1) (currentScope (symbolTable st1))).
  { rewrite C1. eapply protected_mono; eassumption. }
  pose proof (Hk _ _ _ _ H2 Hp1) as F2.
  eapply frame_trans; [split; [exact C1 | split; [exact P1 | exact D1]] | exact F2 | exact D1].
Qed.

Lemma Keeps_when fs b (m : A unit) : Keeps fs m -> Keeps fs (when b m).
Proof. intros H. destruct b; [assumption | apply Keeps_of_Reads, Reads_ret]. Qed.

Lemma Keeps_sequence {X} fs (ms : list (A X)) :
  Forall (Keeps fs) ms -> Keeps fs (sequence ms).
Proof.
  induction 1 as [|m ms Hm Hms IH]; simpl; [apply Keeps_of_Reads, Reads_ret|].
  apply Keeps_bind; [assumption|]. intros a.
  apply Keeps_bind; [assumption|]. intros r. apply Keeps_of_Reads, Reads_ret.
Qed.

Lemma Keeps_declareSymbol fs name type kind node params returnType :
  Keeps fs (declareSymbol name type kind node params returnType).
Proof.
  intros st x st' H _. unfold declareSymbol in H.
  apply bind_inv in H as (scope & st1 & H1 & H).
  pose proof (Reads_current_scope _ _ _ H1) as [Ht Hd].
  unfold current_scope in H1. apply bind_inv in H1 as (? & ? & [= <- <-] & H1).
  destruct (scopes (symbolTable st) !! currentScope (symbolTable st)) as [sc|] eqn:E;
    [|discriminate].
  injection H1 as <- <-. destruct node as [n|]; [|discriminate].
  destruct (symbols sc !! name).
  - apply Reads_error_at in H as [Ht' Hd']. unfold frame. rewrite Ht', Hd'.
    repeat split; auto.
  - injection H as _ <-. unfold frame; simpl. repeat split; auto.
    intros s _. destruct (decide (s = currentScope (symbolTable st))) as [->|Hne].
    + rewrite lookup_insert_eq, E. reflexivity.
    + now rewrite lookup_insert_ne by congruence.
Qed.

Lemma Keeps_mark_initialized fs scopeName name :
  Keeps fs (mark_initialized scopeName name).
Proof.
  intros st x st' [= _ <-] _. unfold frame; simpl. repeat split; auto.
  intros s _. rewrite lookup_alter. case_decide; [subst s|reflexivity].
  destruct (scopes (symbolTable st) !! scopeName); reflexivity.
Qed.

Lemma Keeps_fresh_block_id fs : Keeps fs (fresh_block_id rnd).
Proof. intros st x st' [= _ <-] _. unfold frame; simpl. repeat split; auto. Qed.

(** Leaving a scope that was entered under a fresh name, after a body
    that kept the chain, restores the scope that was current before. *)
Lemma scope_exit fs fs' d name st1 st2 st3 st' :
  enterScope name st1 = Some (tt, st2) ->
  frame fs' (draws st2) st2 st3 ->
  exitScope st3 = Some (tt, st') ->
  d <= draws st1 ->
  (forall s, protected fs d s -> protected fs' (draws st1) s) ->
  protected fs d (currentScope (symbolTable st1)) ->
  ~ protected fs d name ->
  protected fs' (draws st1) name ->
  frame fs d st1 st'.
Proof.
  intros [= <-] (C & P & D) Hexit Hd Hsub Hcur Hfresh Hname.
  simpl in C, P, D. unfold exitScope in Hexit.
  apply bind_inv in Hexit as (? & ? & [= <- <-] & Hexit).
  rewrite C in Hexit.
  pose proof (P name Hname) as Pn. rewrite lookup_insert_eq in Pn.
  destruct (scopes (symbolTable st3) !! name) as [sc|]; [|discriminate].
  injection Pn as Pn. injection Hexit as <-. unfold frame; simpl.
  rewrite Pn. simpl. split; [|split; [|assumption]].
  - unfold or_default. case_decide; [|reflexivity].
    now apply protected_nonempty in Hcur.
  - intros s Hs. rewrite (P s (Hsub s Hs)).
    rewrite lookup_insert_ne; [reflexivity|]. intros ->. contradiction.
Qed.

Ltac keeps :=
  repeat first
    [ apply Keeps_declareSymbol | apply Keeps_mark_initialized
    | apply Keeps_fresh_block_id | apply Keeps_when
    | apply Keeps_of_Reads; solve [reads]
    | apply Keeps_bind; [|intros ?]
    | match goal with
      | |- Keeps _ (if ?b then _ else _) => destruct b
      | |- Keeps _ (match ?o with Some _ => _ | None => _ end) => destruct o
      | |- Keeps _ (let '(_, _) := ?p in _) => destruct p
      end ].

Lemma Keeps_params fs (params : list (string * string * option ASTNode)) :
  Keeps fs (sequence (map (fun p : string * string * option ASTNode =>
                             declareSymbol p.1.1 p.1.2 "parameter" p.2 None None)
                          params)).
Proof.
  apply Keeps_sequence, Forall_fmap, Forall_forall. intros p _.
  apply Keeps_declareSymbol.
Qed.

Section CaseFacts.

Variable node : ASTNode.
Variable visits : option (list (A unit)).
Variable inside : list string.
Hypothesis Hvisits : from_option (Forall (Keeps inside)) True visits.

Lemma Keeps_visit i : Keeps inside (visit visits i).
Proof.
  unfold visit. destruct visits as [vs|]; [|apply Keeps_of_Reads, Reads_throw].
  destruct (vs !! i) as [v|] eqn:E; [|apply Keeps_of_Reads, Reads_throw].
  simpl in Hvisits. rewrite Forall_forall in Hvisits. apply Hvisits.
  eapply list_elem_of_lookup_2; eassumption.
Qed.

Lemma Keeps_visitChildren : Keeps inside (visitChildren visits).
Proof.
  unfold visitChildren. destruct visits as [vs|]; [|apply Keeps_of_Reads, Reads_ret].
  apply Keeps_bind; [now apply Keeps_sequence|].
  intros; apply Keeps_of_Reads, Reads_ret.
Qed.

Ltac keeps_case :=
  keeps; try apply Keeps_visitChildren; try apply Keeps_visit.

Lemma Keeps_case_Program : Keeps inside (case_Program visits).
Proof. unfold case_Program. keeps_case. Qed.

Lemma Keeps_case_VariableDeclaration :
  Keeps inside (case_VariableDeclaration node).
Proof. unfold case_VariableDeclaration. keeps_case. Qed.

Lemma Keeps_case_condition : Keeps inside (case_condition node visits).
Proof. unfold case_condition. keeps_case. Qed.

Lemma Keeps_case_ReturnStatement : Keeps inside (case_ReturnStatement node visits).
Proof. unfold case_ReturnStatement, check_return. keeps_case. Qed.

Lemma Keeps_case_Assignment : Keeps inside (case_Assignment node visits).
Proof. unfold case_Assignment. keeps_case. Qed.

(** A block: its scope name is the next identifier drawn, which no scope
    on the chain carries. *)
Lemma Keeps_case_Block : Keeps inside (case_Block rnd visits).
Proof.
  intros st x st' H Hp. unfold case_Block in H.
  apply bind_inv in H as (blockId & st1 & [= <- <-] & H).
  apply bind_inv in H as ([] & st2 & Henter & H).
  apply bind_inv in H as ([] & st3 & Hbody & Hexit).
  assert (F : frame inside (draws st2) st2 st3).
  { apply (Keeps_visitChildren _ _ _ Hbody). injection Henter as <-. simpl.
    right; right. exists (draws st). split; [lia | reflexivity]. }
  destruct x.
  pose proof (scope_exit inside inside (draws st) _ _ _ _ _ Henter F Hexit) as G.
  simpl in G. destruct G as (C & P & D).
  - lia.
  - intros s Hs. eapply protected_mono; [eassumption | lia].
  - assumption.
  - apply block_not_protected.
  - right; right. exists (draws st). split; [lia | reflexivity].
  - repeat split; [assumption | assumption | simpl in D; lia].
Qed.

End CaseFacts.

Lemma child_get_declared_name node (st : AState) funcName st' :
  child_get (node_children node) 1 (fun n => or_default (node_value n) "") st
  = Some (funcName, st') ->
  funcName = declared_name node /\ st' = st.
Proof.
  unfold child_get, child, declared_name, kid. intros H.
  destruct (node_children node) as [ks|]; [|discriminate]. simpl in *.
  destruct (ks !! 1) as [[c|]|]; simpl in *; try discriminate;
    injection H as <- <-; auto.
Qed.

(** A function declaration: its scope name is not on the chain when no
    enclosing function has its name. *)
Lemma Keeps_case_FunctionDeclaration node visits fs :
  from_option (Forall (Keeps (declared_name node :: fs))) True visits ->
  declared_name node ∉ fs ->
  Keeps fs (case_FunctionDeclaration node visits).
Proof.
  intros Hvisits Hfresh st x st' H Hp. unfold case_FunctionDeclaration in H.
  apply bind_inv in H as (returnType & st0 & H0 & H).
  apply Reads_child_get in H0 as R0.
  apply bind_inv in H as (funcName & st1 & H1 & H).
  apply child_get_declared_name in H1 as [-> ->].
  apply bind_inv in H as (paramNodes & st2 & H2 & H).
  apply Reads_child_get in H2 as R2.
  apply bind_inv in H as (params & st3 & H3 & H).
  assert (R3 : symbolTable st3 = symbolTable st2 /\ draws st3 = draws st2).
  { revert H3. apply Reads_sequence, Forall_fmap, Forall_forall.
    intros p _. apply Reads_param_info. }
  destruct R0 as [T0 D0], R2 as [T2 D2], R3 as [T3 D3].
  assert (Hp3 : protected fs (draws st3) (currentScope (symbolTable st3)))
    by (rewrite T3, T2, T0, D3, D2, D0; assumption).
  apply bind_inv in H as ([] & st4 & H4 & H).
  pose proof (Keeps_declareSymbol fs _ _ _ _ _ _ _ _ _ H4 Hp3) as F4.
  apply bind_inv in H as ([] & st5 & Henter & H).
  apply bind_inv in H as (declared & st6 & H6 & H).
  apply bind_inv in H as (len & st7 & H7 & H).
  apply Reads_children_length in H7 as [T7 D7].
  apply bind_inv in H as ([] & st8 & H8 & Hexit).
  set (inside := declared_name node :: fs) in *.
  assert (Hp5 : protected inside (draws st5) (currentScope (symbolTable st5))).
  { injection Henter as <-. simpl. right; left. exists (declared_name node).
    split; [apply elem_of_cons; now left | reflexivity]. }
  pose proof (Keeps_params inside _ _ _ _ H6 Hp5) as F6.
  assert (Hp7 : protected inside (draws st7) (currentScope (symbolTable st7))).
  { rewrite T7, D7. destruct F6 as (C6 & _ & D6). rewrite C6.
    eapply protected_mono; eassumption. }
  pose proof (Keeps_when inside _ _ (Keeps_visit visits inside Hvisits 3)
                _ _ _ H8 Hp7) as F8.
  assert (F : frame inside (draws st5) st5 st8).
  { eapply frame_trans; [exact F6 | | destruct F6 as (_ & _ & D6); exact D6].
    destruct F8 as (C8 & P8 & D8). rewrite T7, D7 in *.
    repeat split; assumption. }
  destruct x, F4 as (C4 & P4 & D4).
  destruct (scope_exit fs inside (draws st3) _ _ _ _ _ Henter F Hexit)
    as (C & P & D).
  - assumption.
  - intros s Hs. apply protected_cons. eapply protected_mono; eassumption.
  - rewrite C4. assumption.
  - now apply function_not_protected.
  - right; left. exists (declared_name node).
    split; [apply elem_of_cons; now left | reflexivity].
  - rewrite D3, D2, D0 in *. rewrite T3, T2, T0 in *.
    split; [congruence|]. split; [|lia].
    intros s Hs. rewrite (P s Hs). now apply P4.
Qed.

Lemma Keeps_visit_cases node visits fs :
  let inside :=
    if decide (node_type node = "FunctionDeclaration")
    then declared_name node :: fs else fs in
  from_option (Forall (Keeps inside)) True visits ->
  (node_type node = "FunctionDeclaration" -> declared_name node ∉ fs) ->
  Keeps fs (visit_cases rnd node visits).
Proof.
  intros inside Hvisits Hfresh. unfold visit_cases. subst inside.
  destruct (decide (node_type node = "FunctionDeclaration")) as [E|E].
  - rewrite E. simpl. apply Keeps_case_FunctionDeclaration; auto.
  - destruct (decide (node_type node = "Program"));
      [now apply Keeps_case_Program|].
    destruct (decide (node_type node = "VariableDeclaration"));
      [now apply Keeps_case_VariableDeclaration|].
    destruct (decide (node_type node = "Block"));
      [now apply Keeps_case_Block|].
    destruct (bool_decide _); [now apply Keeps_case_condition|].
    destruct (decide (node_type node = "ReturnStatement"));
      [now apply Keeps_case_ReturnStatement|].
    destruct (decide (node_type node = "Assignment"));
      [now apply Keeps_case_Assignment|].
    now apply Keeps_visitChildren.
Qed.

Lemma nested_ok_children fs ty v l c ks m :
  nested_ok fs (mkNode ty v l c (Some ks)) -> Some m ∈ ks ->
  nested_ok (if decide (ty = "FunctionDeclaration")
             then declared_name (mkNode ty v l c (Some ks)) :: fs else fs) m.
Proof.
  intros [_ H] Hm. simpl in H. revert H.
  generalize (if decide (ty = "FunctionDeclaration")
              then declared_name (mkNode ty v l c (Some ks)) :: fs else fs).
  intros inside. induction ks as [|k ks IH]; [now apply elem_of_nil in Hm|].
  intros [Hk Hks]. apply elem_of_cons in Hm as [<-|Hm]; [assumption|].
  apply IH; assumption.
Qed.

Lemma Keeps_visitNode n : forall fs, nested_ok fs n -> Keeps fs (visitNode rnd n).
Proof.
  induction n as [ty v l c kids IH] using ASTNode_ind. intros fs Hok.
  change (Keeps fs (visit_cases rnd (mkNode ty v l c kids)
                      (match kids with
                       | Some ks => Some (map (on_child (visitNode rnd)) ks)
                       | None => None
                       end))).
  apply Keeps_visit_cases; [|apply Hok].
  destruct kids as [ks|]; simpl in IH |- *; [|exact I].
  apply Forall_fmap. rewrite Forall_forall in *.
  intros [m|] Hm; simpl; [|apply Keeps_of_Reads, Reads_throw].
  apply (IH _ Hm). apply (nested_ok_children _ _ _ _ _ _ _ Hok Hm).
Qed.

End WithRandom.

(** C9, as the code has it. When [analyze] returns on a tree in which no
    function is declared inside a function of the same name, and the
    identifiers drawn for the block scopes are pairwise distinct, the
    current scope of the table it returns is the global scope. *)
Theorem analyze_currentScope_global (rnd : nat -> string) (ast : ASTNode)
    (table : SymbolTable) (errs : list CompilerError) :
  Inj (=) (=) rnd ->
  nested_ok [] ast ->
  analyze rnd ast = Some (table, errs) ->
  currentScope table = "global".
Proof.
  intros Hinj Hok H. unfold analyze in H.
  destruct (visitNode rnd ast initial_state) as [[[] st]|] eqn:E; [|discriminate].
  injection H as <- _.
  assert (Hp : protected rnd [] (draws (initial_state))
                 (currentScope (symbolTable initial_state))) by now left.
  destruct (Keeps_visitNode rnd Hinj ast [] Hok _ _ _ E Hp) as (C & _).
  exact C.
Qed.

(** [int main() { { int x = 1; } return 0; }] as the parser returns it. *)
Definition nested_blocks_source : string :=
  "int main() { { int x = 1; } return 0; }".

Definition leaf (ty v : string) (l c : nat) : option ASTNode :=
  Some (mkNode ty (Some v) (Some l) (Some c) None).

Definition tree (ty : string) (kids : list (option ASTNode)) : ASTNode :=
  mkNode ty None None None (Some kids).

Definition nested_blocks_ast : ASTNode :=
  tree "Program"
    [Some (tree "FunctionDeclaration"
       [leaf "Type" "int" 1 1; leaf "Identifier" "main" 1 5;
        Some (tree "Parameters" []);
        Some (tree "Block"
          [Some (tree "Block"
             [Some (tree "VariableDeclaration"
                [leaf "Type" "int" 1 16; leaf "Identifier" "x" 1 20;
                 leaf "NumberLiteral" "1" 1 24])]);
           Some (mkNode "ReturnStatement" None (Some 1) (Some 29)
                   (Some [leaf "NumberLiteral" "0" 1 36]))])])].

Lemma nested_blocks_parsed :
  Parser.parse (Lexer.tokenize nested_blocks_source).1 = Some (nested_blocks_ast, []).
Proof. vm_compute. reflexivity. Qed.

Lemma analyze_currentScope_global_witness :
  Inj (=) (=) (pretty : nat -> string)
  /\ nested_ok [] nested_blocks_ast
  /\ exists table errs,
       analyze pretty nested_blocks_ast = Some (table, errs)
       /\ currentScope table = "global".
Proof.
  assert (Hok : nested_ok [] nested_blocks_ast).
  { unfold nested_blocks_ast, tree, leaf. simpl.
    repeat split; try (intros H; discriminate H). intros _. apply not_elem_of_nil. }
  split; [apply _|]. split; [exact Hok|].
  destruct (analyze pretty nested_blocks_ast) as [[table errs]|] eqn:E;
    [|vm_compute in E; discriminate E].
  exists table, errs. split; [reflexivity|].
  exact (analyze_currentScope_global pretty nested_blocks_ast table errs _ Hok E).
Defined.

(** A function declared in the body of a function of the same name: the
    inner declaration replaces the scope of the outer one, whose parent
    then is the block around the inner declaration. *)
Definition function_f (body : list (option ASTNode)) : ASTNode :=
  tree "FunctionDeclaration"
    [leaf "Type" "int" 1 1; leaf "Identifier" "f" 1 5;
     Some (tree "Parameters" []); Some (tree "Block" body)].

Definition nested_function_ast : ASTNode :=
  tree "Program" [Some (function_f [Some (function_f [])])].

(** C9 fails on a tree that declares a function inside a function of the
    same name: [analyze] returns with the current scope [block_0]. *)
Lemma analyze_nested_function_scope :
  (fun r => currentScope r.1) <$> analyze pretty nested_function_ast
  = Some "block_0".
Proof. vm_compute. reflexivity. Qed.

(** [int main() { { } }] as the parser returns it. *)
Definition empty_blocks_source : string := "int main() { { } }".

Definition empty_blocks_ast : ASTNode :=
  tree "Program"
    [Some (tree "FunctionDeclaration"
       [leaf "Type" "int" 1 1; leaf "Identifier" "main" 1 5;
        Some (tree "Parameters" []);
        Some (tree "Block" [Some (tree "Block" [])])])].

(** The same happens on a parsed program when the two identifiers drawn
    for nested blocks coincide. *)
Lemma analyze_colliding_blocks_scope :
  Parser.parse (Lexer.tokenize empty_blocks_source).1 = Some (empty_blocks_ast, [])
  /\ (fun r => currentScope r.1) <$> analyze (fun _ => "x") empty_blocks_ast
     = Some "block_x".
Proof. split; vm_compute; reflexivity. Qed.

(** ** The identifiers drawn for block scopes *)

(** The number of [Block] nodes of a tree. *)
Fixpoint blocks (n : ASTNode) : nat :=
  (if decide (node_type n = "Block") then 1 else 0)
  + match node_children n with
    | Some ks => sum_list (map (from_option blocks 0) ks)
    | None => 0
    end.

(** Computations that draw no identifier. *)
Definition Still {X} (m : A X) : Prop :=
  forall st x st', m st = Some (x, st') -> draws st' = draws st.

Lemma Still_of_Reads {X} (m : A X) : Reads m -> Still m.
Proof. intros Hm st x st' H. now destruct (Hm _ _ _ H). Qed.

Lemma Still_bind {X Y} (m : A X) (k : X -> A Y) :
  Still m -> (forall x, Still (k x)) -> Still (bind m k).
Proof.
  intros Hm Hk st y st' H. apply bind_inv in H as (x & st1 & H1 & H2).
  rewrite (Hk _ _ _ _ H2). exact (Hm _ _ _ H1).
Qed.

Lemma Still_set_table f : Still (set_table f).
Proof. intros st x st' [= _ <-]. reflexivity. Qed.

Lemma Still_when b (m : A unit) : Still m -> Still (when b m).
Proof. intros H. destruct b; [assumption | apply Still_of_Reads, Reads_ret]. Qed.

Lemma Still_sequence_map {X Y} (f : X -> A Y) (l : list X) :
  (forall x, Still (f x)) -> Still (sequence (map f l)).
Proof.
  intros Hf. induction l as [|x l IH]; simpl; [apply Still_of_Reads, Reads_ret|].
  apply Still_bind; [apply Hf|]. intros a.
  apply Still_bind; [assumption|]. intros r. apply Still_of_Reads, Reads_ret.
Qed.

Ltac still :=
  repeat first
    [ apply Still_of_Reads; solve [reads]
    | apply Still_set_table | apply Still_when
    | apply Still_sequence_map; intros ?
    | apply Still_bind; [|intros ?]
    | match goal with
      | |- Still (if ?b then _ else _) => destruct b
      | |- Still (match ?o with Some _ => _ | None => _ end) => destruct o
      | |- Still (let '(_, _) := ?p in _) => destruct p
      end ].

Lemma Still_enterScope scopeName : Still (enterScope scopeName).
Proof. apply Still_set_table. Qed.

Lemma Still_exitScope : Still exitScope.
Proof. unfold exitScope. still. Qed.

Lemma Still_declareSymbol name type kind node params returnType :
  Still (declareSymbol name type kind node params returnType).
Proof. unfold declareSymbol. still. Qed.

Lemma Still_mark_initialized scopeName name :
  Still (mark_initialized scopeName name).
Proof. apply Still_set_table. Qed.

Ltac still_more :=
  first [ apply Still_enterScope | apply Still_exitScope
        | apply Still_declareSymbol | apply Still_mark_initialized | still ].

Lemma Still_case_VariableDeclaration node : Still (case_VariableDeclaration node).
Proof. unfold case_VariableDeclaration. repeat still_more. Qed.

Lemma lookup_le_sum_list (l : list nat) i x : l !! i = Some x -> x <= sum_list l.
Proof.
  revert i. induction l as [|y l IH]; intros [|i] H; simpl in *; try discriminate.
  - injection H as ->. lia.
  - specialize (IH _ H). lia.
Qed.

Section TwoRuns.

(** Two runs, with the identifiers that each of them draws. *)
Variables rnd1 rnd2 : nat -> string.

(** The two runs draw the same identifiers at the [b] draws from [lo]. *)
Definition same_draws (lo b : nat) : Prop :=
  forall k, lo <= k < lo + b -> rnd1 k = rnd2 k.

(** [m1] in the first run and [m2] in the second do the same from every
    state, and draw at most [b] identifiers, provided that these are the
    same in both runs. *)
Definition Agree {X} (b : nat) (m1 m2 : A X) : Prop :=
  forall st, same_draws (draws st) b ->
    m1 st = m2 st
    /\ forall x st', m1 st = Some (x, st') -> draws st <= draws st' <= draws st + b.

Lemma Agree_still {X} b (m : A X) : Still m -> Agree b m m.
Proof.
  intros Hm st _. split; [reflexivity|]. intros x st' H.
  rewrite (Hm _ _ _ H). lia.
Qed.

Lemma Agree_weaken {X} b b' (m1 m2 : A X) :
  Agree b m1 m2 -> b <= b' -> Agree b' m1 m2.
Proof.
  intros Hm Hle st Hst. destruct (Hm st) as [E D].
  { intros k Hk. apply Hst. lia. }
  split; [assumption|]. intros x st' H. specialize (D _ _ H). lia.
Qed.

Lemma Agree_bind {X Y} b1 b2 (m1 m2 : A X) (k1 k2 : X -> A Y) :
  Agree b1 m1 m2 -> (forall x, Agree b2 (k1 x) (k2 x)) ->
  Agree (b1 + b2) (bind m1 k1) (bind m2 k2).
Proof.
  intros Hm Hk st Hst. destruct (Hm st) as [E D].
  { intros k Hk'. apply Hst. lia. }
  unfold bind. rewrite <- E. destruct (m1 st) as [[x st1]|]; [|split; [reflexivity|discriminate]].
  specialize (D _ _ eq_refl). destruct (Hk x st1) as [E' D'].
  { intros k Hk'. apply Hst. lia. }
  split; [assumption|]. intros y st' H. specialize (D' _ _ H). lia.
Qed.

Lemma Agree_bind_l {X Y} b (m : A X) (k1 k2 : X -> A Y) :
  Still m -> (forall x, Agree b (k1 x) (k2 x)) -> Agree b (bind m k1) (bind m k2).
Proof.
  intros Hm Hk. apply (Agree_weaken (0 + b)); [|lia].
  apply Agree_bind; [now apply Agree_still | assumption].
Qed.

Lemma Agree_bind_r {X Y} b (m1 m2 : A X) (k : X -> A Y) :
  Agree b m1 m2 -> (forall x, Still (k x)) -> Agree b (bind m1 k) (bind m2 k).
Proof.
  intros Hm Hk. apply (Agree_weaken (b + 0)); [|lia].
  apply Agree_bind; [assumption | intros x; now apply Agree_still].
Qed.

Lemma Agree_when b c (m1 m2 : A unit) :
  Agree b m1 m2 -> Agree b (when c m1) (when c m2).
Proof.
  intros H. destruct c; [assumption|]. apply Agree_still, Still_of_Reads, Reads_ret.
Qed.

Lemma Agree_fresh_block_id : Agree 1 (fresh_block_id rnd1) (fresh_block_id rnd2).
Proof.
  intros st Hst. unfold fresh_block_id, bind, get, put, ret.
  rewrite (Hst (draws st)) by lia. split; [reflexivity|].
  intros x st' [= _ <-]. simpl. lia.
Qed.

Section CaseFacts.

Variable node : ASTNode.
Variable ks : option (list (option ASTNode)).
Variables visit1 visit2 : ASTNode -> A unit.

Hypothesis Hks :
  from_option
    (Forall (from_option (fun m => Agree (blocks m) (visit1 m) (visit2 m)) True))
    True ks.

Let visits1 : option (list (A unit)) := map (on_child visit1) <$> ks.
Let visits2 : option (list (A unit)) := map (on_child visit2) <$> ks.
Let total : nat := from_option (fun l => sum_list (map (from_option blocks 0) l)) 0 ks.

Lemma Agree_on_child c :
  from_option (fun m => Agree (blocks m) (visit1 m) (visit2 m)) True c ->
  Agree (from_option blocks 0 c) (on_child visit1 c) (on_child visit2 c).
Proof.
  destruct c as [m|]; simpl; [auto|]. intros _.
  apply Agree_still, Still_of_Reads, Reads_throw.
Qed.

Lemma Agree_visit i : Agree total (visit visits1 i) (visit visits2 i).
Proof.
  unfold visit, visits1, visits2, total. destruct ks as [l|]; simpl in *;
    [|apply Agree_still, Still_of_Reads, Reads_throw].
  rewrite !list_lookup_fmap. destruct (l !! i) as [c|] eqn:E; simpl;
    [|apply Agree_still, Still_of_Reads, Reads_throw].
  apply (Agree_weaken (from_option blocks 0 c)).
  - apply Agree_on_child. rewrite Forall_forall in Hks. apply Hks.
    eapply list_elem_of_lookup_2; eassumption.
  - apply (lookup_le_sum_list _ i). now rewrite list_lookup_fmap, E.
Qed.

Lemma Agree_visitChildren :
  Agree total (visitChildren visits1) (visitChildren visits2).
Proof.
  unfold visitChildren, visits1, visits2, total. destruct ks as [l|]; simpl in *;
    [|apply Agree_still, Still_of_Reads, Reads_ret].
  apply Agree_bind_r; [|intros; apply Still_of_Reads, Reads_ret].
  induction Hks as [|c l' Hc Hl IH]; simpl;
    [apply Agree_still, Still_of_Reads, Reads_ret|].
  apply Agree_bind; [now apply Agree_on_child|]. intros a.
  apply Agree_bind_r; [assumption | intros; apply Still_of_Reads, Reads_ret].
Qed.

Ltac agree :=
  repeat first
    [ apply Agree_visitChildren | apply Agree_visit
    | apply Agree_still; solve [repeat still_more]
    | apply Agree_when
    | apply Agree_bind_l; [solve [repeat still_more] | intros ?]
    | apply Agree_bind_r; [|intros ?; solve [repeat still_more]]
    | match goal with
      | |- Agree _ (if ?b then _ else _) (if ?b then _ else _) => destruct b
      | |- Agree _ (match ?o with Some _ => _ | None => _ end)
                   (match ?o with Some _ => _ | None => _ end) => destruct o
      end ].

Lemma Agree_case_Program : Agree total (case_Program visits1) (case_Program visits2).
Proof. unfold case_Program. agree. Qed.

Lemma Agree_case_FunctionDeclaration :
  Agree total (case_FunctionDeclaration node visits1)
              (case_FunctionDeclaration node visits2).
Proof. unfold case_FunctionDeclaration. agree. Qed.

Lemma Agree_case_condition :
  Agree total (case_condition node visits1) (case_condition node visits2).
Proof. unfold case_condition. agree. Qed.

Lemma Agree_case_ReturnStatement :
  Agree total (case_ReturnStatement node visits1) (case_ReturnStatement node visits2).
Proof. unfold case_ReturnStatement, check_return. agree. Qed.

Lemma Agree_case_Assignment :
  Agree total (case_Assignment node visits1) (case_Assignment node visits2).
Proof. unfold case_Assignment. agree. Qed.

Lemma Agree_case_Block :
  Agree (1 + total) (case_Block rnd1 visits1) (case_Block rnd2 visits2).
Proof.
  unfold case_Block. apply Agree_bind; [apply Agree_fresh_block_id|].
  intros blockId. agree.
Qed.

Lemma Agree_visit_cases :
  Agree ((if decide (node_type node = "Block") then 1 else 0) + total)
        (visit_cases rnd1 node visits1) (visit_cases rnd2 node visits2).
Proof.
  unfold visit_cases.
  destruct (decide (node_type node = "Program"));
    [eapply Agree_weaken; [apply Agree_case_Program | apply Nat.le_add_l]|].
  destruct (decide (node_type node = "FunctionDeclaration"));
    [eapply Agree_weaken; [apply Agree_case_FunctionDeclaration | apply Nat.le_add_l]|].
  destruct (decide (node_type node = "VariableDeclaration"));
    [apply Agree_still, Still_case_VariableDeclaration|].
  destruct (decide (node_type node = "Block")); [apply Agree_case_Block|].
  destruct (bool_decide _);
    [eapply Agree_weaken; [apply Agree_case_condition | apply Nat.le_add_l]|].
  destruct (decide (node_type node = "ReturnStatement"));
    [eapply Agree_weaken; [apply Agree_case_ReturnStatement | apply Nat.le_add_l]|].
  destruct (decide (node_type node = "Assignment"));
    [eapply Agree_weaken; [apply Agree_case_Assignment | apply Nat.le_add_l]|].
  eapply Agree_weaken; [apply Agree_visitChildren | apply Nat.le_add_l].
Qed.

End CaseFacts.

Lemma Agree_visitNode n : Agree (blocks n) (visitNode rnd1 n) (visitNode rnd2 n).
Proof.
  induction n as [ty v l c kids IH] using ASTNode_ind.
  apply (Agree_visit_cases (mkNode ty v l c kids) kids
           (visitNode rnd1) (visitNode rnd2)).
  destruct kids as [ks|]; simpl in *; [|exact I].
  eapply Forall_impl; [exact IH|]. intros [m|]; simpl; auto.
Qed.

End TwoRuns.

Lemma visitNode_same_draws (rnd1 rnd2 : nat -> string) (ast : ASTNode) :
  (forall k, k < blocks ast -> rnd1 k = rnd2 k) ->
  visitNode rnd1 ast initial_state = visitNode rnd2 ast initial_state.
Proof.
  intros H. apply (Agree_visitNode rnd1 rnd2 ast initial_state).
  intros k Hk. apply H. simpl in Hk. lia.
Qed.



(** [int main() { return 0; }] as the parser returns it. *)
Definition minimal_source : string := "int main() { return 0; }".

Definition minimal_ast : ASTNode :=
  tree "Program"
    [Some (tree "FunctionDeclaration"
       [leaf "Type" "int" 1 1; leaf "Identifier" "main" 1 5;
        Some (tree "Parameters" []);
        Some (tree "Block"
          [Some (mkNode "ReturnStatement" None (Some 1) (Some 14)
                   (Some [leaf "NumberLiteral" "0" 1 21]))])])].

Lemma minimal_parsed :
  Parser.parse (Lexer.tokenize minimal_source).1 = Some (minimal_ast, []).
Proof. vm_compute. reflexivity. Qed.


End AnalyzerFacts.

(** * Properties of the pipeline *)

Module CompilerFacts.
Import Compiler.

(** The stages other than the analyzer draw nothing: their artifacts are
    the same in any two runs. *)
Lemma compile_fields_without_draws (rnd1 rnd2 : nat -> string) (source : string) :
  tokens (compile rnd1 source) = tokens (compile rnd2 source)
  /\ ast (compile rnd1 source) = ast (compile rnd2 source)
  /\ ir (compile rnd1 source) = ir (compile rnd2 source)
  /\ optimizedIr (compile rnd1 source) = optimizedIr (compile rnd2 source)
  /\ assembly (compile rnd1 source) = assembly (compile rnd2 source)
  /\ lexical (errors (compile rnd1 source)) = lexical (errors (compile rnd2 source))
  /\ syntax (errors (compile rnd1 source)) = syntax (errors (compile rnd2 source)).
Proof. repeat split. Qed.

(** Two runs of [compile] on the same source return the same result when
    they draw the same identifiers for the blocks of the tree. *)
Lemma compile_deterministic_in_draws (rnd1 rnd2 : nat -> string) (source : string) :
  (forall k, k < from_option (fun p => AnalyzerFacts.blocks p.1) 0 (parsed source) ->
     rnd1 k = rnd2 k) ->
  compile rnd1 source = compile rnd2 source.
Proof.
  intros H. unfold compile. destruct (parsed source) as [[tree errs]|]; simpl in *;
    [|reflexivity].
  unfold Analyzer.analyze.
  now rewrite (AnalyzerFacts.visitNode_same_draws rnd1 rnd2 tree H).
Qed.

(** The symbol tables of two runs of [compile] on the minimal program. *)
Lemma compile_two_runs_differ :
  symbolTable (compile (fun _ => "4fzzzxjyl") AnalyzerFacts.minimal_source)
  <> symbolTable (compile (fun _ => "k2j8m1q0c") AnalyzerFacts.minimal_source).
Proof.
  intros H.
  apply (f_equal (fun r => (fun t => Analyzer.scopes t !! "block_4fzzzxjyl") <$> r)) in H.
  vm_compute in H. discriminate H.
Qed.

End CompilerFacts.

(** * Strings *)

Module StringFacts.

Lemma app_str_assoc (a b c : string) : (a +:+ b) +:+ c = a +:+ (b +:+ c).
Proof.
  induction a as [|x a IH]; [reflexivity|].
  change (String x ((a +:+ b) +:+ c) = String x (a +:+ (b +:+ c))). now rewrite IH.
Qed.

Lemma app_str_nil_r (a : string) : a +:+ "" = a.
Proof.
  induction a as [|x a IH]; [reflexivity|].
  change (String x (a +:+ "") = String x a). now rewrite IH.
Qed.

Lemma app_str_cons (x : ascii) (a b : string) : String x a +:+ b = String x (a +:+ b).
Proof. reflexivity. Qed.

Lemma take_slice (n : nat) (s : string) : take_str n s +:+ slice n s = s.
Proof.
  revert s. induction n as [|n IH]; intros [|c s]; try reflexivity.
  simpl. rewrite app_str_cons. now rewrite IH.
Qed.

Lemma slice_app_length (a b : string) : slice (String.length a) (a +:+ b) = b.
Proof. induction a as [|c a IH]; [reflexivity | exact IH]. Qed.

Lemma take_app_length (a b : string) : take_str (String.length a) (a +:+ b) = a.
Proof.
  induction a as [|c a IH]; [reflexivity|].
  rewrite app_str_cons. simpl. now rewrite IH.
Qed.

Lemma slice_add (a b : nat) (s : string) : slice (a + b) s = slice b (slice a s).
Proof.
  revert s. induction a as [|a IH]; intros s; [reflexivity|].
  destruct s as [|c s]; simpl; [now destruct b | apply IH].
Qed.

Lemma length_slice (n : nat) (s : string) :
  String.length (slice n s) = String.length s - n.
Proof.
  revert s. induction n as [|n IH]; intros [|c s]; simpl; auto.
Qed.

Lemma slice_all (n : nat) (s : string) : String.length s <= n -> slice n s = "".
Proof.
  revert s. induction n as [|n IH]; intros [|c s] H; simpl in *; try reflexivity;
    try lia. apply IH. lia.
Qed.

Lemma take_all (n : nat) (s : string) : String.length s <= n -> take_str n s = s.
Proof.
  revert s. induction n as [|n IH]; intros [|c s] H; simpl in *; try reflexivity;
    try lia. rewrite IH; [reflexivity | lia].
Qed.

(** The text up to [n + length a], when [a] is what follows position
    [n]. *)
Lemma take_extend (n : nat) (s a r : string) :
  slice n s = a +:+ r -> take_str (n + String.length a) s = take_str n s +:+ a.
Proof.
  intros H. rewrite <- (take_slice n s) at 1. rewrite H.
  rewrite <- app_str_assoc.
  assert (L : String.length (take_str n s) = n \/ slice n s = "").
  { clear H. revert s. induction n as [|n IH]; intros [|c s]; simpl; auto.
    destruct (IH s) as [E|E]; auto. }
  destruct L as [L|L].
  - rewrite <- L at 1. rewrite <- LexerFacts.length_app_str. apply take_app_length.
  - rewrite L in H. destruct a; [|discriminate]. simpl. rewrite Nat.add_0_r.
    rewrite app_str_nil_r. rewrite <- (take_slice n s) at 1. rewrite L.
    change ("" +:+ r) with r in H. subst r. rewrite !app_str_nil_r.
    clear L. revert s. induction n as [|n IH]; intros [|c s]; simpl; auto.
    now rewrite IH.
Qed.

Lemma take_while_prefix (p : ascii -> bool) (s : string) :
  s = take_while p s +:+ slice (String.length (take_while p s)) s.
Proof.
  induction s as [|c s IH]; [reflexivity|]. simpl.
  destruct (p c); [|reflexivity]. rewrite app_str_cons. simpl. now rewrite <- IH.
Qed.

(** Every character of [s] is in the class [p]. *)
Fixpoint all_chars (p : ascii -> bool) (s : string) : bool :=
  match s with
  | String c s' => p c && all_chars p s'
  | EmptyString => true
  end.

Lemma all_chars_app (p : ascii -> bool) (a b : string) :
  all_chars p (a +:+ b) = all_chars p a && all_chars p b.
Proof.
  induction a as [|c a IH]; [reflexivity|].
  rewrite app_str_cons. simpl. now rewrite IH, andb_assoc.
Qed.

Lemma all_chars_impl (p q : ascii -> bool) (s : string) :
  (forall c, p c = true -> q c = true) ->
  all_chars p s = true -> all_chars q s = true.
Proof.
  intros Hpq. induction s as [|c s IH]; simpl; [reflexivity|].
  intros H. apply andb_true_iff in H as [Hc Hs]. now rewrite (Hpq c Hc), IH.
Qed.

Lemma take_while_all (p : ascii -> bool) (s : string) :
  all_chars p (take_while p s) = true.
Proof.
  induction s as [|c s IH]; simpl; [reflexivity|].
  destruct (p c) eqn:E; simpl; [now rewrite E | reflexivity].
Qed.

(** A run of characters of the class, followed by nothing or by a
    character outside the class, is what [take_while] takes. *)
Lemma take_while_app (p : ascii -> bool) (a b : string) :
  all_chars p a = true ->
  match b with String c _ => p c = false | EmptyString => True end ->
  take_while p (a +:+ b) = a.
Proof.
  intros Ha Hb. induction a as [|c a IH].
  - change ("" +:+ b) with b. destruct b as [|c b]; [reflexivity|]. simpl. now rewrite Hb.
  - rewrite app_str_cons. simpl in *. apply andb_true_iff in Ha as [Hc Ha].
    rewrite Hc. now rewrite IH.
Qed.

Lemma take_while_idem (p : ascii -> bool) (s : string) :
  take_while p (take_while p s) = take_while p s.
Proof.
  rewrite <- (app_str_nil_r (take_while p s)) at 1.
  apply take_while_app; [apply take_while_all | exact I].
Qed.

(** What follows the run is empty or starts outside the class. *)
Lemma take_while_stop (p : ascii -> bool) (s : string) :
  match slice (String.length (take_while p s)) s with
  | String c _ => p c = false
  | EmptyString => True
  end.
Proof.
  induction s as [|c s IH]; simpl; [exact I|].
  destruct (p c) eqn:E; simpl; [exact IH | exact E].
Qed.

End StringFacts.

(** * Further properties of the lexer *)

Module LexerProperties.
Import Lexer StringFacts.

(** ** What the patterns match *)

Lemma startsWith_prefix p s :
  startsWith p s = true -> s = p +:+ slice (String.length p) s.
Proof.
  revert s. induction p as [|a p IH]; intros [|b s] H; simpl in *;
    try reflexivity; try discriminate.
  apply andb_true_iff in H as [Hab Hs]. apply bool_decide_eq_true in Hab. subst b.
  rewrite app_str_cons. f_equal. auto.
Qed.

Lemma match_WHITESPACE_prefix s v :
  match_WHITESPACE s = Some v -> s = v +:+ slice (String.length v) s.
Proof.
  unfold match_WHITESPACE. pose proof (take_while_prefix is_space s) as H.
  destruct (take_while is_space s); [discriminate|]. now intros [= <-].
Qed.

Lemma until_close_prefix s u :
  until_close s = Some u -> s = u +:+ slice (String.length u) s.
Proof.
  revert u. induction s as [|c s IH]; intros u H; [discriminate|].
  cbn [until_close] in H. destruct (startsWith "*/" (String c s)) eqn:E.
  - injection H as <-. now apply startsWith_prefix in E.
  - destruct (until_close s) as [u'|]; [|discriminate]. injection H as <-.
    rewrite app_str_cons. simpl. f_equal. now apply IH.
Qed.

Lemma match_COMMENT_MULTI_prefix s v :
  match_COMMENT_MULTI s = Some v -> s = v +:+ slice (String.length v) s.
Proof.
  unfold match_COMMENT_MULTI. destruct (startsWith "/*" s) eqn:E; [|discriminate].
  apply startsWith_prefix in E. destruct (until_close (slice 2 s)) as [u|] eqn:Eu;
    [|discriminate].
  intros [= <-]. apply until_close_prefix in Eu.
  rewrite LexerFacts.length_app_str, slice_add. simpl String.length.
  rewrite app_str_assoc, <- Eu. exact E.
Qed.

Lemma match_IDENTIFIER_prefix s v :
  match_IDENTIFIER s = Some v -> s = v +:+ slice (String.length v) s.
Proof.
  unfold match_IDENTIFIER. destruct s as [|c s]; [discriminate|].
  destruct (is_ident_start c); [|discriminate]. intros [= <-].
  rewrite app_str_cons. simpl. f_equal. apply take_while_prefix.
Qed.

(** The forms of a number: digits, or digits, a point and digits. *)
Lemma match_NUMBER_form s v :
  match_NUMBER s = Some v ->
  exists int_part, 1 <= String.length int_part /\ all_chars is_digit int_part = true
    /\ s = int_part +:+ slice (String.length int_part) s
    /\ (v = int_part
        \/ exists frac rest, 1 <= String.length frac /\ all_chars is_digit frac = true
             /\ v = int_part +:+ "." +:+ frac
             /\ slice (String.length int_part) s = "." +:+ frac +:+ rest).
Proof.
  unfold match_NUMBER. intros H.
  pose proof (take_while_prefix is_digit s) as Hp.
  pose proof (take_while_all is_digit s) as Ha.
  destruct (take_while is_digit s) as [|d ds] eqn:Ei; [discriminate|].
  exists (String d ds). split; [simpl; lia|]. split; [assumption|].
  split; [assumption|].
  destruct (slice (String.length (String d ds)) s) as [|c rest] eqn:Er;
    [injection H as <-; now left|].
  destruct (decide (c = "."%char)) as [->|Hc].
  - pose proof (take_while_prefix is_digit rest) as Hpr.
    pose proof (take_while_all is_digit rest) as Har.
    destruct (take_while is_digit rest) as [|f fs] eqn:Ef.
    + injection H as <-. now left.
    + injection H as <-. right. exists (String f fs), (slice (String.length (String f fs)) rest).
      split; [simpl; lia|]. split; [assumption|]. split; [reflexivity|].
      rewrite app_str_cons. change ("" +:+ ?x) with x. now rewrite <- Hpr.
  - left. destruct c as [[] [] [] [] [] [] [] []]; try (now injection H as <-).
    contradiction Hc. reflexivity.
Qed.

Lemma match_NUMBER_prefix s v :
  match_NUMBER s = Some v -> s = v +:+ slice (String.length v) s.
Proof.
  intros H. destruct (match_NUMBER_form s v H) as (i & _ & _ & Hs & [->|Hv]);
    [assumption|].
  destruct Hv as (f & rest & _ & _ & -> & Hr).
  rewrite LexerFacts.length_app_str, slice_add, Hr.
  replace ("." +:+ f +:+ rest) with (("." +:+ f) +:+ rest) by apply app_str_assoc.
  rewrite slice_app_length. rewrite Hs at 1. rewrite Hr.
  now rewrite !app_str_assoc.
Qed.

Lemma string_body_prefix s b :
  string_body s = Some b -> s = b +:+ slice (String.length b) s.
Proof.
  remember (String.length s) as n eqn:Hn. revert s b Hn.
  induction n as [n IH] using lt_wf_ind. intros s b Hn H.
  destruct s as [|c s]; [discriminate|]. cbn [string_body] in H.
  destruct (bool_decide (c = dquote)); [now injection H as <-|].
  destruct (bool_decide (c = backslash)).
  - destruct s as [|d s]; [discriminate|].
    destruct (is_line_terminator d); [discriminate|].
    destruct (string_body s) as [r|] eqn:Er; [|discriminate]. injection H as <-.
    rewrite !app_str_cons. simpl. do 2 f_equal.
    apply (IH (String.length s)); [simpl in Hn; lia | reflexivity | assumption].
  - destruct (string_body s) as [r|] eqn:Er; [|discriminate]. injection H as <-.
    rewrite app_str_cons. simpl. f_equal.
    apply (IH (String.length s)); [simpl in Hn; lia | reflexivity | assumption].
Qed.

Lemma string_body_self s b : string_body s = Some b -> string_body b = Some b.
Proof.
  remember (String.length s) as n eqn:Hn. revert s b Hn.
  induction n as [n IH] using lt_wf_ind. intros s b Hn H.
  destruct s as [|c s]; [discriminate|]. cbn [string_body] in H.
  destruct (bool_decide (c = dquote)) eqn:Eq.
  { injection H as <-. cbn [string_body]. now rewrite Eq. }
  destruct (bool_decide (c = backslash)) eqn:Eb.
  - destruct s as [|d s]; [discriminate|].
    destruct (is_line_terminator d) eqn:Et; [discriminate|].
    destruct (string_body s) as [r|] eqn:Er; [|discriminate]. injection H as <-.
    cbn [string_body]. rewrite Eq, Eb, Et.
    rewrite (IH (String.length s) ltac:(simpl in Hn; lia) s r eq_refl Er).
    reflexivity.
  - destruct (string_body s) as [r|] eqn:Er; [|discriminate]. injection H as <-.
    cbn [string_body]. rewrite Eq, Eb.
    rewrite (IH (String.length s) ltac:(simpl in Hn; lia) s r eq_refl Er).
    reflexivity.
Qed.

Lemma match_STRING_prefix s v :
  match_STRING s = Some v -> s = v +:+ slice (String.length v) s.
Proof.
  unfold match_STRING. destruct s as [|c s]; [discriminate|].
  destruct (bool_decide (c = dquote)); [|discriminate].
  destruct (string_body s) as [b|] eqn:E; [|discriminate]. intros [= <-].
  rewrite app_str_cons. simpl. f_equal. now apply string_body_prefix.
Qed.

Lemma match_alternation_prefix alts s v :
  match_alternation alts s = Some v -> s = v +:+ slice (String.length v) s.
Proof.
  unfold match_alternation. intros H. apply find_some in H as [_ H].
  now apply startsWith_prefix.
Qed.

(** ** Lines and columns *)

Definition not_line_feed (c : ascii) : bool := negb (bool_decide (code c = 10)).

Lemma split_lines_nonempty s : split_lines s <> [].
Proof.
  destruct s as [|c s]; simpl; [discriminate|].
  destruct (bool_decide _); [discriminate|]. now destruct (split_lines s).
Qed.

(** A text without a line feed is one line. *)
Lemma split_lines_single s : all_chars not_line_feed s = true -> split_lines s = [s].
Proof.
  induction s as [|c s IH]; [reflexivity|]. simpl. unfold not_line_feed at 1.
  intros H. apply andb_true_iff in H as [Hc Hs]. apply negb_true_iff in Hc.
  rewrite Hc. now rewrite (IH Hs).
Qed.

Lemma split_lines_one s : length (split_lines s) = 1 -> split_lines s = [s].
Proof.
  induction s as [|c s IH]; [reflexivity|]. simpl.
  destruct (bool_decide (code c = 10)).
  - pose proof (split_lines_nonempty s). destruct (split_lines s); [contradiction|].
    discriminate.
  - pose proof (split_lines_nonempty s) as Hne.
    destruct (split_lines s) as [|l ls] eqn:E; [contradiction|]. simpl. intros H.
    specialize (IH ltac:(simpl in *; lia)). injection IH as -> ->. reflexivity.
Qed.

(** The loop over a run of whitespace computes, for any text, the line
    and the column that follow the text: the line advances by the number
    of line feeds, and the column is one more than the length of the last
    line, counted from the column before when there is no line feed. *)
Lemma track_whitespace_split s l c :
  track_whitespace s l c
  = (l + (length (split_lines s) - 1),
     if 1 <? length (split_lines s)
     then String.length (List.last (split_lines s) EmptyString) + 1
     else c + String.length s).
Proof.
  revert l c. induction s as [|x s IH]; intros l c.
  - simpl. f_equal; lia.
  - cbn [track_whitespace split_lines]. destruct (bool_decide (code x = 10)).
    + rewrite IH. pose proof (split_lines_nonempty s) as Hne.
      destruct (split_lines s) as [|l0 ls] eqn:E; [contradiction|].
      cbn [length]. f_equal; [lia|].
      destruct ls as [|l1 ls].
      * apply (f_equal (@length string)) in E as E'. simpl in E'.
        rewrite (split_lines_one s E') in E. injection E as <-. simpl. lia.
      * reflexivity.
    + rewrite IH. pose proof (split_lines_nonempty s) as Hne.
      destruct (split_lines s) as [|l0 ls] eqn:E; [contradiction|].
      cbn [length]. f_equal.
      destruct ls as [|l1 ls]; [simpl; lia | reflexivity].
Qed.

Lemma track_whitespace_single s l c :
  all_chars not_line_feed s = true ->
  track_whitespace s l c = (l, c + String.length s).
Proof.
  intros H. rewrite track_whitespace_split, (split_lines_single s H). simpl.
  f_equal. lia.
Qed.

Lemma track_whitespace_app a b l c :
  track_whitespace (a +:+ b) l c
  = track_whitespace b (track_whitespace a l c).1 (track_whitespace a l c).2.
Proof.
  revert l c. induction a as [|x a IH]; intros l c; [reflexivity|].
  rewrite app_str_cons. cbn [track_whitespace]. destruct (bool_decide _); apply IH.
Qed.

(** ** The classes of lexemes *)

(** The operators that the alternation can match. *)
Definition emitted_operators : list string :=
  ["+"; "-"; "*"; "/"; "%"; "="; "!="; "<"; ">"; "&&"; "||"; "!"].

(** [lexeme ty v]: the text [v] is, as a whole, a match of the pattern of
    the token kind [ty]. *)
Definition lexeme (ty v : string) : Prop :=
  (ty = "KEYWORD" /\ v ∈ KEYWORDS /\ match_IDENTIFIER v = Some v)
  \/ (ty = "IDENTIFIER" /\ (v ∉ KEYWORDS) /\ match_IDENTIFIER v = Some v)
  \/ (ty = "NUMBER" /\ match_NUMBER v = Some v)
  \/ (ty = "STRING" /\ match_STRING v = Some v)
  \/ (ty = "OPERATOR" /\ v ∈ emitted_operators)
  \/ (ty = "PUNCTUATION" /\ v ∈ PUNCTUATION).

Lemma match_IDENTIFIER_self s v :
  match_IDENTIFIER s = Some v -> match_IDENTIFIER v = Some v.
Proof.
  unfold match_IDENTIFIER. destruct s as [|c s]; [discriminate|].
  destruct (is_ident_start c) eqn:E; [|discriminate]. intros [= <-].
  now rewrite E, take_while_idem.
Qed.

Lemma is_digit_point : is_digit "."%char = false.
Proof. reflexivity. Qed.

Lemma match_NUMBER_digits i :
  1 <= String.length i -> all_chars is_digit i = true ->
  forall b, match b with String c _ => is_digit c = false | EmptyString => True end ->
  take_while is_digit (i +:+ b) = i /\ slice (String.length i) (i +:+ b) = b.
Proof.
  intros Hl Ha b Hb. split; [now apply take_while_app | apply slice_app_length].
Qed.

Lemma match_NUMBER_self s v : match_NUMBER s = Some v -> match_NUMBER v = Some v.
Proof.
  intros H. destruct (match_NUMBER_form s v H) as (i & Hl & Hi & _ & [->|Hv]).
  - unfold match_NUMBER.
    destruct (match_NUMBER_digits i Hl Hi "" I) as [E1 E2].
    rewrite app_str_nil_r in E1, E2. rewrite E1.
    destruct i as [|d ds]; [simpl in Hl; lia|]. now rewrite E2.
  - destruct Hv as (f & rest & Hlf & Hf & -> & _). unfold match_NUMBER.
    destruct (match_NUMBER_digits i Hl Hi ("." +:+ f) is_digit_point) as [E1 E2].
    rewrite E1. destruct i as [|d ds]; [simpl in Hl; lia|]. rewrite E2.
    change ("." +:+ f) with (String "." f).
    destruct (match_NUMBER_digits f Hlf Hf "" I) as [F1 _].
    rewrite app_str_nil_r in F1. rewrite F1.
    destruct f as [|x f]; [simpl in Hlf; lia | reflexivity].
Qed.

Lemma match_STRING_self s v : match_STRING s = Some v -> match_STRING v = Some v.
Proof.
  unfold match_STRING. destruct s as [|c s]; [discriminate|].
  destruct (bool_decide (c = dquote)) eqn:E; [|discriminate].
  destruct (string_body s) as [b|] eqn:Eb; [|discriminate]. intros [= <-].
  now rewrite E, (string_body_self s b Eb).
Qed.

Lemma match_OPERATOR_emitted s v : match_OPERATOR s = Some v -> v ∈ emitted_operators.
Proof.
  intros H. pose proof (LexerFacts.match_OPERATOR_never_long s v H) as (N1 & N2 & N3).
  unfold match_OPERATOR, match_alternation in H. apply find_some in H as [H _].
  apply list_elem_of_In in H. unfold OPERATORS in H. unfold emitted_operators.
  rewrite !elem_of_cons, elem_of_nil in *. tauto.
Qed.

Lemma match_PUNCTUATION_listed s v : match_PUNCTUATION s = Some v -> v ∈ PUNCTUATION.
Proof.
  unfold match_PUNCTUATION, match_alternation. intros H.
  apply find_some in H as [H _]. now apply list_elem_of_In.
Qed.

(** ** One iteration of the scanning loop *)

(** What an iteration does, by the branch taken: it skips whitespace or
    a block comment, skips the line comment that ends the input, emits a
    token, or reports a character. *)
Inductive Step (input : string) (st st' : LexState) : Prop :=
  | step_skip v rest :
      slice (pos st) input = v +:+ rest -> 1 <= String.length v ->
      tokens st' = tokens st -> errors st' = errors st ->
      pos st' = pos st + String.length v ->
      (line st', column st') = track_whitespace v (line st) (column st) ->
      Step input st st'
  | step_comment v :
      slice (pos st) input = v -> 1 <= String.length v ->
      tokens st' = tokens st -> errors st' = errors st ->
      pos st' = pos st + String.length v ->
      Step input st st'
  | step_token ty v rest :
      slice (pos st) input = v +:+ rest -> 1 <= String.length v ->
      lexeme ty v ->
      tokens st' = tokens st ++ [mkToken ty v (line st) (column st)] ->
      errors st' = errors st ->
      pos st' = pos st + String.length v ->
      line st' = line st -> column st' = column st + String.length v ->
      Step input st st'
  | step_error c rest :
      slice (pos st) input = String c rest -> is_space c = false ->
      tokens st' = tokens st ->
      errors st' = errors st ++ [mkError ("Unexpected character: " +:+ String c "")
                                         (line st) (column st)] ->
      pos st' = S (pos st) -> line st' = line st -> column st' = S (column st) ->
      Step input st st'.

Lemma push_token_Step input st ty v :
  slice (pos st) input = v +:+ slice (String.length v) (slice (pos st) input) ->
  1 <= String.length v -> lexeme ty v ->
  Step input st (push_token ty v st).
Proof. intros H Hl Hx. eapply step_token; eauto. Qed.

Lemma scan_step_Step input st :
  pos st < String.length input -> Step input st (scan_step input st).
Proof.
  intros Hpos. unfold scan_step. set (cur := slice (pos st) input).
  destruct (match_WHITESPACE cur) as [ws|] eqn:E1.
  { pose proof (match_WHITESPACE_prefix _ _ E1).
    pose proof (LexerFacts.match_WHITESPACE_nonempty _ _ E1).
    destruct (track_whitespace ws (line st) (column st)) as [l c] eqn:Et.
    eapply step_skip; eauto. }
  destruct (match_COMMENT_SINGLE cur) as [cm|] eqn:E2.
  { pose proof (LexerFacts.match_COMMENT_SINGLE_whole _ _ E2) as Hw.
    pose proof (LexerFacts.match_COMMENT_SINGLE_nonempty _ _ E2).
    apply (step_comment _ _ _ cm); auto. }
  destruct (match_COMMENT_MULTI cur) as [cm|] eqn:E3.
  { pose proof (match_COMMENT_MULTI_prefix _ _ E3).
    pose proof (LexerFacts.match_COMMENT_MULTI_nonempty _ _ E3).
    eapply step_skip; eauto. cbn [line column]. now rewrite track_whitespace_split. }
  destruct (match_IDENTIFIER cur) as [v|] eqn:E4.
  { apply push_token_Step.
    - now apply match_IDENTIFIER_prefix.
    - now apply LexerFacts.match_IDENTIFIER_nonempty in E4.
    - apply match_IDENTIFIER_self in E4. unfold includes. case_bool_decide.
      + left. auto.
      + right; left. auto. }
  destruct (match_NUMBER cur) as [v|] eqn:E5.
  { apply push_token_Step.
    - now apply match_NUMBER_prefix.
    - now apply LexerFacts.match_NUMBER_nonempty in E5.
    - apply match_NUMBER_self in E5. right; right; left. auto. }
  destruct (match_STRING cur) as [v|] eqn:E6.
  { apply push_token_Step.
    - now apply match_STRING_prefix.
    - now apply LexerFacts.match_STRING_nonempty in E6.
    - apply match_STRING_self in E6. do 3 right; left. auto. }
  destruct (match_OPERATOR cur) as [v|] eqn:E7.
  { apply push_token_Step.
    - now apply (match_alternation_prefix OPERATORS).
    - now apply LexerFacts.match_OPERATOR_nonempty in E7.
    - apply match_OPERATOR_emitted in E7. do 4 right; left. auto. }
  destruct (match_PUNCTUATION cur) as [v|] eqn:E8.
  { apply push_token_Step.
    - now apply (match_alternation_prefix PUNCTUATION).
    - now apply LexerFacts.match_PUNCTUATION_nonempty in E8.
    - apply match_PUNCTUATION_listed in E8. do 5 right. auto. }
  destruct cur as [|c rest] eqn:Ec.
  { apply (f_equal String.length) in Ec. unfold cur in Ec.
    rewrite length_slice in Ec. simpl in Ec. lia. }
  eapply (step_error _ _ _ c rest); eauto.
  unfold match_WHITESPACE in E1. simpl in E1.
  destruct (is_space c); [discriminate | reflexivity].
Qed.

(** A property kept by every iteration holds when the loop ends. *)
Lemma scan_loop_invariant (Inv : LexState -> Prop) input :
  (forall st, Inv st -> pos st < String.length input -> Inv (scan_step input st)) ->
  forall fuel st r, Inv st -> scan_loop fuel input st = Some r ->
    Inv r /\ String.length input <= pos r.
Proof.
  intros Hstep. induction fuel as [|fuel IH]; intros st r Hst H; simpl in H.
  - destruct (Nat.ltb_spec (pos st) (String.length input)); [discriminate|].
    injection H as <-. auto.
  - destruct (Nat.ltb_spec (pos st) (String.length input)).
    + eapply IH; [|exact H]. auto.
    + injection H as <-. auto.
Qed.

Lemma tokenize_invariant (Inv : LexState -> Prop) input :
  Inv init_state ->
  (forall st, Inv st -> pos st < String.length input -> Inv (scan_step input st)) ->
  exists r, tokenize input = (tokens r, errors r) /\ Inv r
            /\ String.length input <= pos r.
Proof.
  intros H0 Hstep.
  destruct (LexerFacts.scan_loop_terminates (String.length input) input init_state)
    as [r Hr]; [simpl; lia|].
  exists r. unfold tokenize, tokenize_fuel. rewrite Hr. split; [reflexivity|].
  eapply scan_loop_invariant; eauto.
Qed.

(** ** The tokens and their classes *)

Lemma tokens_lexemes input :
  Forall (fun t => lexeme (tok_type t) (tok_value t)) (tokenize input).1.
Proof.
  destruct (tokenize_invariant
              (fun st => Forall (fun t => lexeme (tok_type t) (tok_value t)) (tokens st))
              input) as (r & -> & Hr & _); [constructor | | exact Hr].
  intros st Hst Hpos.
  destruct (scan_step_Step input st Hpos) as [v rest _ _ Ht _ _ _ | v _ _ Ht _ _
    | ty v rest _ _ Hlex Ht _ _ _ _ | c rest _ _ Ht _ _ _ _]; rewrite Ht; auto.
  apply Forall_app. split; [assumption|]. constructor; [exact Hlex | constructor].
Qed.

(** X1: every token is, as a whole, a match of the pattern of its kind. A
    [KEYWORD] is an identifier listed in [KEYWORDS] and an [IDENTIFIER]
    one that is not, a [NUMBER] and a [STRING] match their patterns from
    the first to the last character, an [OPERATOR] is one of the twelve
    operators that the alternation can match and a [PUNCTUATION] one of
    the nine marks; there is no other kind of token. *)
Theorem tokenize_token_classes (input : string) :
  Forall (fun t =>
    let ty := tok_type t in
    let v := tok_value t in
    (ty = "KEYWORD" /\ v ∈ KEYWORDS /\ match_IDENTIFIER v = Some v)
    \/ (ty = "IDENTIFIER" /\ (v ∉ KEYWORDS) /\ match_IDENTIFIER v = Some v)
    \/ (ty = "NUMBER" /\ match_NUMBER v = Some v)
    \/ (ty = "STRING" /\ match_STRING v = Some v)
    \/ (ty = "OPERATOR" /\ v ∈ emitted_operators)
    \/ (ty = "PUNCTUATION" /\ v ∈ PUNCTUATION))
    (tokenize input).1.
Proof. apply tokens_lexemes. Qed.

(** ** A lexeme on its own *)

Lemma ident_start_facts c :
  is_ident_start c = true ->
  is_space c = false /\ bool_decide ("/"%char = c) = false.
Proof. destruct c as [[] [] [] [] [] [] [] []]; vm_compute; intuition congruence. Qed.

Lemma digit_facts c :
  is_digit c = true ->
  is_space c = false /\ bool_decide ("/"%char = c) = false
  /\ is_ident_start c = false.
Proof. destruct c as [[] [] [] [] [] [] [] []]; vm_compute; intuition congruence. Qed.

Lemma scan_alone_identifier v :
  match_IDENTIFIER v = Some v ->
  scan_step v init_state
  = push_token (if includes KEYWORDS v then "KEYWORD" else "IDENTIFIER") v init_state.
Proof.
  intros H. unfold scan_step. cbn [pos init_state slice].
  destruct v as [|c r]; [discriminate|].
  assert (Hc : is_ident_start c = true).
  { unfold match_IDENTIFIER in H. now destruct (is_ident_start c). }
  destruct (ident_start_facts c Hc) as [Hs Hsl].
  assert (E1 : match_WHITESPACE (String c r) = None)
    by (unfold match_WHITESPACE; simpl; now rewrite Hs).
  assert (E2 : match_COMMENT_SINGLE (String c r) = None)
    by (unfold match_COMMENT_SINGLE; simpl; now rewrite Hsl).
  assert (E3 : match_COMMENT_MULTI (String c r) = None)
    by (unfold match_COMMENT_MULTI; simpl; now rewrite Hsl).
  now rewrite E1, E2, E3, H.
Qed.

Lemma scan_alone_number v :
  match_NUMBER v = Some v -> scan_step v init_state = push_token "NUMBER" v init_state.
Proof.
  intros H. unfold scan_step. cbn [pos init_state slice].
  destruct v as [|c r]; [discriminate|].
  assert (Hc : is_digit c = true).
  { unfold match_NUMBER in H. simpl in H. destruct (is_digit c); [reflexivity|discriminate]. }
  destruct (digit_facts c Hc) as (Hs & Hsl & Hi).
  assert (E1 : match_WHITESPACE (String c r) = None)
    by (unfold match_WHITESPACE; simpl; now rewrite Hs).
  assert (E2 : match_COMMENT_SINGLE (String c r) = None)
    by (unfold match_COMMENT_SINGLE; simpl; now rewrite Hsl).
  assert (E3 : match_COMMENT_MULTI (String c r) = None)
    by (unfold match_COMMENT_MULTI; simpl; now rewrite Hsl).
  assert (E4 : match_IDENTIFIER (String c r) = None)
    by (unfold match_IDENTIFIER; now rewrite Hi).
  now rewrite E1, E2, E3, E4, H.
Qed.

Lemma scan_alone_string v :
  match_STRING v = Some v -> scan_step v init_state = push_token "STRING" v init_state.
Proof.
  intros H. unfold scan_step. cbn [pos init_state slice].
  destruct v as [|c r]; [discriminate|].
  assert (Hc : c = dquote).
  { unfold match_STRING in H. case_bool_decide; [assumption | discriminate]. }
  subst c.
  change (match_WHITESPACE (String dquote r)) with (@None string).
  change (match_COMMENT_SINGLE (String dquote r)) with (@None string).
  change (match_COMMENT_MULTI (String dquote r)) with (@None string).
  change (match_IDENTIFIER (String dquote r)) with (@None string).
  change (match_NUMBER (String dquote r)) with (@None string).
  now rewrite H.
Qed.

Lemma scan_alone ty v :
  lexeme ty v -> scan_step v init_state = push_token ty v init_state.
Proof.
  intros [(-> & Hk & H)|[(-> & Hk & H)|[(-> & H)|[(-> & H)|[(-> & H)|(-> & H)]]]]].
  - rewrite (scan_alone_identifier v H). unfold includes.
    now rewrite bool_decide_eq_true_2.
  - rewrite (scan_alone_identifier v H). unfold includes.
    now rewrite bool_decide_eq_false_2.
  - now apply scan_alone_number.
  - now apply scan_alone_string.
  - unfold emitted_operators in H. rewrite !elem_of_cons, elem_of_nil in H.
    destruct_or!; try contradiction; subst v; vm_compute; reflexivity.
  - unfold PUNCTUATION in H. rewrite !elem_of_cons, elem_of_nil in H.
    destruct_or!; try contradiction; subst v; vm_compute; reflexivity.
Qed.

Lemma tokenize_alone ty v :
  1 <= String.length v ->
  scan_step v init_state = push_token ty v init_state ->
  tokenize v = ([mkToken ty v 1 1], []).
Proof.
  intros Hl Hs. unfold tokenize, tokenize_fuel.
  destruct (String.length v) as [|n] eqn:En; [lia|].
  cbn [scan_loop]. rewrite En. cbn [pos init_state].
  change (0 <? S n) with true. cbv iota. rewrite Hs.
  assert (E : (pos (push_token ty v init_state) <? S n) = false).
  { apply Nat.ltb_ge. simpl. lia. }
  destruct n; cbn [scan_loop]; rewrite En, E; reflexivity.
Qed.

Lemma lexeme_nonempty ty v : lexeme ty v -> 1 <= String.length v.
Proof.
  intros [(_ & _ & H)|[(_ & _ & H)|[(_ & H)|[(_ & H)|[(_ & H)|(_ & H)]]]]].
  - now apply LexerFacts.match_IDENTIFIER_nonempty in H.
  - now apply LexerFacts.match_IDENTIFIER_nonempty in H.
  - now apply LexerFacts.match_NUMBER_nonempty in H.
  - now apply LexerFacts.match_STRING_nonempty in H.
  - unfold emitted_operators in H. rewrite !elem_of_cons, elem_of_nil in H.
    destruct_or!; try contradiction; subst v; simpl; lia.
  - unfold PUNCTUATION in H. rewrite !elem_of_cons, elem_of_nil in H.
    destruct_or!; try contradiction; subst v; simpl; lia.
Qed.

(** X2: lexing is a round trip on lexemes. The text of any token that
    [tokenize] emits, given to [tokenize] on its own, comes back as one
    token of the same kind and text, at line 1 and column 1, without a
    diagnostic. *)
Theorem tokenize_lexeme_roundtrip (input : string) (t : Token) :
  t ∈ (tokenize input).1 ->
  tokenize (tok_value t) = ([mkToken (tok_type t) (tok_value t) 1 1], []).
Proof.
  intros Ht. pose proof (tokens_lexemes input) as H. rewrite Forall_forall in H.
  specialize (H t Ht). apply tokenize_alone; [eapply lexeme_nonempty | apply scan_alone];
    eassumption.
Qed.

Lemma tokenize_lexeme_roundtrip_witness :
  mkToken "NUMBER" "3.14" 1 5 ∈ (tokenize "x = 3.14;").1
  /\ tokenize "3.14" = ([mkToken "NUMBER" "3.14" 1 1], []).
Proof.
  assert (H : mkToken "NUMBER" "3.14" 1 5 ∈ (tokenize "x = 3.14;").1)
    by (vm_compute; repeat constructor).
  split; [exact H|].
  exact (tokenize_lexeme_roundtrip "x = 3.14;" (mkToken "NUMBER" "3.14" 1 5) H).
Defined.

(** ** Counting *)

Lemma Step_length input st st' :
  Step input st st' -> pos st <= String.length input ->
  pos st < pos st' <= String.length input
  /\ length (tokens st') + length (errors st')
     <= length (tokens st) + length (errors st) + 1.
Proof.
  assert (B : forall v rest, slice (pos st) input = v +:+ rest ->
            pos st <= String.length input ->
            pos st + String.length v <= String.length input).
  { intros v rest H Hle. apply (f_equal String.length) in H.
    rewrite length_slice, LexerFacts.length_app_str in H. lia. }
  intros [v rest Hc Hl Ht He Hp _ | v Hc Hl Ht He Hp
    | ty v rest Hc Hl _ Ht He Hp _ _ | c rest Hc _ Ht He Hp _ _] Hle;
    rewrite Ht, He, Hp, ?length_app; simpl.
  - specialize (B _ _ Hc Hle). lia.
  - rewrite <- (app_str_nil_r v) in Hc. specialize (B _ _ Hc Hle). lia.
  - specialize (B _ _ Hc Hle). lia.
  - specialize (B (String c "") rest Hc Hle). simpl in B. lia.
Qed.

(** X3: [tokenize] emits at most one token or diagnostic for each
    character of the input: the tokens and the lexical diagnostics
    together are never more than the input has characters. *)
Theorem tokenize_output_bound (input : string) :
  length (tokenize input).1 + length (tokenize input).2 <= String.length input.
Proof.
  destruct (tokenize_invariant
              (fun st => pos st <= String.length input
                         /\ length (tokens st) + length (errors st) <= pos st)
              input) as (r & -> & [Hr1 Hr2] & _).
  - simpl. lia.
  - intros st [H1 H2] Hpos.
    destruct (Step_length input st _ (scan_step_Step input st Hpos) H1). lia.
  - simpl. lia.
Qed.

(** ** Where the lexemes are *)

(** [Occurs vs s]: the texts [vs] occur in [s] one after the other, in
    this order and without overlap. *)
Inductive Occurs : list string -> string -> Prop :=
  | occurs_done s : Occurs [] s
  | occurs_skip vs c s : Occurs vs s -> Occurs vs (String c s)
  | occurs_lexeme v vs s : Occurs vs s -> Occurs (v :: vs) (v +:+ s).

Lemma Occurs_skip_str a vs s : Occurs vs s -> Occurs vs (a +:+ s).
Proof.
  intros H. induction a as [|c a IH]; [exact H|].
  rewrite app_str_cons. now constructor.
Qed.

Lemma Occurs_app vs ws s1 s2 :
  Occurs vs s1 -> Occurs ws s2 -> Occurs (vs ++ ws) (s1 +:+ s2).
Proof.
  intros H1 H2. induction H1 as [s|vs c s H IH|v vs s H IH]; simpl.
  - now apply Occurs_skip_str.
  - rewrite app_str_cons. now constructor.
  - rewrite app_str_assoc. now constructor.
Qed.

Lemma Occurs_extend vs s a : Occurs vs s -> Occurs vs (s +:+ a).
Proof.
  intros H. rewrite <- (app_nil_r vs). apply Occurs_app; [assumption | constructor].
Qed.

Lemma Occurs_snoc vs s v : Occurs vs s -> Occurs (vs ++ [v]) (s +:+ v).
Proof.
  intros H. apply Occurs_app; [assumption|].
  rewrite <- (app_str_nil_r v) at 2. repeat constructor.
Qed.

(** X4: the lexemes are taken from the input: the texts of the tokens
    occur in the input one after the other, in the order of the tokens
    and without overlap. *)
Theorem tokenize_lexemes_in_order (input : string) :
  Occurs (map tok_value (tokenize input).1) input.
Proof.
  destruct (tokenize_invariant
              (fun st => pos st <= String.length input
                         /\ Occurs (map tok_value (tokens st))
                                   (take_str (pos st) input))
              input) as (r & -> & [Hr1 Hr2] & Hr3).
  - split; [simpl; lia | constructor].
  - intros st [H1 H2] Hpos. pose proof (scan_step_Step input st Hpos) as HS.
    split; [destruct (Step_length input st _ HS H1); lia|].
    destruct HS as [v rest Hc _ Ht _ Hp _ | v Hc _ Ht _ Hp
      | ty v rest Hc _ _ Ht _ Hp _ _ | c rest Hc _ Ht _ Hp _ _]; rewrite Ht, Hp.
    + rewrite (take_extend _ _ _ _ Hc). now apply Occurs_extend.
    + rewrite <- (app_str_nil_r v) in Hc. rewrite (take_extend _ _ _ _ Hc).
      now apply Occurs_extend.
    + rewrite (take_extend _ _ _ _ Hc), map_app. now apply Occurs_snoc.
    + replace (S (pos st)) with (pos st + String.length (String c "")) by (simpl; lia).
      rewrite (take_extend _ _ (String c "") rest Hc). now apply Occurs_extend.
  - simpl. now rewrite take_all in Hr2 by lia.
Qed.

(** ** Lines and columns of the tokens *)

Lemma ident_char_facts c : is_ident_char c = true -> not_line_feed c = true.
Proof. destruct c as [[] [] [] [] [] [] [] []]; vm_compute; congruence. Qed.

Lemma number_char_facts c :
  is_digit c = true -> not_line_feed c = true.
Proof. destruct c as [[] [] [] [] [] [] [] []]; vm_compute; congruence. Qed.

Lemma lexeme_single_line ty v :
  lexeme ty v -> ty <> "STRING" -> split_lines v = [v].
Proof.
  intros [(_ & _ & H)|[(_ & _ & H)|[(_ & H)|[(-> & H)|[(_ & H)|(_ & H)]]]]] Hty.
  - apply split_lines_single. unfold match_IDENTIFIER in H.
    destruct v as [|c r]; [discriminate|]. destruct (is_ident_start c) eqn:Ec;
      [|discriminate].
    injection H as H. simpl. rewrite ident_char_facts
      by (unfold is_ident_char; now rewrite Ec).
    simpl. apply (all_chars_impl is_ident_char); [apply ident_char_facts|].
    rewrite <- H. apply take_while_all.
  - apply split_lines_single. unfold match_IDENTIFIER in H.
    destruct v as [|c r]; [discriminate|]. destruct (is_ident_start c) eqn:Ec;
      [|discriminate].
    injection H as H. simpl. rewrite ident_char_facts
      by (unfold is_ident_char; now rewrite Ec).
    simpl. apply (all_chars_impl is_ident_char); [apply ident_char_facts|].
    rewrite <- H. apply take_while_all.
  - apply split_lines_single.
    destruct (match_NUMBER_form v v H) as (i & _ & Hi & _ & [->|Hv]).
    + now apply (all_chars_impl is_digit); [apply number_char_facts|].
    + destruct Hv as (f & rest & _ & Hf & -> & _). rewrite !all_chars_app.
      rewrite (all_chars_impl is_digit _ i number_char_facts Hi).
      rewrite (all_chars_impl is_digit _ f number_char_facts Hf). reflexivity.
  - contradiction.
  - unfold emitted_operators in H. rewrite !elem_of_cons, elem_of_nil in H.
    destruct_or!; try contradiction; subst v; reflexivity.
  - unfold PUNCTUATION in H. rewrite !elem_of_cons, elem_of_nil in H.
    destruct_or!; try contradiction; subst v; reflexivity.
Qed.

(** The line and the column of the position that follows the text
    [before]: the number of its lines, and one more than the length of
    the last of them. *)
Definition position_after (before : string) : nat * nat :=
  (length (split_lines before),
   String.length (List.last (split_lines before) EmptyString) + 1).

Lemma track_whitespace_position before :
  track_whitespace before 1 1 = position_after before.
Proof.
  rewrite track_whitespace_split. unfold position_after.
  pose proof (split_lines_nonempty before) as Hne.
  destruct (split_lines before) as [|l0 [|l1 ls]] eqn:E; [contradiction| |].
  - apply (f_equal (@length string)) in E as E'. simpl in E'.
    rewrite (split_lines_one before E') in E. injection E as <-. simpl.
    f_equal. lia.
  - cbn [length]. f_equal.
Qed.

Lemma track_single_line v l c :
  split_lines v = [v] -> track_whitespace v l c = (l, c + String.length v).
Proof. intros H. rewrite track_whitespace_split, H. simpl. f_equal. lia. Qed.

(** A token whose line and column are those of a place of the input
    where its text is. *)
Definition located (input : string) (t : Token) : Prop :=
  exists p,
    take_str (String.length (tok_value t)) (slice p input) = tok_value t
    /\ (tok_line t, tok_column t) = position_after (take_str p input).

Definition string_on_one_line (t : Token) : Prop :=
  tok_type t = "STRING" -> split_lines (tok_value t) = [tok_value t].

Lemma tokens_located input :
  Forall string_on_one_line (tokenize input).1 ->
  Forall (located input) (tokenize input).1.
Proof.
  destruct (tokenize_invariant
              (fun st => pos st <= String.length input
                 /\ (Forall string_on_one_line (tokens st) ->
                     (pos st < String.length input ->
                      (line st, column st)
                      = track_whitespace (take_str (pos st) input) 1 1)
                     /\ Forall (located input) (tokens st)))
              input) as (r & -> & [Hr1 Hr2] & Hr3).
  - split; [simpl; lia|]. intros _. split; [reflexivity | constructor].
  - intros st [H1 H2] Hpos. pose proof (scan_step_Step input st Hpos) as HS.
    split; [destruct (Step_length input st _ HS H1); lia|].
    destruct HS as [v rest Hc _ Ht _ Hp Hlc | v Hc _ Ht _ Hp
      | ty v rest Hc _ Hlex Ht _ Hp Hl Hcol | c rest Hc Hsp Ht _ Hp Hl Hcol];
      rewrite Ht, Hp.
    + intros Hs. destruct (H2 Hs) as [Hpos' Hloc]. split; [|assumption].
      intros _. rewrite Hlc, (take_extend _ _ _ _ Hc), track_whitespace_app.
      now rewrite <- (Hpos' Hpos).
    + intros Hs. destruct (H2 Hs) as [_ Hloc]. split; [|assumption].
      apply (f_equal String.length) in Hc. rewrite length_slice in Hc. lia.
    + intros Hs. apply Forall_app in Hs as [Hs Hv].
      destruct (H2 Hs) as [Hpos' Hloc]. specialize (Hpos' Hpos).
      assert (Hone : split_lines v = [v]).
      { destruct (decide (ty = "STRING")) as [->|Hne].
        - inversion Hv as [|? ? Hv' _]; subst. now apply Hv'.
        - now apply (lexeme_single_line ty). }
      split.
      * intros _. rewrite (take_extend _ _ _ _ Hc), track_whitespace_app.
        rewrite <- Hpos'. cbn [fst snd]. rewrite (track_single_line v _ _ Hone).
        now rewrite Hl, Hcol.
      * apply Forall_app. split; [assumption|]. constructor; [|constructor].
        exists (pos st). cbn [tok_value tok_line tok_column]. split.
        -- rewrite Hc. apply take_app_length.
        -- now rewrite <- track_whitespace_position.
    + intros Hs. destruct (H2 Hs) as [Hpos' Hloc]. split; [|assumption].
      intros _. specialize (Hpos' Hpos).
      replace (S (pos st)) with (pos st + String.length (String c "")) by (simpl; lia).
      rewrite (take_extend _ _ (String c "") rest Hc), track_whitespace_app.
      rewrite <- Hpos'. cbn [fst snd track_whitespace].
      assert (Hn : bool_decide (code c = 10) = false).
      { apply bool_decide_eq_false. intros E. unfold is_space in Hsp.
        apply bool_decide_eq_false in Hsp. apply Hsp. rewrite E.
        rewrite !elem_of_cons. auto. }
      now rewrite Hn, Hl, Hcol.
  - simpl. intros Hs. now apply Hr2.
Qed.

(** X5: the line and the column of every token are those of a place of
    the input where the text of the token is, provided that no string
    literal runs over a line feed. The line is the number of lines of the
    input up to that place, and the column is one more than the number of
    characters of the last of them. *)
Theorem tokenize_positions (input : string) :
  (forall t, t ∈ (tokenize input).1 -> tok_type t = "STRING" ->
     split_lines (tok_value t) = [tok_value t]) ->
  forall t, t ∈ (tokenize input).1 ->
    exists p,
      take_str (String.length (tok_value t)) (slice p input) = tok_value t
      /\ tok_line t = length (split_lines (take_str p input))
      /\ tok_column t
         = String.length (List.last (split_lines (take_str p input)) EmptyString) + 1.
Proof.
  intros Hs t Ht.
  assert (H : Forall (located input) (tokenize input).1).
  { apply tokens_located. apply Forall_forall. exact Hs. }
  rewrite Forall_forall in H. destruct (H t Ht) as (p & Hp & Hlc).
  exists p. split; [assumption|]. unfold position_after in Hlc.
  injection Hlc as -> ->. auto.
Qed.

Definition two_lines : string := "int x;" +:+ LexerFacts.line_feed +:+ "  x = 1;".

Lemma tokenize_positions_witness :
  (forall t, t ∈ (tokenize two_lines).1 -> tok_type t = "STRING" ->
     split_lines (tok_value t) = [tok_value t])
  /\ mkToken "NUMBER" "1" 2 7 ∈ (tokenize two_lines).1
  /\ exists p,
       take_str 1 (slice p two_lines) = "1"
       /\ 2 = length (split_lines (take_str p two_lines))
       /\ 7 = String.length (List.last (split_lines (take_str p two_lines)) EmptyString) + 1.
Proof.
  assert (Hs : forall t, t ∈ (tokenize two_lines).1 -> tok_type t = "STRING" ->
                 split_lines (tok_value t) = [tok_value t]).
  { intros t Ht. set (l := (tokenize two_lines).1) in Ht. vm_compute in l.
    subst l. rewrite !elem_of_cons, elem_of_nil in Ht.
    destruct_or!; try contradiction; subst t; discriminate. }
  assert (Ht : mkToken "NUMBER" "1" 2 7 ∈ (tokenize two_lines).1)
    by (vm_compute; repeat constructor).
  split; [exact Hs|]. split; [exact Ht|].
  exact (tokenize_positions two_lines Hs (mkToken "NUMBER" "1" 2 7) Ht).
Defined.

End LexerProperties.

(** * Further properties of the semantic analyzer *)

Module AnalyzerProperties.
Import Analyzer AnalyzerFacts.

(** ** Type computation *)

(** X6: computing the type of an expression never changes the symbol
    table: whatever the tree, [getTypeOfNode] at most adds diagnostics. *)
Theorem getTypeOfNode_keeps_table (node : ASTNode) (st st' : AState) (ty : string) :
  getTypeOfNode node st = Some (ty, st') ->
  symbolTable st' = symbolTable st.
Proof. intros H. now destruct (Reads_getTypeOfNode node _ _ _ H). Qed.

(** The negation of a string literal: one diagnostic, the table as it
    was. *)
Definition negated_string : ASTNode :=
  mkNode "Negation" None (Some 1) (Some 1)
    (Some [Some (mkNode "StringLiteral" (Some "x") (Some 1) (Some 2) None)]).

Lemma getTypeOfNode_keeps_table_witness :
  let st' := mkA (symbolTable initial_state)
                 [mkError "Cannot negate type string" 1 1] 0 in
  getTypeOfNode negated_string initial_state = Some ("string", st')
  /\ symbolTable st' = symbolTable initial_state.
Proof.
  intros st'.
  assert (H : getTypeOfNode negated_string initial_state = Some ("string", st'))
    by (vm_compute; reflexivity).
  split; [exact H|].
  exact (getTypeOfNode_keeps_table negated_string initial_state st' "string" H).
Defined.

(** ** The scope table *)

Definition scope_name (s : string) : Prop :=
  s = "global" \/ (exists f, s = "function_" +:+ f) \/ (exists b, s = "block_" +:+ b).

(** A table whose parent links stay inside the table: the global scope
    is there and is a root, every other scope is a function or a block
    scope whose parent is a scope of the table, and the current scope is
    one of the scopes. *)
Record table_ok (t : SymbolTable) : Prop := {
  ok_global : exists g, scopes t !! "global" = Some g /\ parent g = None;
  ok_names : forall s, is_Some (scopes t !! s) -> scope_name s;
  ok_parents : forall s sc, scopes t !! s = Some sc -> s <> "global" ->
    exists p, parent sc = Some p /\ p <> "" /\ is_Some (scopes t !! p);
  ok_current : currentScope t <> "" /\ is_Some (scopes t !! currentScope t)
}.

(** Tables with the same current scope, the same scope names and the
    same parent links. *)
Definition same_links (t t' : SymbolTable) : Prop :=
  currentScope t' = currentScope t
  /\ forall s, parent <$> scopes t' !! s = parent <$> scopes t !! s.

Lemma same_links_is_Some t t' s :
  same_links t t' -> is_Some (scopes t !! s) -> is_Some (scopes t' !! s).
Proof.
  intros [_ H] [sc Hsc]. specialize (H s). rewrite Hsc in H.
  destruct (scopes t' !! s); [eauto | discriminate].
Qed.

Lemma table_ok_same_links t t' : table_ok t -> same_links t t' -> table_ok t'.
Proof.
  intros [Hg Hn Hp Hc] Hl. pose proof Hl as [Hcur Hpar]. split.
  - destruct Hg as (g & Hg & Hpg). specialize (Hpar "global"). rewrite Hg in Hpar.
    destruct (scopes t' !! "global") as [g'|]; [|discriminate].
    exists g'. split; [reflexivity|]. simpl in Hpar. congruence.
  - intros s [sc Hs]. apply Hn. specialize (Hpar s). rewrite Hs in Hpar.
    destruct (scopes t !! s); [eauto | discriminate].
  - intros s sc Hs Hne. specialize (Hpar s). rewrite Hs in Hpar.
    destruct (scopes t !! s) as [sc0|] eqn:Hs0; [|discriminate].
    destruct (Hp s sc0 Hs0 Hne) as (p & Hp1 & Hp2 & Hp3).
    exists p. split; [simpl in Hpar; congruence|]. split; [assumption|].
    now apply (same_links_is_Some t).
  - rewrite Hcur. destruct Hc as [Hc1 Hc2]. split; [assumption|].
    now apply (same_links_is_Some t).
Qed.

Lemma scope_name_not_global_function f : "function_" +:+ f <> "global".
Proof. discriminate. Qed.

Lemma scope_name_not_global_block b : "block_" +:+ b <> "global".
Proof. discriminate. Qed.

(** Entering a scope under the name of a function or of a block. *)
Lemma table_ok_enter t s :
  table_ok t -> scope_name s -> s <> "global" -> s <> "" ->
  table_ok (mkTable (<[s := mkScope (Some (currentScope t)) ∅]> (scopes t)) s).
Proof.
  intros [Hg Hn Hp [Hc1 Hc2]] Hs Hsg Hse. split; simpl.
  - destruct Hg as (g & Hg & Hpg). exists g.
    now rewrite lookup_insert_ne by assumption.
  - intros s' Hs'. destruct (decide (s = s')) as [<-|Hne]; [assumption|].
    rewrite lookup_insert_ne in Hs' by assumption. now apply Hn.
  - intros s' sc Hs' Hne. destruct (decide (s = s')) as [<-|Hss].
    + rewrite lookup_insert_eq in Hs'. injection Hs' as <-. simpl.
      exists (currentScope t). split; [reflexivity|]. split; [assumption|].
      destruct (decide (s = currentScope t)) as [<-|Hsc].
      * rewrite lookup_insert_eq. eauto.
      * now rewrite lookup_insert_ne.
    + rewrite lookup_insert_ne in Hs' by assumption.
      destruct (Hp s' sc Hs' Hne) as (p & Hp1 & Hp2 & Hp3).
      exists p. split; [assumption|]. split; [assumption|].
      destruct (decide (s = p)) as [<-|Hsp].
      * rewrite lookup_insert_eq. eauto.
      * now rewrite lookup_insert_ne.
  - split; [assumption|]. rewrite lookup_insert_eq. eauto.
Qed.

(** Leaving the current scope. *)
Lemma table_ok_exit t sc :
  table_ok t -> scopes t !! currentScope t = Some sc ->
  table_ok (mkTable (scopes t) (or_default (parent sc) "global")).
Proof.
  intros [Hg Hn Hp [Hc1 Hc2]] Hsc. split; simpl; try assumption.
  destruct (decide (currentScope t = "global")) as [E|E].
  - destruct Hg as (g & Hg & Hpg). rewrite E, Hg in Hsc. injection Hsc as <-.
    rewrite Hpg. simpl. split; [discriminate | eauto].
  - destruct (Hp _ _ Hsc E) as (p & Hp1 & Hp2 & Hp3). rewrite Hp1.
    unfold or_default. case_decide; [contradiction|]. now split.
Qed.

(** Computations that keep the table closed. *)
Definition Closed {X} (m : A X) : Prop :=
  forall st x st', m st = Some (x, st') ->
    table_ok (symbolTable st) -> table_ok (symbolTable st').

Lemma Closed_of_Reads {X} (m : A X) : Reads m -> Closed m.
Proof. intros Hm st x st' H Hok. destruct (Hm _ _ _ H) as [-> _]. exact Hok. Qed.

Lemma Closed_bind {X Y} (m : A X) (k : X -> A Y) :
  Closed m -> (forall x, Closed (k x)) -> Closed (bind m k).
Proof.
  intros Hm Hk st y st' H Hok. apply bind_inv in H as (x & st1 & H1 & H2).
  eapply Hk; [exact H2|]. eapply Hm; eassumption.
Qed.

Lemma Closed_when b (m : A unit) : Closed m -> Closed (when b m).
Proof. intros H. destruct b; [assumption | apply Closed_of_Reads, Reads_ret]. Qed.

Lemma Closed_sequence {X} (ms : list (A X)) :
  Forall Closed ms -> Closed (sequence ms).
Proof.
  induction 1 as [|m ms Hm Hms IH]; simpl; [apply Closed_of_Reads, Reads_ret|].
  apply Closed_bind; [assumption|]. intros a.
  apply Closed_bind; [assumption|]. intros r. apply Closed_of_Reads, Reads_ret.
Qed.

Lemma Closed_enterScope s :
  scope_name s -> s <> "global" -> s <> "" -> Closed (enterScope s).
Proof.
  intros Hs Hg He st x st' [= _ <-] Hok. simpl. now apply table_ok_enter.
Qed.

Lemma Closed_exitScope : Closed exitScope.
Proof.
  intros st x st' H Hok. unfold exitScope in H.
  apply bind_inv in H as (? & ? & [= <- <-] & H).
  destruct (scopes (symbolTable st) !! currentScope (symbolTable st)) as [sc|] eqn:E;
    [|discriminate].
  injection H as _ <-. simpl. now apply table_ok_exit.
Qed.

Lemma Closed_declareSymbol name type kind node params returnType :
  Closed (declareSymbol name type kind node params returnType).
Proof.
  intros st x st' H Hok. unfold declareSymbol in H.
  apply bind_inv in H as (scope & st1 & H1 & H).
  unfold current_scope in H1. apply bind_inv in H1 as (? & ? & [= <- <-] & H1).
  destruct (scopes (symbolTable st) !! currentScope (symbolTable st)) as [sc|] eqn:E;
    [|discriminate].
  injection H1 as <- <-. destruct node as [n|]; [|discriminate].
  destruct (symbols sc !! name).
  - apply Reads_error_at in H as [-> _]. exact Hok.
  - injection H as _ <-. simpl. apply (table_ok_same_links _ _ Hok).
    split; [reflexivity|]. intros s. simpl.
    destruct (decide (currentScope (symbolTable st) = s)) as [<-|Hne].
    + now rewrite lookup_insert_eq, E.
    + now rewrite lookup_insert_ne.
Qed.

Lemma Closed_mark_initialized scopeName name :
  Closed (mark_initialized scopeName name).
Proof.
  intros st x st' [= _ <-] Hok. simpl. apply (table_ok_same_links _ _ Hok).
  split; [reflexivity|]. intros s. simpl. rewrite lookup_alter.
  case_decide; [subst s|reflexivity].
  now destruct (scopes (symbolTable st) !! scopeName).
Qed.

Ltac closed :=
  repeat first
    [ apply Closed_declareSymbol | apply Closed_mark_initialized
    | apply Closed_exitScope | apply Closed_when
    | apply Closed_of_Reads; solve [reads]
    | apply Closed_bind; [|intros ?]
    | match goal with
      | |- Closed (if ?b then _ else _) => destruct b
      | |- Closed (match ?o with Some _ => _ | None => _ end) => destruct o
      | |- Closed (let '(_, _) := ?p in _) => destruct p
      end ].

Section WithRandom.

Variable rnd : nat -> string.

Section CaseFacts.

Variable node : ASTNode.
Variable visits : option (list (A unit)).
Hypothesis Hvisits : from_option (Forall Closed) True visits.

Lemma Closed_visit i : Closed (visit visits i).
Proof.
  unfold visit. destruct visits as [vs|]; [|apply Closed_of_Reads, Reads_throw].
  destruct (vs !! i) as [v|] eqn:E; [|apply Closed_of_Reads, Reads_throw].
  simpl in Hvisits. rewrite Forall_forall in Hvisits. apply Hvisits.
  eapply list_elem_of_lookup_2; eassumption.
Qed.

Lemma Closed_visitChildren : Closed (visitChildren visits).
Proof.
  unfold visitChildren. destruct visits as [vs|]; [|apply Closed_of_Reads, Reads_ret].
  apply Closed_bind; [now apply Closed_sequence|].
  intros; apply Closed_of_Reads, Reads_ret.
Qed.

Lemma Closed_scope s (body : A unit) :
  scope_name s -> s <> "global" -> s <> "" -> Closed body ->
  Closed (run enterScope s; run body; exitScope).
Proof.
  intros Hs Hg He Hb. apply Closed_bind; [now apply Closed_enterScope|]. intros _.
  apply Closed_bind; [assumption|]. intros _. apply Closed_exitScope.
Qed.

Lemma Closed_case_Block : Closed (case_Block rnd visits).
Proof.
  intros st x st' H Hok. unfold case_Block in H.
  apply bind_inv in H as (blockId & st1 & [= <- <-] & H).
  refine (Closed_scope ("block_" +:+ rnd (draws st)) (visitChildren visits)
            _ _ _ Closed_visitChildren _ _ _ H Hok);
    [right; right; eauto | discriminate | discriminate].
Qed.

Lemma Closed_case_FunctionDeclaration : Closed (case_FunctionDeclaration node visits).
Proof.
  unfold case_FunctionDeclaration. closed.
  - apply Closed_sequence, Forall_fmap, Forall_forall. intros p _.
    apply Closed_of_Reads, Reads_param_info.
  - apply Closed_enterScope; [right; left; eauto | discriminate | discriminate].
  - apply Closed_sequence, Forall_fmap, Forall_forall. intros p _.
    apply Closed_declareSymbol.
  - apply Closed_visit.
Qed.

Lemma Closed_visit_cases : Closed (visit_cases rnd node visits).
Proof.
  unfold visit_cases.
  destruct (decide (node_type node = "Program"));
    [unfold case_Program; closed; apply Closed_visitChildren|].
  destruct (decide (node_type node = "FunctionDeclaration"));
    [apply Closed_case_FunctionDeclaration|].
  destruct (decide (node_type node = "VariableDeclaration"));
    [unfold case_VariableDeclaration; closed|].
  destruct (decide (node_type node = "Block")); [apply Closed_case_Block|].
  destruct (bool_decide _);
    [unfold case_condition; closed; apply Closed_visitChildren|].
  destruct (decide (node_type node = "ReturnStatement"));
    [unfold case_ReturnStatement, check_return; closed; apply Closed_visitChildren|].
  destruct (decide (node_type node = "Assignment"));
    [unfold case_Assignment; closed; apply Closed_visitChildren|].
  apply Closed_visitChildren.
Qed.

End CaseFacts.

Lemma Closed_visitNode n : Closed (visitNode rnd n).
Proof.
  induction n as [ty v l c kids IH] using ASTNode_ind.
  change (Closed (visit_cases rnd (mkNode ty v l c kids)
                    (match kids with
                     | Some ks => Some (map (on_child (visitNode rnd)) ks)
                     | None => None
                     end))).
  apply Closed_visit_cases. destruct kids as [ks|]; simpl in *; [|exact I].
  apply Forall_fmap. eapply Forall_impl; [exact IH|].
  intros [m|]; simpl; [auto|]. intros _. apply Closed_of_Reads, Reads_throw.
Qed.

End WithRandom.

Lemma initial_table_ok : table_ok (symbolTable initial_state).
Proof.
  split; simpl.
  - eexists. split; [apply lookup_singleton_eq | reflexivity].
  - intros s [sc Hs]. apply lookup_singleton_Some in Hs as [<- _]. now left.
  - intros s sc Hs Hne. apply lookup_singleton_Some in Hs as [<- _]. contradiction.
  - split; [discriminate|]. rewrite lookup_singleton_eq. eauto.
Qed.

(** X7: the table that [analyze] returns is closed under its parent
    links, whatever the tree and whatever identifiers are drawn: the
    global scope is there and has no parent, every other scope is named
    [function_...] or [block_...] and its parent is a scope of the table,
    and the current scope is a scope of the table. *)
Theorem analyze_table_closed (rnd : nat -> string) (ast : ASTNode)
    (table : SymbolTable) (errs : list CompilerError) :
  analyze rnd ast = Some (table, errs) ->
  table_ok table.
Proof.
  intros H. unfold analyze in H.
  destruct (visitNode rnd ast initial_state) as [[[] st]|] eqn:E; [|discriminate].
  injection H as <- _. exact (Closed_visitNode rnd ast _ _ _ E initial_table_ok).
Qed.

Lemma analyze_table_closed_witness :
  exists table errs,
    analyze (fun _ => "x") empty_blocks_ast = Some (table, errs)
    /\ table_ok table.
Proof.
  destruct (analyze (fun _ => "x") empty_blocks_ast) as [[table errs]|] eqn:E;
    [|vm_compute in E; discriminate E].
  exists table, errs. split; [reflexivity|].
  exact (analyze_table_closed (fun _ => "x") empty_blocks_ast table errs E).
Defined.

(** ** Declarations and lookups *)

(** The symbol that [declareSymbol] records. *)
Definition declared (name type kind : string) (n : ASTNode)
    (params : option (list (string * string))) (returnType : option string) : Symbol :=
  mkSymbol name type kind (line_of n) (column_of n)
    (bool_decide (kind = "parameter") || bool_decide (kind = "function"))
    params returnType.


Definition identifier_x : ASTNode := mkNode "Identifier" (Some "x") (Some 3) (Some 7) None.


(** X9: the first declaration of a name in a scope wins. Declaring a name
    that the current scope already has leaves the symbol table as it is
    and adds one diagnostic, at the position of the new declaration, that
    names the position of the first one. *)
Theorem declareSymbol_redeclaration (name type kind : string) (n : ASTNode)
    (params : option (list (string * string))) (returnType : option string)
    (st : AState) (scope : Scope) (prior : Symbol) :
  scopes (symbolTable st) !! currentScope (symbolTable st) = Some scope ->
  symbols scope !! name = Some prior ->
  exists st1,
    declareSymbol name type kind (Some n) params returnType st = Some (tt, st1)
    /\ symbolTable st1 = symbolTable st
    /\ errors st1
       = errors st
         ++ [mkError ("Redeclaration of '" +:+ name
                      +:+ "'. It was already declared at line "
                      +:+ pretty (sym_line prior) +:+ ", column "
                      +:+ pretty (sym_column prior))
                     (line_of n) (column_of n)].
Proof.
  intros Hscope Hprior. eexists. split; [|split].
  - unfold declareSymbol, current_scope, bind, get. rewrite Hscope. simpl.
    rewrite Hprior. reflexivity.
  - reflexivity.
  - reflexivity.
Qed.

Lemma declareSymbol_redeclaration_witness :
  let st := mkA (mkTable {["global" := mkScope None
                             {["x" := mkSymbol "x" "int" "variable" 3 7 false None None]}]}
                         "global") [] 0 in
  exists st1,
    declareSymbol "x" "float" "variable" (Some identifier_x) None None st = Some (tt, st1)
    /\ symbolTable st1 = symbolTable st
    /\ errors st1
       = [mkError "Redeclaration of 'x'. It was already declared at line 3, column 7" 3 7].
Proof.
  intros st.
  exact (declareSymbol_redeclaration "x" "float" "variable" identifier_x None None st
           _ _ eq_refl eq_refl).
Defined.

(** ** Entering and leaving a scope *)

(** X10: entering a scope and leaving it again comes back to the scope that
    was current, provided its name is not empty; the scope entered stays
    in the table, empty, in the place of any scope that had its name. *)
Theorem enterScope_exitScope (scopeName : string) (st : AState) :
  currentScope (symbolTable st) <> "" ->
  exists st',
    (run enterScope scopeName; exitScope) st = Some (tt, st')
    /\ currentScope (symbolTable st') = currentScope (symbolTable st)
    /\ scopes (symbolTable st')
       = <[scopeName := mkScope (Some (currentScope (symbolTable st))) ∅]>
           (scopes (symbolTable st))
    /\ errors st' = errors st.
Proof.
  intros Hcur. eexists. split; [|split; [|split]].
  - unfold enterScope, exitScope, set_table, modify, bind, get.
    cbn [symbolTable scopes currentScope]. rewrite lookup_insert_eq. reflexivity.
  - cbn [symbolTable currentScope parent]. unfold or_default.
    case_decide; [contradiction | reflexivity].
  - reflexivity.
  - reflexivity.
Qed.

Lemma enterScope_exitScope_witness :
  exists st',
    (run enterScope "function_main"; exitScope) initial_state = Some (tt, st')
    /\ currentScope (symbolTable st') = "global"
    /\ scopes (symbolTable st')
       = <["function_main" := mkScope (Some "global") ∅]> {["global" := mkScope None ∅]}
    /\ errors st' = [].
Proof.
  exact (enterScope_exitScope "function_main" initial_state ltac:(discriminate)).
Defined.

End AnalyzerProperties.

(** * Further properties of the IR generator *)

Module IRGeneratorProperties.
Import IRGenerator.

(** ** The form of the instructions *)

Definition present (o : option string) : bool :=
  match o with Some _ => true | None => false end.

(** The operations that [generateIR] emits, each with the fields that
    an instruction of that operation carries: result, first and second
    argument. *)
Definition signatures : list (string * (bool * bool * bool)) :=
  [("LABEL", (true, false, false)); ("ENTER", (false, false, false));
   ("LEAVE", (false, false, false)); ("RET", (false, false, false));
   ("RET", (false, true, false)); ("ASSIGN", (true, true, false));
   ("JUMP", (true, false, false)); ("JUMPTRUE", (true, true, false));
   ("JUMPFALSE", (true, true, false)); ("PRINT", (false, true, false));
   ("PARAM", (false, true, false)); ("CALL", (true, true, true));
   ("EQ", (true, true, true)); ("NE", (true, true, true));
   ("LT", (true, true, true)); ("GT", (true, true, true));
   ("LE", (true, true, true)); ("GE", (true, true, true));
   ("ADD", (true, true, true)); ("SUB", (true, true, true));
   ("MUL", (true, true, true)); ("DIV", (true, true, true));
   ("MOD", (true, true, true)); ("NOT", (true, true, false));
   ("NEG", (true, true, false))].

Definition instr_ok (i : IRInstruction) : Prop :=
  (op i, (present (result i), present (arg1 i), present (arg2 i))) ∈ signatures.

Definition Emits {X} (m : Gen X) : Prop :=
  forall st x st', m st = Some (x, st') ->
    exists out, instructions st' = instructions st ++ out /\ Forall instr_ok out.

Lemma Emits_nothing {X} (m : Gen X) :
  (forall st x st', m st = Some (x, st') -> instructions st' = instructions st) ->
  Emits m.
Proof.
  intros Hm st x st' H. exists []. rewrite app_nil_r. split; [eauto | constructor].
Qed.

Lemma Emits_ret {X} (x : X) : Emits (ret x).
Proof. apply Emits_nothing. now intros st y st' [= _ <-]. Qed.

Lemma Emits_throw {X} : Emits (@throw GenState X).
Proof. intros st x st' [=]. Qed.

Lemma Emits_newTemp : Emits newTemp.
Proof. apply Emits_nothing. now intros st y st' [= _ <-]. Qed.

Lemma Emits_newLabel : Emits newLabel.
Proof. apply Emits_nothing. now intros st y st' [= _ <-]. Qed.

Lemma Emits_push i : instr_ok i -> Emits (push i).
Proof. intros Hi st x st' [= _ <-]. exists [i]. split; [reflexivity | now constructor]. Qed.

Lemma Emits_bind {X Y} (m : Gen X) (k : X -> Gen Y) :
  Emits m -> (forall x, Emits (k x)) -> Emits (bind m k).
Proof.
  intros Hm Hk st y st' H. apply bind_inv in H as (x & st1 & H1 & H2).
  destruct (Hm _ _ _ H1) as (o1 & E1 & F1). destruct (Hk _ _ _ _ H2) as (o2 & E2 & F2).
  exists (o1 ++ o2). split; [now rewrite E2, E1, app_assoc | now apply Forall_app].
Qed.

Lemma Emits_when b (m : Gen unit) : Emits m -> Emits (when b m).
Proof. intros H. destruct b; [assumption | apply Emits_ret]. Qed.

Lemma Emits_sequence {X} (ms : list (Gen X)) : Forall Emits ms -> Emits (sequence ms).
Proof.
  induction 1 as [|m ms Hm Hms IH]; simpl; [apply Emits_ret|].
  apply Emits_bind; [assumption|]. intros a.
  apply Emits_bind; [assumption|]. intros r. apply Emits_ret.
Qed.

Lemma Emits_child kids i : Emits (child (S:=GenState) kids i).
Proof. unfold child. destruct kids; [apply Emits_ret | apply Emits_throw]. Qed.

Lemma Emits_child_get {X} kids i (f : ASTNode -> X) :
  Emits (child_get (S:=GenState) kids i f).
Proof.
  unfold child_get. apply Emits_bind; [apply Emits_child|].
  intros [n|]; [apply Emits_ret | apply Emits_throw].
Qed.

Lemma Emits_children_length kids : Emits (children_length (S:=GenState) kids).
Proof. unfold children_length. destruct kids; [apply Emits_ret | apply Emits_throw]. Qed.

Ltac sig_ok := apply (bool_decide_unpack _); vm_compute; exact I.

Section CaseFacts.

Variable node : ASTNode.
Variable visits : option (list (Gen (option string))).
Hypothesis Hvisits : from_option (Forall Emits) True visits.

Lemma Emits_visit i : Emits (visit visits i).
Proof.
  unfold visit. destruct visits as [vs|]; [|apply Emits_throw].
  destruct (vs !! i) as [v|] eqn:E; [|apply Emits_throw].
  simpl in Hvisits. rewrite Forall_forall in Hvisits. apply Hvisits.
  eapply list_elem_of_lookup_2; eassumption.
Qed.

Lemma Emits_visitChildren : Emits (visitChildren visits).
Proof.
  unfold visitChildren. destruct visits as [vs|]; [|apply Emits_ret].
  apply Emits_bind; [now apply Emits_sequence | intros; apply Emits_ret].
Qed.

Ltac emits :=
  repeat first
    [ apply Emits_ret | apply Emits_throw | apply Emits_newTemp | apply Emits_newLabel
    | apply Emits_visit | apply Emits_visitChildren
    | apply Emits_child_get | apply Emits_children_length | apply Emits_when
    | apply Emits_push; sig_ok
    | apply Emits_bind; [|intros ?]
    | match goal with
      | |- Emits (if ?b then _ else _) => destruct b
      end ].

Lemma Emits_case_binary o : o ∈ map snd binary_ops -> Emits (case_binary visits o).
Proof.
  intros Ho. unfold case_binary. emits. apply Emits_push.
  unfold binary_ops in Ho. simpl in Ho. rewrite !elem_of_cons, elem_of_nil in Ho.
  destruct_or!; try contradiction; subst o; sig_ok.
Qed.

Lemma Emits_case_unary o : o ∈ map snd unary_ops -> Emits (case_unary visits o).
Proof.
  intros Ho. unfold case_unary. emits. apply Emits_push.
  unfold unary_ops in Ho. simpl in Ho. rewrite !elem_of_cons, elem_of_nil in Ho.
  destruct_or!; try contradiction; subst o; sig_ok.
Qed.

Lemma Emits_case_FunctionCall : Emits (case_FunctionCall node visits).
Proof.
  unfold case_FunctionCall. emits.
  - destruct visits as [vs|]; [|apply Emits_throw]. apply Emits_sequence.
    simpl in Hvisits. now apply Forall_drop.
  - apply Emits_sequence, Forall_fmap, Forall_forall. intros a _.
    apply Emits_push. sig_ok.
Qed.

Lemma Emits_visit_cases : Emits (visit_cases node visits).
Proof.
  unfold visit_cases.
  destruct (decide _); [emits|].
  destruct (decide _); [unfold case_FunctionDeclaration; emits|].
  destruct (decide _); [unfold case_VariableDeclaration; emits|].
  destruct (decide _); [emits|].
  destruct (decide _); [unfold case_IfStatement; emits|].
  destruct (decide _); [unfold case_WhileStatement; emits|].
  destruct (decide _); [unfold case_ForStatement; emits|].
  destruct (decide _); [unfold case_ReturnStatement; emits|].
  destruct (decide _); [unfold case_PrintStatement; emits|].
  destruct (decide _); [unfold case_Assignment; emits|].
  destruct (decide _); [unfold case_Logical; emits|].
  destruct (decide _); [unfold case_Logical; emits|].
  destruct (lookup_op binary_ops _) as [o|] eqn:Eb.
  { apply Emits_case_binary. eapply IRGeneratorFacts.lookup_op_elem; eassumption. }
  destruct (lookup_op unary_ops _) as [o|] eqn:Eu.
  { apply Emits_case_unary. eapply IRGeneratorFacts.lookup_op_elem; eassumption. }
  destruct (decide _); [apply Emits_case_FunctionCall|].
  repeat (destruct (decide _); [emits|]). emits.
Qed.

End CaseFacts.

Lemma Emits_visitNode n : Emits (visitNode n).
Proof.
  induction n as [ty v l c kids IH] using ASTNode_ind.
  rewrite IRGeneratorFacts.visitNode_unfold. apply Emits_visit_cases.
  destruct kids as [ks|]; simpl in *; [|exact I].
  apply Forall_fmap. eapply Forall_impl; [exact IH|].
  intros [m|]; simpl; [auto|]. intros _. apply Emits_throw.
Qed.

(** X11: every instruction that [generateIR] emits has one of the
    twenty-four operations of the table and carries exactly the fields of
    that operation; there is no [NOP] and no operation outside the
    table, whatever the tree. *)
Theorem generateIR_instruction_forms (ast : ASTNode) (ir : list IRInstruction) :
  generateIR ast = Some ir ->
  Forall (fun i => (op i, (present (result i), present (arg1 i), present (arg2 i)))
                   ∈ signatures) ir.
Proof.
  unfold generateIR. destruct (visitNode ast _) as [[r st]|] eqn:E; [|discriminate].
  intros [= <-]. destruct (Emits_visitNode ast _ _ _ E) as (out & Ho & Hf).
  simpl in Ho. now rewrite Ho.
Qed.

Lemma generateIR_instruction_forms_witness :
  exists ir,
    generateIR IRGeneratorFacts.loop_ast = Some ir
    /\ Forall (fun i => (op i, (present (result i), present (arg1 i), present (arg2 i)))
                        ∈ signatures) ir.
Proof.
  destruct (generateIR IRGeneratorFacts.loop_ast) as [ir|] eqn:E;
    [|vm_compute in E; discriminate E].
  exists ir. split; [reflexivity|].
  exact (generateIR_instruction_forms IRGeneratorFacts.loop_ast ir E).
Defined.

End IRGeneratorProperties.

(** * Further properties of the optimizer *)

Module OptimizerProperties.
Import Optimizer.

(** The names that the first loop of [deadCodeElimination] marks as
    used: [r] is an operand of some instruction of [ir], neither a number
    nor a name that starts with L. *)
Definition read_in (ir : list IRInstruction) (r : string) : Prop :=
  Exists (fun j => marks (arg1 j) = Some r \/ marks (arg2 j) = Some r) ir.

Global Instance read_in_dec ir r : Decision (read_in ir r).
Proof. unfold read_in. apply _. Defined.








(** ** Lengths *)


(** ** Division by zero *)

(** X14: a [DIV] or [MOD] whose second operand is a numeric zero is left
    as it is by constant folding. *)
Theorem constantFolding_keeps_division_by_zero (ir : list IRInstruction) (i : nat)
    (instr : IRInstruction) :
  ir !! i = Some instr ->
  op instr = "DIV" \/ op instr = "MOD" ->
  JSNumber.is_zero (JSNumber.parseFloat (or_default (arg2 instr) "")) = true ->
  constantFolding ir !! i = Some instr.
Proof.
  intros Hi Hop Hz. rewrite OptimizerFacts.constantFolding_map, list_lookup_fmap, Hi.
  simpl. f_equal. unfold fold_instr, fold_arithmetic.
  destruct Hop as [-> | ->]; simpl; rewrite Hz;
    now destruct (isNumeric _ && isNumeric _).
Qed.

Lemma constantFolding_keeps_division_by_zero_witness :
  constantFolding [instr_rab "DIV" "t0" "1" "0.0"; instr_rab "MOD" "t1" "7" "-0"] !! 1
  = Some (instr_rab "MOD" "t1" "7" "-0").
Proof.
  apply (constantFolding_keeps_division_by_zero _ 1 (instr_rab "MOD" "t1" "7" "-0"));
    [reflexivity | right; reflexivity | vm_compute; reflexivity].
Defined.

(** ** Labels and jumps *)










End OptimizerProperties.

(** * Properties of the code generator *)

Module CodeGeneratorProperties.
Import CodeGenerator StringFacts.

(** The state of [generateAssembly] after its loop over the
    instructions. *)
Definition lowered (ir : list IRInstruction) : CGState :=
  fold_left (fun st instr => lower instr st) ir (mkCG prologue ∅ []).



(** ** Invariants of the loop *)

Section Invariant.

(** A property of the state that the helpers keep. *)
Variable Inv : CGState -> Prop.

Hypothesis Inv_emit : forall text st, Inv st -> Inv (emit text st).
Hypothesis Inv_getRegister : forall v st, Inv st -> Inv (getRegister v st).2.
Hypothesis Inv_freeRegister : forall v st, Inv st -> Inv (freeRegister v st).
Hypothesis Inv_add_variable : forall o st,
  Inv st -> o <> "" -> isNumeric o = false -> startsWith "L" o = false ->
  Inv (add_variable o st).

Lemma Inv_emit_line text st : Inv st -> Inv (emit_line text st).
Proof. apply Inv_emit. Qed.

Lemma Inv_getOperand operand st : Inv st -> Inv (getOperand operand st).2.
Proof.
  intros H. unfold getOperand.
  destruct operand as [o|]; [|exact H].
  change (truthy (Some o)) with (negb (bool_decide (o = ""))).
  case_bool_decide; [exact H|]. cbn [negb]. change (default "" (Some o)) with o.
  destruct (isNumeric o) eqn:En; [exact H|].
  destruct (startsWith "L" o) eqn:El; [exact H|].
  destruct (truthy (registers st !! o)); [exact H|]. now apply Inv_add_variable.
Qed.

Lemma Inv_emit_operand text operand st : Inv st -> Inv (emit_operand text operand st).
Proof.
  intros H. unfold emit_operand.
  pose proof (Inv_getOperand operand st H) as H'.
  destruct (getOperand operand st) as [o st1]. now apply Inv_emit_line.
Qed.

Ltac inv_step :=
  match goal with
  | |- Inv (if ?b then _ else _) => destruct b
  | |- Inv (let '(_, _) := getRegister ?v ?st in _) =>
      let H := fresh in
      assert (H : Inv (getRegister v st).2)
        by (apply Inv_getRegister; repeat inv_step);
      destruct (getRegister v st); simpl in H
  | |- Inv (let '(_, _) := getOperand ?o ?st in _) =>
      let H := fresh in
      assert (H : Inv (getOperand o st).2)
        by (apply Inv_getOperand; repeat inv_step);
      destruct (getOperand o st); simpl in H
  | |- Inv (emit_line _ _) => apply Inv_emit_line
  | |- Inv (emit_operand _ _ _) => apply Inv_emit_operand
  | |- Inv (freeRegister _ _) => apply Inv_freeRegister
  | |- Inv _ => assumption
  end.

Lemma Inv_lower instr st : Inv st -> Inv (lower instr st).
Proof.
  intros H. unfold lower, case_RET, case_ASSIGN, case_add_sub, case_MUL,
    case_div_mod, case_compare, case_not_neg, case_jump_if, case_CALL, case_PRINT.
  repeat case_decide; repeat inv_step.
Qed.

Lemma Inv_lowered ir : Inv (mkCG prologue ∅ []) -> Inv (lowered ir).
Proof.
  unfold lowered. generalize (mkCG prologue ∅ []).
  induction ir as [|i ir IH]; intros st H; simpl; [assumption|].
  apply IH. now apply Inv_lower.
Qed.

End Invariant.

(** ** Registers *)






(** ** The data section *)

Definition memory_operand (v : string) : Prop :=
  v <> "" /\ isNumeric v = false /\ startsWith "L" v = false.

Definition variables_ok (st : CGState) : Prop :=
  NoDup (variables st) /\ Forall memory_operand (variables st).

Lemma lowered_variables_ok ir : variables_ok (lowered ir).
Proof.
  apply Inv_lowered.
  - intros text st H. exact H.
  - intros v st H. unfold getRegister. now destruct (truthy _).
  - intros v st H. exact H.
  - intros o st [Hn Hf] Ho Hnum Hl. unfold variables_ok, add_variable. simpl.
    case_bool_decide; [now split|]. split.
    + apply NoDup_app. split; [assumption|]. split; [|apply NoDup_singleton].
      intros x Hx Hx'. apply list_elem_of_singleton in Hx'. now subst.
    + apply Forall_app. split; [assumption|]. now repeat constructor.
  - split; [apply NoDup_nil_2 | constructor].
Qed.

(** X17: the names that the data section declares are pairwise distinct,
    and each is a non-empty operand that is neither numeric nor starts
    with L. *)
Theorem data_section_variables (ir : list IRInstruction) :
  NoDup (variables (lowered ir))
  /\ Forall (fun v => v <> "" /\ isNumeric v = false /\ startsWith "L" v = false)
            (variables (lowered ir)).
Proof. apply lowered_variables_ok. Qed.

(** ** The layout of the text *)





End CodeGeneratorProperties.

(** * Runs that return *)

(** [Sp m st Q]: from [st], [m] returns, with a result and a state that
    satisfy [Q]. *)
Definition Sp {S A} (m : Comp S A) (st : S) (Q : A -> S -> Prop) : Prop :=
  exists a st', m st = Some (a, st') /\ Q a st'.

Lemma Sp_ret {S A} (a : A) (st : S) (Q : A -> S -> Prop) : Q a st -> Sp (ret a) st Q.
Proof. intros H. now exists a, st. Qed.

Lemma Sp_bind {S A B} (m : Comp S A) (k : A -> Comp S B) (st : S)
    (R : A -> S -> Prop) (Q : B -> S -> Prop) :
  Sp m st R -> (forall a st1, R a st1 -> Sp (k a) st1 Q) -> Sp (bind m k) st Q.
Proof.
  intros (a & st1 & E & HR) Hk. destruct (Hk a st1 HR) as (b & st2 & E2 & HQ).
  exists b, st2. split; [|exact HQ]. unfold bind. now rewrite E.
Qed.

Lemma Sp_mono {S A} (m : Comp S A) (st : S) (R Q : A -> S -> Prop) :
  Sp m st R -> (forall a st1, R a st1 -> Q a st1) -> Sp m st Q.
Proof. intros (a & st1 & E & HR) H. exists a, st1. auto. Qed.

Lemma Sp_ret_bind {S A B} (a : A) (k : A -> Comp S B) (st : S) (Q : B -> S -> Prop) :
  Sp (k a) st Q -> Sp (bind (ret a) k) st Q.
Proof. intros H. exact H. Qed.

Lemma Sp_bind_assoc {S A B C} (m : Comp S A) (f : A -> Comp S B)
    (k : B -> Comp S C) (st : S) (Q : C -> S -> Prop) :
  Sp (bind m (fun x => bind (f x) k)) st Q -> Sp (bind (bind m f) k) st Q.
Proof.
  intros (c & st' & E & H). exists c, st'. split; [|exact H].
  unfold bind in *. destruct (m st) as [[a st1]|]; [exact E | discriminate].
Qed.

(** * Properties of the parser *)

Module ParserProperties.
Import Parser.

(** ** Trees *)

(** No node of the tree is a function declaration. *)
Definition flat : ASTNode -> Prop :=
  every_node (fun m => node_type m <> "FunctionDeclaration").

Definition Flat (a : option ASTNode) : Prop := from_option flat True a.

(** A node that is there and is well formed. *)
Definition Ok (a : option ASTNode) : Prop :=
  exists n, a = Some n /\ IRGeneratorFacts.well_formed n.

Lemma every_node_children (P : ASTNode -> Prop) ty v l c ks :
  P (mkNode ty v l c (Some ks)) ->
  Forall (from_option (every_node P) True) ks ->
  every_node P (mkNode ty v l c (Some ks)).
Proof.
  intros HP Hks. split; [exact HP|]. cbn [node_children]. clear HP.
  induction Hks as [|k ks Hk _ IH]; [exact I|]. split; [|exact IH].
  now destruct k.
Qed.

Lemma flat_node ty v l c ks :
  ty <> "FunctionDeclaration" -> Forall Flat ks -> flat (mkNode ty v l c (Some ks)).
Proof. intros Hty Hks. now apply every_node_children. Qed.

Lemma flat_leaf ty v l c :
  ty <> "FunctionDeclaration" -> flat (mkNode ty v l c None).
Proof. intros Hty. split; [exact Hty | exact I]. Qed.

Lemma well_formed_node ty v l c ks :
  Forall Ok ks ->
  from_option (fun k => k <= length ks) True (IRGeneratorFacts.min_children ty) ->
  IRGeneratorFacts.well_formed (mkNode ty v l c (Some ks)).
Proof.
  intros Hks Hmin. apply every_node_children.
  - split; [|exact Hmin]. eapply Forall_impl; [exact Hks|].
    intros k (n & -> & _). now exists n.
  - eapply Forall_impl; [exact Hks|]. now intros k (n & -> & Hn).
Qed.

Lemma well_formed_leaf ty v l c :
  IRGeneratorFacts.min_children ty = None ->
  IRGeneratorFacts.well_formed (mkNode ty v l c None).
Proof. intros Hty. split; [exact Hty | exact I]. Qed.

Lemma flat_nested_ok n : forall fs, flat n -> AnalyzerFacts.nested_ok fs n.
Proof.
  induction n as [ty v l c kids IH] using ASTNode_ind. intros fs [Hty Hkids].
  cbn [node_type node_children] in *. split; [intros E; contradiction|].
  cbn [node_type node_children]. destruct kids as [ks|]; [|exact I].
  apply every_children in Hkids. destruct (decide _) as [E|_]; [contradiction|].
  simpl in IH. clear Hty. induction ks as [|k ks IHks]; [exact I|].
  apply Forall_cons in Hkids as [Hk Hks]. apply Forall_cons in IH as [IHk IH].
  split; [|now apply IHks].
  destruct k as [m|]; [|exact I]. now apply IHk.
Qed.

(** A parameter, as the parser builds it. *)
Definition parameter_node (k : option ASTNode) : Prop :=
  exists ty name,
    k = Some (inner "Parameter"
                [Some (leaf "Type" ty); Some (leaf "Identifier" name)]).

(** A function declaration, as the parser builds it: the type, the name,
    the parameters and, when there is one, the body, which holds no
    function declaration. *)
Definition function_node (n : ASTNode) : Prop :=
  exists ty name params body,
    n = inner "FunctionDeclaration"
          (push_if [Some (leaf "Type" ty); Some (leaf "Identifier" name);
                    Some (inner "Parameters" params)] body)
    /\ Forall parameter_node params /\ Flat body.

(** A declaration of the top level: a variable declaration with no
    function declaration below it, or a function declaration. *)
Definition top_level (n : ASTNode) : Prop :=
  (node_type n = "VariableDeclaration" /\ flat n) \/ function_node n.

Lemma parameter_node_Flat k : parameter_node k -> Flat k.
Proof.
  intros (ty & name & ->). apply flat_node; [discriminate|].
  repeat constructor; discriminate.
Qed.

Lemma function_node_children n :
  function_node n ->
  node_type n = "FunctionDeclaration"
  /\ exists ks, node_children n = Some ks /\ Forall Flat ks.
Proof.
  intros (ty & name & params & body & -> & Hp & Hb). split; [reflexivity|].
  eexists. split; [reflexivity|].
  assert (H : Forall Flat [Some (leaf "Type" ty); Some (leaf "Identifier" name);
                           Some (inner "Parameters" params)]).
  { repeat constructor; try discriminate.
    apply (flat_node "Parameters"); [discriminate|].
    eapply Forall_impl; [exact Hp | apply parameter_node_Flat]. }
  destruct body as [b|]; [|exact H]. apply Forall_app. split; [exact H|].
  now constructor.
Qed.

Lemma top_level_nested_ok n : top_level n -> AnalyzerFacts.nested_ok [] n.
Proof.
  intros [[_ H]|H]; [now apply flat_nested_ok|].
  apply function_node_children in H as (Hty & ks & Hks & Hflat).
  destruct n as [ty v l c kids]. cbn [node_type node_children] in *. subst.
  split; [intros _; apply not_elem_of_nil|]. cbn [node_type node_children].
  destruct (decide _) as [_|E]; [|contradiction].
  generalize (AnalyzerFacts.declared_name
                (mkNode "FunctionDeclaration" v l c (Some ks))).
  intros name. induction Hflat as [|k ks Hk _ IH]; [exact I|]. split; [|exact IH].
  destruct k as [m|]; [|exact I]. now apply flat_nested_ok.
Qed.

Lemma program_nested_ok ks :
  Forall (fun k => exists n, k = Some n /\ top_level n) ks ->
  AnalyzerFacts.nested_ok [] (inner "Program" ks).
Proof.
  intros H. split; [intros [=]|]. cbn [inner node_type node_children].
  destruct (decide _) as [[=]|_].
  induction H as [|k ks (n & -> & Hn) _ IH]; [exact I|]. split; [|exact IH].
  now apply top_level_nested_ok.
Qed.

(** ** Runs of the parser *)

Section WithTokens.

Variable tokens : list Token.

(** The tokens that are left, and the diagnostics so far. *)
Definition remaining (st : PState) : nat := length tokens - currentTokenIndex st.
Definition reported (st : PState) : nat := length (perrors st).

Lemma peek_spec st :
  Sp (peek tokens) st (fun a st' =>
    st' = st /\ match a with
                | Some _ => 0 < remaining st
                | None => remaining st = 0
                end).
Proof.
  exists (tokens !! currentTokenIndex st), st. split; [reflexivity|].
  split; [reflexivity|]. unfold remaining.
  destruct (tokens !! currentTokenIndex st) eqn:E.
  - apply lookup_lt_Some in E. lia.
  - apply lookup_ge_None in E. lia.
Qed.

Lemma consume_spec st :
  Sp (consume tokens) st (fun a st' =>
    reported st' = reported st /\ remaining st' = remaining st - 1
    /\ (0 < remaining st -> is_Some a)).
Proof.
  unfold Sp, consume, remaining, reported.
  destruct (Nat.ltb_spec (currentTokenIndex st) (length tokens)) as [H|H].
  - eexists _, _. split; [reflexivity|]. cbn [currentTokenIndex perrors].
    rewrite lookup_lt_is_Some. repeat split; lia.
  - eexists _, _. split; [reflexivity|]. repeat split; lia.
Qed.

Lemma push_error_spec msg l c st :
  Sp (push_error msg l c) st (fun _ st' =>
    remaining st' = remaining st /\ reported st' = S (reported st)).
Proof.
  eexists _, _. split; [reflexivity|]. unfold remaining, reported.
  cbn [currentTokenIndex perrors]. rewrite length_app. simpl. lia.
Qed.

Lemma matches_spec ty v st :
  Sp (matches tokens ty v) st (fun b st' =>
    reported st' = reported st /\ remaining st' <= remaining st
    /\ (b = true -> remaining st' < remaining st)
    /\ (b = false -> remaining st' = remaining st)).
Proof.
  unfold matches. eapply Sp_bind; [apply peek_spec|].
  intros [t|] st1 [-> Hpk]; cbv beta iota.
  - destruct (token_is t ty v).
    + eapply Sp_bind; [apply consume_spec|]. intros a st1 (H1 & H2 & H3).
      apply Sp_ret. repeat split; try lia; discriminate.
    + apply Sp_ret. repeat split; try lia; discriminate.
  - apply Sp_ret. repeat split; try lia; discriminate.
Qed.

Lemma expect_spec ty v msg st :
  Sp (expect tokens ty v msg) st (fun a st' =>
    remaining st' <= remaining st /\ reported st <= reported st'
    /\ (is_Some a -> remaining st' < remaining st)
    /\ (reported st' = reported st -> is_Some a)
    /\ (a = None -> remaining st' = remaining st)).
Proof.
  unfold expect. eapply Sp_bind; [apply peek_spec|].
  intros [t|] st1 [-> Hpk]; cbv beta iota.
  - destruct (token_is t ty v).
    + eapply Sp_mono; [apply consume_spec|]. intros a st1 (H1 & H2 & H3).
      specialize (H3 Hpk).
      repeat split; try lia; try (intros; assumption).
      intros ->. now destruct H3.
    + eapply Sp_bind; [apply push_error_spec|]. intros _ st1 (H1 & H2).
      apply Sp_ret. repeat split; try lia; intros []; discriminate.
  - eapply Sp_bind; [apply push_error_spec|]. intros _ st1 (H1 & H2).
    apply Sp_ret. repeat split; try lia; intros []; discriminate.
Qed.

Lemma recover_spec n : forall st,
  remaining st < n ->
  Sp (recover tokens n) st (fun _ st' =>
    reported st' = reported st /\ remaining st' <= remaining st
    /\ (0 < remaining st -> remaining st' < remaining st)).
Proof.
  induction n as [|n IH]; intros st Hn; [lia|]. cbn [recover].
  eapply Sp_bind; [apply peek_spec|]. intros [t|] st1 [-> Hpk]; cbv beta iota.
  - eapply Sp_bind; [apply matches_spec|]. intros [] st1 (H1 & H2 & H3 & H4).
    { apply Sp_ret. specialize (H3 eq_refl). repeat split; lia. }
    specialize (H4 eq_refl).
    eapply Sp_bind; [apply matches_spec|]. intros [] st2 (G1 & G2 & G3 & G4).
    { apply Sp_ret. specialize (G3 eq_refl). repeat split; lia. }
    specialize (G4 eq_refl).
    eapply Sp_bind; [apply consume_spec|]. intros a st3 (K1 & K2 & K3).
    eapply Sp_mono; [apply IH; lia|]. intros _ st4 (J1 & J2 & J3).
    repeat split; lia.
  - apply Sp_ret. repeat split; lia.
Qed.

Lemma oper_any_spec ops : forall st,
  Sp (oper_any tokens ops) st (fun o st' =>
    reported st' = reported st /\ remaining st' <= remaining st
    /\ (is_Some o -> remaining st' < remaining st)
    /\ (o = None -> remaining st' = remaining st)).
Proof.
  induction ops as [|o ops IH]; intros st; cbn [oper_any].
  - apply Sp_ret. repeat split; try lia; intros []; discriminate.
  - eapply Sp_bind; [apply matches_spec|]. intros [] st1 (H1 & H2 & H3 & H4).
    + apply Sp_ret. specialize (H3 eq_refl). repeat split; try lia; discriminate.
    + specialize (H4 eq_refl). eapply Sp_mono; [apply IH|].
      intros a st2 (G1 & G2 & G3 & G4). repeat split; try lia.
      * intros Ha. specialize (G3 Ha). lia.
      * intros Ha. specialize (G4 Ha). lia.
Qed.


Lemma expect_advances ty v msg st :
  Sp (expect tokens ty v msg) st (fun _ st' =>
    remaining st' <= remaining st /\ reported st <= reported st'
    /\ (reported st' = reported st -> remaining st' < remaining st)).
Proof.
  eapply Sp_mono; [apply expect_spec|]. intros a st1 (H1 & H2 & H3 & H4 & H5).
  repeat split; try lia. intros E. auto.
Qed.

Lemma remaining_le st : remaining st <= length tokens.
Proof. unfold remaining. lia. Qed.

(** What a rule promises: it returns; it never goes back in the tokens
    nor takes a diagnostic back; a node that it returns has cost at least
    one token and holds no function declaration; and when it has reported
    nothing, either the tokens are used up or the node is there and is
    well formed. *)
Definition Weak (st : PState) (a : option ASTNode) (st' : PState) : Prop :=
  remaining st' <= remaining st /\ reported st <= reported st'
  /\ (is_Some a -> remaining st' < remaining st)
  /\ Flat a
  /\ (reported st' = reported st -> remaining st' = 0 \/ Ok a).

Lemma Weak_shift st st1 a st2 :
  remaining st1 <= remaining st -> reported st <= reported st1 ->
  Weak st1 a st2 -> Weak st a st2.
Proof.
  intros H1 H2 (E1 & E2 & E3 & E4 & E5). unfold Weak.
  repeat match goal with |- _ /\ _ => split end; try lia; try assumption.
  - intros Ha. specialize (E3 Ha). lia.
  - intros He. apply E5. lia.
Qed.

Definition rules_ok (d : nat) (self : Rules) : Prop :=
  (forall st, remaining st < d -> Sp (ruleStatement self) st (Weak st))
  /\ (forall st, remaining st < d -> Sp (ruleExpression self) st (Weak st))
  /\ (forall st, remaining st < d -> Sp (ruleUnary self) st (Weak st)).

Lemma Forall_push_if (Q : option ASTNode -> Prop) kids x :
  Forall Q kids -> Q x -> Forall Q (push_if kids x).
Proof.
  intros Hk Hx. destruct x; [|exact Hk]. apply Forall_app. split; [exact Hk|].
  now constructor.
Qed.

Lemma length_push_if kids x : Ok x -> length (push_if kids x) = S (length kids).
Proof. intros (n & -> & _). simpl. rewrite length_app. simpl. lia. Qed.

Lemma Ok_Some n : IRGeneratorFacts.well_formed n -> Ok (Some n).
Proof. intros H. now exists n. Qed.

Lemma Ok_None : ~ Ok None.
Proof. now intros (n & [=] & _). Qed.

Lemma Ok_inv n : Ok (Some n) -> IRGeneratorFacts.well_formed n.
Proof. now intros (m & [= ->] & H). Qed.

Ltac some_facts :=
  repeat match goal with
  | H : is_Some (Some ?x) -> _ |- _ => specialize (H (mk_is_Some _ x eq_refl))
  | H : is_Some None -> _ |- _ => clear H
  | H : true = true -> _ |- _ => specialize (H eq_refl)
  | H : false = false -> _ |- _ => specialize (H eq_refl)
  | H : true = false -> _ |- _ => clear H
  | H : false = true -> _ |- _ => clear H
  | H : Some _ = None -> _ |- _ => clear H
  | H : None = None -> _ |- _ => specialize (H eq_refl)
  | H : Ok None |- _ => destruct (Ok_None H)
  end.

(** The case without a new diagnostic: either the tokens are used up, or
    every rule that ran has returned a well-formed node. *)
Ltac clean_run :=
  repeat match goal with
  | H : reported ?a = reported ?b -> _ |- _ =>
      let E := fresh in
      assert (E : reported a = reported b) by lia; specialize (H E); clear E
  end;
  repeat match goal with
  | H : remaining _ = 0 \/ _ |- _ => destruct H as [H|H]; [lia|]
  end;
  some_facts.

Ltac min_children_ok :=
  match goal with
  | |- from_option _ _ (IRGeneratorFacts.min_children ?ty) =>
      let r := eval vm_compute in (IRGeneratorFacts.min_children ty) in
      change (IRGeneratorFacts.min_children ty) with r
  end;
  cbn [from_option];
  repeat first [rewrite length_push_if by assumption | rewrite length_app];
  cbn [length]; first [exact I | lia].

Ltac forall_step :=
  match goal with
  | |- Forall _ [] => constructor
  | |- Forall _ (_ :: _) => constructor
  end.

Ltac node_ok :=
  first
    [ assumption
    | apply Ok_Some; assumption
    | apply Ok_Some; apply well_formed_leaf; reflexivity
    | apply Ok_Some; apply well_formed_node;
      [ repeat first [ assumption | forall_step
                     | apply Forall_push_if | apply Forall_app; split
                     | apply Ok_Some; assumption
                     | apply Ok_Some; apply well_formed_leaf; reflexivity ]
      | min_children_ok ] ].

Ltac node_flat :=
  repeat first
    [ assumption | exact I
    | forall_step | apply Forall_push_if
    | apply Forall_app; split
    | apply flat_leaf; discriminate
    | apply flat_node; [discriminate|]
    | progress cbn [Flat from_option] ].

Ltac weak_end :=
  let He := fresh "He" in
  intros He;
  first
    [ lia
    | match goal with
      | |- remaining ?s = 0 \/ _ =>
          destruct (decide (remaining s = 0)); [now left | right]
      | |- _ => idtac
      end;
      clean_run; node_ok ].

Ltac conj := repeat match goal with |- _ /\ _ => split end.

Ltac arith :=
  conj; try lia; try exact I; try (intros [? [=]]; fail); try solve [node_flat].

Ltac branch :=
  match goal with
  | |- Sp (if ?b then _ else _) _ _ => destruct b eqn:?
  | |- Sp (bind (if ?b then _ else _) _) _ _ => destruct b eqn:?
  end.

Ltac flatten :=
  repeat match goal with
  | |- Sp (bind (ret _) _) _ _ => apply Sp_ret_bind; cbv beta
  | |- Sp (bind (bind _ _) _) _ _ => apply Sp_bind_assoc
  end.

(** The end of a rule: the arithmetic of the tokens and the diagnostics,
    and the form of the node returned. *)
Ltac finish :=
  apply Sp_ret; some_facts; unfold Weak;
  repeat match goal with |- _ /\ _ => split end;
  first
    [ lia
    | intros _; lia
    | intros [? [=]]
    | solve [node_flat]
    | weak_end ].

Section OneLevel.

Variables (fuel d : nat) (self : Rules).
Hypothesis Hfuel : length tokens < fuel.
Hypothesis Hself : rules_ok d self.

Lemma parsePrimary_spec st :
  remaining st <= d -> Sp (parsePrimary tokens self) st (Weak st).
Proof.
  intros Hd. unfold parsePrimary.
  eapply Sp_bind; [apply peek_spec|]. intros [t|] st0 [-> Hpk]; cbv beta iota;
    [|finish].
  repeat (branch;
          [eapply Sp_bind; [apply consume_spec|]; intros ? st1 (H1 & H2 & _); finish|]).
  branch.
  - eapply Sp_bind; [apply consume_spec|]. intros ? st1 (H1 & H2 & _).
    eapply Sp_bind; [apply Hself; lia|]. intros expr st2 (E1 & E2 & E3 & E4 & E5).
    eapply Sp_bind; [apply expect_advances|]. intros _ st3 (X1 & X2 & X3).
    destruct expr as [e|]; finish.
  - eapply Sp_bind; [apply push_error_spec|]. intros _ st1 (H1 & H2).
    finish.
Qed.


Lemma call_args_spec n : forall st args,
  remaining st < n -> remaining st < d -> Forall Flat args ->
  Sp (call_args tokens self n args) st (fun r st' =>
    remaining st' <= remaining st /\ reported st <= reported st'
    /\ Forall Flat r
    /\ (reported st' = reported st ->
        remaining st' = 0 \/ (Forall Ok args -> Forall Ok r))).
Proof.
  induction n as [|n IH]; intros st args Hn Hd Hflat; [lia|]. cbn [call_args].
  eapply Sp_bind; [apply Hself; lia|]. intros arg st1 (E1 & E2 & E3 & E4 & E5).
  eapply Sp_bind; [apply matches_spec|].
  intros [] st2 (M1 & M2 & M3 & M4); some_facts.
  - eapply Sp_mono; [apply IH; [lia | lia | now apply Forall_push_if]|].
    intros r st3 (R1 & R2 & R3 & R4). conj; try lia; [assumption|].
    intros He. destruct (decide (remaining st3 = 0)); [now left|right]. clean_run.
    intros Hargs. apply R4. now apply Forall_push_if.
  - apply Sp_ret. conj; try lia; [now apply Forall_push_if|].
    intros He. destruct (decide (remaining st2 = 0)); [now left|right]. clean_run.
    intros Hargs. now apply Forall_push_if.
Qed.

Lemma finishCall_spec callee st :
  remaining st < d -> flat callee ->
  Sp (finishCall tokens self fuel callee) st (fun r st' =>
    remaining st' <= remaining st /\ reported st <= reported st'
    /\ flat r
    /\ (reported st' = reported st ->
        remaining st' = 0
        \/ (IRGeneratorFacts.well_formed callee -> IRGeneratorFacts.well_formed r))).
Proof.
  intros Hd Hflat. unfold finishCall.
  eapply Sp_bind; [apply matches_spec|].
  intros [] st1 (M1 & M2 & M3 & M4); some_facts; flatten.
  - apply Sp_ret. conj; try lia; [solve [node_flat]|].
    intros He. right. intros Hc. apply well_formed_node; [|min_children_ok].
    constructor; [now apply Ok_Some | constructor].
  - pose proof (remaining_le st1) as Hle.
    eapply Sp_bind; [apply call_args_spec; [lia | lia | constructor]|].
    intros args st2 (A1 & A2 & A3 & A4). flatten.
    eapply Sp_bind; [apply expect_advances|]. intros _ st3 (X1 & X2 & X3).
    flatten. apply Sp_ret. conj; try lia; [solve [node_flat]|].
    intros He. destruct (decide (remaining st3 = 0)); [now left|right]. clean_run.
    intros Hc. apply well_formed_node; [|min_children_ok].
    constructor; [now apply Ok_Some | apply A4; constructor].
Qed.

Lemma call_loop_spec n : forall st e,
  remaining st < n -> remaining st <= d -> flat e ->
  Sp (call_loop tokens self fuel n e) st (fun a st' =>
    remaining st' <= remaining st /\ reported st <= reported st'
    /\ exists r, a = Some r /\ flat r
       /\ (reported st' = reported st ->
           remaining st' = 0
           \/ (IRGeneratorFacts.well_formed e -> IRGeneratorFacts.well_formed r))).
Proof.
  induction n as [|n IH]; intros st e Hn Hd Hflat; [lia|]. cbn [call_loop].
  eapply Sp_bind; [apply matches_spec|].
  intros [] st1 (M1 & M2 & M3 & M4); some_facts.
  - eapply Sp_bind; [apply finishCall_spec; [lia | assumption]|].
    intros e' st2 (F1 & F2 & F3 & F4).
    eapply Sp_mono; [apply IH; [lia | lia | assumption]|].
    intros a st3 (R1 & R2 & r & -> & R3 & R4). conj; try lia.
    exists r. split; [reflexivity|]. split; [assumption|].
    intros He. destruct (decide (remaining st3 = 0)); [now left|right]. clean_run.
    auto.
  - apply Sp_ret. conj; try lia. exists e. split; [reflexivity|]. split; auto.
Qed.

Lemma parseCall_spec st :
  remaining st <= d -> Sp (parseCall tokens self fuel) st (Weak st).
Proof.
  intros Hd. unfold parseCall.
  eapply Sp_bind; [now apply parsePrimary_spec|].
  intros [e|] st1 (E1 & E2 & E3 & E4 & E5); some_facts; [|finish].
  pose proof (remaining_le st1) as Hle.
  eapply Sp_mono; [apply call_loop_spec; [lia | lia | assumption]|].
  intros a st2 (R1 & R2 & r & -> & R3 & R4). unfold Weak.
  conj; try lia; [assumption|].
  intros He. destruct (decide (remaining st2 = 0)); [now left|right]. clean_run.
  apply Ok_Some. apply R4. now apply Ok_inv.
Qed.

Lemma parseUnary_spec st :
  remaining st <= d -> Sp (parseUnary tokens self fuel) st (Weak st).
Proof.
  intros Hd. unfold parseUnary.
  eapply Sp_bind; [apply oper_any_spec|].
  intros [o|] st1 (O1 & O2 & O3 & O4); some_facts.
  - eapply Sp_bind; [apply Hself; lia|].
    intros [r|] st2 (E1 & E2 & E3 & E4 & E5); some_facts; [|finish].
    destruct (decide (o = "!")); finish.
  - eapply Sp_mono; [apply parseCall_spec; lia|]. intros a st2 HW.
    apply (Weak_shift st st1); [lia | lia | assumption].
Qed.


(** *** The binary levels *)

Section Binary.

Variables (ops : list string) (kind : string -> string).
Variable operand : P (option ASTNode).
Hypothesis Hkind_flat : forall o, kind o <> "FunctionDeclaration".
Hypothesis Hkind_min : forall o, IRGeneratorFacts.min_children (kind o) = Some 2.
Hypothesis Hoperand : forall st, remaining st <= d -> Sp operand st (Weak st).

Lemma binary_loop_spec n : forall st expr,
  remaining st < n -> remaining st <= d -> Flat expr ->
  Sp (binary_loop tokens n ops kind operand expr) st (fun a st' =>
    remaining st' <= remaining st /\ reported st <= reported st'
    /\ (is_Some a -> is_Some expr \/ remaining st' < remaining st)
    /\ Flat a
    /\ (reported st' = reported st -> remaining st' = 0 \/ (Ok expr -> Ok a))).
Proof.
  induction n as [|n IH]; intros st expr Hn Hd Hflat; [lia|]. cbn [binary_loop].
  eapply Sp_bind; [apply oper_any_spec|].
  intros [o|] st1 (O1 & O2 & O3 & O4); some_facts.
  - eapply Sp_bind; [apply Hoperand; lia|].
    intros [r|] st2 (E1 & E2 & E3 & E4 & E5); some_facts.
    + eapply Sp_mono; [apply IH; [lia | lia | ]|].
      { apply flat_node; [apply Hkind_flat|]. repeat constructor; assumption. }
      intros a st3 (R1 & R2 & R3 & R4 & R5). conj; try lia; try assumption.
      intros He. destruct (decide (remaining st3 = 0)); [now left|right].
      clean_run. intros Hexpr. apply R5. apply Ok_Some. apply well_formed_node.
      * repeat constructor; assumption.
      * rewrite Hkind_min. simpl. lia.
    + apply Sp_ret. conj; try lia; try exact I.
      intros He. destruct (decide (remaining st2 = 0)); [now left|]. clean_run.
  - apply Sp_ret. conj; try lia; auto.
Qed.

Lemma binary_level_spec st :
  remaining st <= d -> Sp (binary_level tokens fuel ops kind operand) st (Weak st).
Proof.
  intros Hd. unfold binary_level.
  eapply Sp_bind; [now apply Hoperand|].
  intros expr st1 (E1 & E2 & E3 & E4 & E5). pose proof (remaining_le st1) as Hle.
  eapply Sp_mono; [apply binary_loop_spec; [lia | lia | assumption]|].
  intros a st2 (R1 & R2 & R3 & R4 & R5). unfold Weak. conj; try lia; try assumption.
  - intros Ha. destruct (R3 Ha) as [He|]; [|lia]. specialize (E3 He). lia.
  - intros He. destruct (decide (remaining st2 = 0)); [now left|right].
    clean_run. auto.
Qed.

End Binary.

Ltac kinds :=
  intros o; cbv beta; unfold factor_kind, comparison_kind;
  repeat case_decide; first [discriminate | reflexivity].

Lemma parseFactor_spec st :
  remaining st <= d -> Sp (parseFactor tokens self fuel) st (Weak st).
Proof. apply binary_level_spec; [kinds | kinds | apply parseUnary_spec]. Qed.

Lemma parseTerm_spec st :
  remaining st <= d -> Sp (parseTerm tokens self fuel) st (Weak st).
Proof. apply binary_level_spec; [kinds | kinds | apply parseFactor_spec]. Qed.

Lemma parseComparison_spec st :
  remaining st <= d -> Sp (parseComparison tokens self fuel) st (Weak st).
Proof. apply binary_level_spec; [kinds | kinds | apply parseTerm_spec]. Qed.

Lemma parseEquality_spec st :
  remaining st <= d -> Sp (parseEquality tokens self fuel) st (Weak st).
Proof. apply binary_level_spec; [kinds | kinds | apply parseComparison_spec]. Qed.

Lemma parseLogicalAnd_spec st :
  remaining st <= d -> Sp (parseLogicalAnd tokens self fuel) st (Weak st).
Proof. apply binary_level_spec; [kinds | kinds | apply parseEquality_spec]. Qed.

Lemma parseLogicalOr_spec st :
  remaining st <= d -> Sp (parseLogicalOr tokens self fuel) st (Weak st).
Proof. apply binary_level_spec; [kinds | kinds | apply parseLogicalAnd_spec]. Qed.

Lemma parseExpression_spec st :
  remaining st <= d -> Sp (parseExpression tokens self fuel) st (Weak st).
Proof.
  intros Hd. unfold parseExpression, parseAssignment.
  eapply Sp_bind; [now apply parseLogicalOr_spec|].
  intros [l|] st1 (E1 & E2 & E3 & E4 & E5); some_facts; [|finish].
  eapply Sp_bind; [apply matches_spec|].
  intros [] st2 (M1 & M2 & M3 & M4); some_facts; [|finish].
  eapply Sp_bind; [apply Hself; lia|].
  intros [r|] st3 (R1 & R2 & R3 & R4 & R5); some_facts; finish.
Qed.

(** *** The statements *)

Lemma parseExpressionStatement_spec st :
  remaining st <= d -> Sp (parseExpressionStatement tokens self fuel) st (Weak st).
Proof.
  intros Hd. unfold parseExpressionStatement.
  eapply Sp_bind; [now apply parseExpression_spec|].
  intros [e|] st1 (E1 & E2 & E3 & E4 & E5); some_facts; [|finish].
  eapply Sp_bind; [apply expect_advances|]. intros _ st2 (X1 & X2 & X3). finish.
Qed.

Lemma parsePrintStatement_spec st :
  0 < remaining st -> remaining st <= d ->
  Sp (parsePrintStatement tokens self fuel) st (Weak st).
Proof.
  intros Hpos Hd. unfold parsePrintStatement.
  eapply Sp_bind; [apply consume_spec|]. intros a st1 (C1 & C2 & C3).
  destruct (C3 Hpos) as [t ->].
  eapply Sp_bind; [apply expect_advances|]. intros _ st2 (X1 & X2 & X3).
  eapply Sp_bind; [apply parseExpression_spec; lia|].
  intros e st3 (E1 & E2 & E3 & E4 & E5).
  eapply Sp_bind; [apply expect_advances|]. intros _ st4 (Y1 & Y2 & Y3).
  eapply Sp_bind; [apply expect_advances|]. intros _ st5 (Z1 & Z2 & Z3).
  finish.
Qed.

Lemma parseReturnStatement_spec st :
  0 < remaining st -> remaining st <= d ->
  Sp (parseReturnStatement tokens self fuel) st (Weak st).
Proof.
  intros Hpos Hd. unfold parseReturnStatement.
  eapply Sp_bind; [apply consume_spec|]. intros a st1 (C1 & C2 & C3).
  destruct (C3 Hpos) as [t ->].
  eapply Sp_bind; [apply matches_spec|].
  intros [] st2 (M1 & M2 & M3 & M4); some_facts; flatten; [finish|].
  eapply Sp_bind; [apply parseExpression_spec; lia|].
  intros e st3 (E1 & E2 & E3 & E4 & E5). flatten.
  eapply Sp_bind; [apply expect_advances|]. intros _ st4 (Y1 & Y2 & Y3). flatten.
  finish.
Qed.

(** What a declaration promises: a node, without a function declaration
    below it, that is well formed when nothing was reported. *)
Definition Declared (st : PState) (a : option ASTNode) (st' : PState) : Prop :=
  remaining st' <= remaining st /\ reported st <= reported st'
  /\ exists n, a = Some n /\ node_type n = "VariableDeclaration" /\ flat n
     /\ (reported st' = reported st -> IRGeneratorFacts.well_formed n).

Ltac declaration_end :=
  apply Sp_ret; some_facts; unfold Declared; conj; try lia;
  eexists; split; [reflexivity|]; split; [reflexivity|]; split;
  [ solve [node_flat] | intros He; clean_run; apply Ok_inv; node_ok ].

Lemma parseVariableDeclaration_spec t i st :
  remaining st <= d ->
  Sp (parseVariableDeclaration tokens self fuel t i) st (Declared st).
Proof.
  intros Hd. unfold parseVariableDeclaration.
  eapply Sp_bind; [apply matches_spec|].
  intros [] st1 (M1 & M2 & M3 & M4); some_facts; flatten.
  - eapply Sp_bind; [apply parseExpression_spec; lia|].
    intros e st2 (E1 & E2 & E3 & E4 & E5). flatten.
    eapply Sp_bind; [apply expect_advances|]. intros _ st3 (Y1 & Y2 & Y3).
    declaration_end.
  - eapply Sp_bind; [apply expect_advances|]. intros _ st3 (Y1 & Y2 & Y3).
    declaration_end.
Qed.

Lemma block_loop_spec n : forall st kids,
  remaining st < n -> remaining st < d -> Forall Flat kids ->
  Sp (block_loop tokens self fuel n kids) st (fun r st' =>
    remaining st' <= remaining st /\ reported st <= reported st'
    /\ Forall Flat r
    /\ (reported st' = reported st ->
        remaining st' = 0 \/ (Forall Ok kids -> Forall Ok r))).
Proof.
  induction n as [|n IH]; intros st kids Hn Hd Hflat; [lia|]. cbn [block_loop].
  eapply Sp_bind; [apply peek_spec|]. intros [t|] st0 [-> Hpk]; cbv beta iota.
  - branch; [apply Sp_ret; conj; try lia; auto|].
    eapply Sp_bind; [apply Hself; lia|].
    intros [s|] st1 (E1 & E2 & E3 & E4 & E5); some_facts.
    + eapply Sp_mono; [apply IH; [lia | lia |]|].
      { apply Forall_app. split; [assumption|]. now constructor. }
      intros r st2 (R1 & R2 & R3 & R4). conj; try lia; [assumption|].
      intros He. destruct (decide (remaining st2 = 0)); [now left|right].
      clean_run. intros Hk. apply R4. apply Forall_app. split; [assumption|].
      now constructor.
    + pose proof (remaining_le st1) as Hle.
      eapply Sp_bind; [apply recover_spec; lia|]. intros _ st2 (V1 & V2 & V3).
      eapply Sp_mono; [apply IH; [lia | lia | assumption]|].
      intros r st3 (R1 & R2 & R3 & R4). conj; try lia; [assumption|].
      intros He. destruct (decide (remaining st3 = 0)); [now left|]. clean_run.
  - apply Sp_ret. conj; try lia; auto.
Qed.

(** What a block promises: as [Weak], and when nothing was reported the
    block is there and well formed, whatever is left of the tokens. *)
Definition Strong (st : PState) (a : option ASTNode) (st' : PState) : Prop :=
  remaining st' <= remaining st /\ reported st <= reported st'
  /\ (is_Some a -> remaining st' < remaining st)
  /\ Flat a
  /\ (reported st' = reported st -> Ok a).

Lemma Strong_Weak st a st' : Strong st a st' -> Weak st a st'.
Proof. intros (H1 & H2 & H3 & H4 & H5). unfold Weak. conj; auto. Qed.

Lemma parseBlock_spec st :
  remaining st <= d -> Sp (parseBlock tokens self fuel) st (Strong st).
Proof.
  intros Hd. unfold parseBlock.
  eapply Sp_bind; [apply matches_spec|].
  intros [] st1 (M1 & M2 & M3 & M4); some_facts.
  - pose proof (remaining_le st1) as Hle.
    eapply Sp_bind; [apply block_loop_spec; [lia | lia | constructor]|].
    intros kids st2 (B1 & B2 & B3 & B4).
    eapply Sp_bind; [apply expect_advances|]. intros _ st3 (X1 & X2 & X3).
    apply Sp_ret. unfold Strong. arith.
    intros He. clean_run. apply Ok_Some. apply well_formed_node; [|exact I].
    apply B4. constructor.
  - eapply Sp_bind; [apply peek_spec|]. intros token st0 [-> _].
    eapply Sp_bind; [apply push_error_spec|]. intros _ st2 (H1 & H2).
    apply Sp_ret. unfold Strong. arith.
Qed.

Lemma parseIfStatement_spec st :
  0 < remaining st -> remaining st <= d ->
  Sp (parseIfStatement tokens self fuel) st (Weak st).
Proof.
  intros Hpos Hd. unfold parseIfStatement.
  eapply Sp_bind; [apply consume_spec|]. intros a st1 (C1 & C2 & _).
  eapply Sp_bind; [apply expect_advances|]. intros _ st2 (X1 & X2 & X3).
  eapply Sp_bind; [apply parseExpression_spec; lia|].
  intros c st3 (E1 & E2 & E3 & E4 & E5).
  eapply Sp_bind; [apply expect_advances|]. intros _ st4 (Y1 & Y2 & Y3).
  eapply Sp_bind; [apply Hself; lia|]. intros b st5 (T1 & T2 & T3 & T4 & T5).
  eapply Sp_bind; [apply matches_spec|].
  intros [] st6 (M1 & M2 & M3 & M4); some_facts; flatten; [|finish].
  eapply Sp_bind; [apply Hself; lia|]. intros e st7 (F1 & F2 & F3 & F4 & F5).
  flatten. finish.
Qed.

Lemma parseWhileStatement_spec st :
  0 < remaining st -> remaining st <= d ->
  Sp (parseWhileStatement tokens self fuel) st (Weak st).
Proof.
  intros Hpos Hd. unfold parseWhileStatement.
  eapply Sp_bind; [apply consume_spec|]. intros a st1 (C1 & C2 & _).
  eapply Sp_bind; [apply expect_advances|]. intros _ st2 (X1 & X2 & X3).
  eapply Sp_bind; [apply parseExpression_spec; lia|].
  intros c st3 (E1 & E2 & E3 & E4 & E5).
  eapply Sp_bind; [apply expect_advances|]. intros _ st4 (Y1 & Y2 & Y3).
  eapply Sp_bind; [apply Hself; lia|]. intros b st5 (T1 & T2 & T3 & T4 & T5).
  finish.
Qed.

Lemma parseForStatement_spec st :
  0 < remaining st -> remaining st <= d ->
  Sp (parseForStatement tokens self fuel) st (Weak st).
Proof.
  intros Hpos Hd. unfold parseForStatement.
  eapply Sp_bind; [apply consume_spec|]. intros a st1 (C1 & C2 & _).
  eapply Sp_bind; [apply expect_advances|]. intros _ st2 (X1 & X2 & X3).
  eapply Sp_bind; [apply matches_spec|].
  intros semi1 st3 (M1 & M2 & M3 & M4).
  assert (Hinit : Sp (if semi1 then ret [empty_node]
                      else do initialization <- ruleStatement self;
                           ret (push_if [] initialization)) st3
            (fun kids st' =>
               remaining st' <= remaining st3 /\ reported st3 <= reported st'
               /\ Forall Flat kids
               /\ (reported st' = reported st3 ->
                   remaining st' = 0 \/ (Forall Ok kids /\ length kids = 1)))).
  { destruct semi1.
    - apply Sp_ret. conj; try lia; [solve [node_flat]|]. intros _. right.
      split; [|reflexivity]. repeat constructor. apply Ok_Some.
      now apply well_formed_leaf.
    - eapply Sp_bind; [apply Hself; lia|]. intros i st4 (I1 & I2 & I3 & I4 & I5).
      apply Sp_ret. conj; try lia; [solve [node_flat]|].
      intros He. destruct (I5 He) as [|Hi]; [now left|right].
      split; [now apply Forall_push_if | now rewrite length_push_if]. }
  eapply Sp_bind; [exact Hinit|]. clear Hinit.
  intros kids1 st4 (K1 & K2 & K3 & K4).
  eapply Sp_bind; [apply matches_spec|].
  intros semi2 st5 (N1 & N2 & N3 & N4).
  assert (Hcond : Sp (if semi2 then ret (kids1 ++ [empty_node])
                      else do condition <- parseExpression tokens self fuel;
                           run expect_punct tokens ";"
                                 "Expected semicolon after for condition";
                           ret (push_if kids1 condition)) st5
            (fun kids st' =>
               remaining st' <= remaining st5 /\ reported st5 <= reported st'
               /\ Forall Flat kids
               /\ (reported st' = reported st5 ->
                   remaining st' = 0
                   \/ (Forall Ok kids1 -> Forall Ok kids
                                          /\ length kids = S (length kids1))))).
  { destruct semi2.
    - apply Sp_ret. conj; try lia; [solve [node_flat]|]. intros _. right.
      intros Hk. split; [|rewrite length_app; simpl; lia].
      apply Forall_app. split; [assumption|]. repeat constructor. apply Ok_Some.
      now apply well_formed_leaf.
    - eapply Sp_bind; [apply parseExpression_spec; lia|].
      intros c st6 (E1 & E2 & E3 & E4 & E5).
      eapply Sp_bind; [apply expect_advances|]. intros _ st7 (Y1 & Y2 & Y3).
      apply Sp_ret. conj; try lia; [solve [node_flat]|].
      intros He. destruct (decide (remaining st7 = 0)); [now left|right].
      clean_run. intros Hk.
      split; [now apply Forall_push_if | now rewrite length_push_if]. }
  eapply Sp_bind; [exact Hcond|]. clear Hcond.
  intros kids2 st6 (L1 & L2 & L3 & L4).
  eapply Sp_bind; [apply matches_spec|].
  intros close st7 (Q1 & Q2 & Q3 & Q4).
  assert (Hincr : Sp (if close then ret (kids2 ++ [empty_node])
                      else do increment <- parseExpression tokens self fuel;
                           run expect_punct tokens ")"
                                 "Expected closing parenthesis after for increment";
                           ret (push_if kids2 increment)) st7
            (fun kids st' =>
               remaining st' <= remaining st7 /\ reported st7 <= reported st'
               /\ Forall Flat kids
               /\ (reported st' = reported st7 ->
                   remaining st' = 0
                   \/ (Forall Ok kids2 -> Forall Ok kids
                                          /\ length kids = S (length kids2))))).
  { destruct close.
    - apply Sp_ret. conj; try lia; [solve [node_flat]|]. intros _. right.
      intros Hk. split; [|rewrite length_app; simpl; lia].
      apply Forall_app. split; [assumption|]. repeat constructor. apply Ok_Some.
      now apply well_formed_leaf.
    - eapply Sp_bind; [apply parseExpression_spec; lia|].
      intros c st8 (E1 & E2 & E3 & E4 & E5).
      eapply Sp_bind; [apply expect_advances|]. intros _ st9 (Y1 & Y2 & Y3).
      apply Sp_ret. conj; try lia; [solve [node_flat]|].
      intros He. destruct (decide (remaining st9 = 0)); [now left|right].
      clean_run. intros Hk.
      split; [now apply Forall_push_if | now rewrite length_push_if]. }
  eapply Sp_bind; [exact Hincr|]. clear Hincr.
  intros kids3 st8 (R1 & R2 & R3 & R4).
  eapply Sp_bind; [apply Hself; lia|]. intros b st9 (T1 & T2 & T3 & T4 & T5).
  apply Sp_ret. unfold Weak. arith.
  intros He. destruct (decide (remaining st9 = 0)); [now left|right].
  clean_run. destruct K4 as [Hk1 Hl1]. destruct (L4 Hk1) as [Hk2 Hl2].
  destruct (R4 Hk2) as [Hk3 Hl3]. apply Ok_Some. apply well_formed_node.
  - now apply Forall_push_if.
  - change (IRGeneratorFacts.min_children "ForStatement") with (Some 4).
    cbn [from_option]. rewrite length_push_if by assumption. lia.
Qed.

Lemma parseStatement_spec st :
  remaining st <= d -> Sp (parseStatement tokens self fuel) st (Weak st).
Proof.
  intros Hd. unfold parseStatement.
  eapply Sp_bind; [apply peek_spec|]. intros [t|] st0 [-> Hpk]; cbv beta iota zeta;
    [|finish].
  branch.
  { eapply Sp_mono; [now apply parseBlock_spec | intros; now apply Strong_Weak]. }
  branch; [now apply parseIfStatement_spec|].
  branch; [now apply parseWhileStatement_spec|].
  branch; [now apply parseForStatement_spec|].
  branch; [now apply parseReturnStatement_spec|].
  branch; [now apply parsePrintStatement_spec|].
  branch; [|now apply parseExpressionStatement_spec].
  eapply Sp_bind; [apply consume_spec|]. intros a st1 (C1 & C2 & _).
  eapply Sp_bind; [apply expect_spec|].
  intros [i|] st2 (X1 & X2 & X3 & X4 & X5); some_facts.
  - eapply Sp_mono; [apply parseVariableDeclaration_spec; lia|].
    intros r st3 (V1 & V2 & n & -> & _ & V3 & V4). unfold Weak. arith.
    intros He. right. apply Ok_Some. apply V4. lia.
  - apply Sp_ret. unfold Weak. arith.
    intros He. assert (E : reported st2 = reported st1) by lia.
    destruct (X4 E) as [? [=]].
Qed.


(** *** The declarations *)

Lemma parameter_ok ty name :
  Ok (Some (inner "Parameter" [Some (leaf "Type" ty); Some (leaf "Identifier" name)])).
Proof. node_ok. Qed.

Lemma param_loop_spec n : forall st params,
  remaining st < n -> Forall parameter_node params ->
  Sp (param_loop tokens n params) st (fun r st' =>
    remaining st' <= remaining st /\ reported st <= reported st'
    /\ Forall parameter_node r).
Proof.
  induction n as [|n IH]; intros st params Hn Hpar; [lia|]. cbn [param_loop].
  eapply Sp_bind; [apply expect_spec|]. intros ty st1 (X1 & X2 & _).
  eapply Sp_bind; [apply expect_spec|]. intros name st2 (Y1 & Y2 & _).
  cbv zeta.
  match goal with
  | |- Sp (bind _ (fun comma => if comma then param_loop _ _ ?p else _)) _ _ =>
      assert (Hp : Forall parameter_node p)
  end.
  { destruct ty as [ty|], name as [name|]; try assumption.
    apply Forall_app. split; [assumption|]. constructor; [|constructor].
    now exists ty, name. }
  eapply Sp_bind; [apply matches_spec|].
  intros [] st3 (M1 & M2 & M3 & M4); some_facts.
  - eapply Sp_mono; [apply IH; [lia | assumption]|].
    intros r st4 (R1 & R2 & R3). conj; try lia; assumption.
  - apply Sp_ret. conj; try lia; assumption.
Qed.

Lemma parameter_node_Ok k : parameter_node k -> Ok k.
Proof. intros (ty & name & ->). apply parameter_ok. Qed.

Definition Top (k : option ASTNode) : Prop := exists n, k = Some n /\ top_level n.

Lemma parseFunctionDeclaration_spec t i st :
  remaining st <= d ->
  Sp (parseFunctionDeclaration tokens self fuel t i) st (fun a st' =>
    remaining st' <= remaining st /\ reported st <= reported st'
    /\ Top a /\ (reported st' = reported st -> Ok a)).
Proof.
  intros Hd. unfold parseFunctionDeclaration. cbv zeta.
  eapply Sp_bind; [apply expect_advances|]. intros _ st1 (X1 & X2 & X3).
  eapply Sp_bind; [apply matches_spec|].
  intros close st2 (M1 & M2 & M3 & M4).
  assert (Hparams : Sp (if close then ret []
                        else do params <- param_loop tokens fuel [];
                             run expect_punct tokens ")"
                                   "Expected closing parenthesis or comma";
                             ret params) st2
            (fun params st' =>
               remaining st' <= remaining st2 /\ reported st2 <= reported st'
               /\ Forall parameter_node params)).
  { destruct close.
    - apply Sp_ret. conj; try lia; constructor.
    - pose proof (remaining_le st2) as Hle.
      eapply Sp_bind; [apply param_loop_spec; [lia | constructor]|].
      intros params st3 (P1 & P2 & P3).
      eapply Sp_bind; [apply expect_advances|]. intros _ st4 (Y1 & Y2 & Y3).
      apply Sp_ret. conj; try lia; assumption. }
  eapply Sp_bind; [exact Hparams|]. clear Hparams.
  intros params st3 (P1 & P2 & P3).
  assert (Hp : Ok (Some (inner "Parameters" params))).
  { apply Ok_Some. apply well_formed_node; [|exact I].
    eapply Forall_impl; [exact P3 | apply parameter_node_Ok]. }
  eapply Sp_bind; [apply parseBlock_spec; lia|].
  intros body st4 (B1 & B2 & B3 & B4 & B5).
  apply Sp_ret. conj; try lia.
  - eexists. split; [reflexivity|]. right. now exists t, i, params, body.
  - intros He. clean_run. node_ok.
Qed.

Lemma parseDeclaration_spec st :
  0 < remaining st -> remaining st <= d ->
  Sp (parseDeclaration tokens self fuel) st (fun a st' =>
    remaining st' <= remaining st /\ reported st <= reported st'
    /\ (is_Some a -> remaining st' < remaining st)
    /\ (is_Some a -> Top a)
    /\ (reported st' = reported st -> Ok a)).
Proof.
  intros Hpos Hd. unfold parseDeclaration.
  eapply Sp_bind; [apply peek_spec|]. intros [t|] st0 [-> Hpk]; cbv beta iota;
    [|exfalso; lia].
  branch.
  - eapply Sp_bind; [apply consume_spec|]. intros a st1 (C1 & C2 & _).
    eapply Sp_bind; [apply expect_spec|].
    intros [i|] st2 (X1 & X2 & X3 & X4 & X5); some_facts.
    + eapply Sp_bind; [apply peek_spec|]. intros next st0 [-> _]. branch.
      * eapply Sp_mono; [apply parseFunctionDeclaration_spec; lia|].
        intros r st3 (V1 & V2 & V3 & V4). conj; try lia; auto.
        intros He. apply V4. lia.
      * eapply Sp_mono; [apply parseVariableDeclaration_spec; lia|].
        intros r st3 (V1 & V2 & n & -> & V3 & V4 & V5). conj; try lia.
        -- intros _. exists n. split; [reflexivity|]. now left.
        -- intros He. apply Ok_Some. apply V5. lia.
    + apply Sp_ret. arith. intros He.
      assert (E : reported st2 = reported st1) by lia. destruct (X4 E) as [? [=]].
  - eapply Sp_bind; [apply push_error_spec|]. intros _ st1 (H1 & H2).
    apply Sp_ret. arith.
Qed.

Lemma program_loop_spec n : forall st kids,
  remaining st < n -> remaining st <= d -> Forall Top kids ->
  Sp (program_loop tokens self fuel n kids) st (fun r st' =>
    reported st <= reported st'
    /\ Forall Top r
    /\ (reported st' = reported st -> Forall Ok kids -> Forall Ok r)).
Proof.
  induction n as [|n IH]; intros st kids Hn Hd Htop; [lia|]. cbn [program_loop].
  eapply Sp_bind; [apply peek_spec|]. intros [t|] st0 [-> Hpk]; cbv beta iota.
  - eapply Sp_bind; [now apply parseDeclaration_spec|].
    intros [decl|] st1 (E1 & E2 & E3 & E4 & E5); some_facts.
    + eapply Sp_mono; [apply IH; [lia | lia |]|].
      { apply Forall_app. split; [assumption|]. now constructor. }
      intros r st2 (R1 & R2 & R3). conj; try lia; [assumption|].
      intros He Hk. apply R3; [lia|]. apply Forall_app. split; [assumption|].
      constructor; [|constructor]. apply E5. lia.
    + pose proof (remaining_le st1) as Hle.
      eapply Sp_bind; [apply recover_spec; lia|]. intros _ st2 (V1 & V2 & V3).
      eapply Sp_mono; [apply IH; [lia | lia | assumption]|].
      intros r st3 (R1 & R2 & R3). conj; try lia; [assumption|].
      intros He Hk. assert (E : reported st1 = reported st) by lia.
      destruct (Ok_None (E5 E)).
  - apply Sp_ret. conj; try lia; auto.
Qed.

Lemma parseProgram_spec st :
  remaining st <= d ->
  Sp (parseProgram tokens self fuel) st (fun ast st' =>
    exists kids, ast = inner "Program" kids /\ Forall Top kids
      /\ (reported st' = reported st -> IRGeneratorFacts.well_formed ast)).
Proof.
  intros Hd. unfold parseProgram. pose proof (remaining_le st) as Hle.
  eapply Sp_bind; [apply program_loop_spec; [lia | lia | constructor]|].
  intros kids st1 (R1 & R2 & R3). apply Sp_ret. exists kids.
  split; [reflexivity|]. split; [assumption|]. intros He.
  apply well_formed_node; [|exact I]. apply R3; [assumption | constructor].
Qed.

End OneLevel.

(** The rules at every depth do what a rule promises, on the inputs
    that leave them depth enough. *)
Lemma rules_ok_rules fuel :
  length tokens < fuel -> forall d, rules_ok d (rules tokens fuel d).
Proof.
  intros Hfuel. induction d as [|d IH].
  - repeat split; intros st H; lia.
  - cbn [rules]. repeat split; intros st H; cbn [ruleStatement ruleExpression ruleUnary].
    + apply (parseStatement_spec fuel d _ Hfuel IH). lia.
    + apply (parseExpression_spec fuel d _ Hfuel IH). lia.
    + apply (parseUnary_spec fuel d _ Hfuel IH). lia.
Qed.

Lemma parse_spec :
  exists kids errs,
    parse tokens = Some (inner "Program" kids, errs)
    /\ Forall Top kids
    /\ (errs = [] -> IRGeneratorFacts.well_formed (inner "Program" kids)).
Proof.
  unfold parse, parse_fuel. set (fuel := S (length tokens)).
  assert (Hfuel : length tokens < fuel) by (unfold fuel; lia).
  destruct (parseProgram_spec fuel fuel _ Hfuel (rules_ok_rules fuel Hfuel fuel)
              (mkP 0 [])) as (ast & st & E & kids & -> & Htop & Hwf).
  { unfold remaining, fuel. simpl. lia. }
  rewrite E. exists kids, (perrors st). split; [reflexivity|].
  split; [assumption|]. intros He. apply Hwf. unfold reported. now rewrite He.
Qed.

End WithTokens.

(** X19: the parser returns on every list of tokens, and what it returns is
    a [Program] node all of whose children are there; each child is a
    variable declaration or a function declaration, and no function
    declaration occurs anywhere below a child: functions are never
    nested. *)
Theorem parse_returns_program (tokens : list Token) :
  exists kids errs,
    parse tokens = Some (inner "Program" kids, errs)
    /\ Forall (fun k => exists n, k = Some n /\ top_level n) kids.
Proof.
  destruct (parse_spec tokens) as (kids & errs & E & Htop & _).
  exists kids, errs. split; [exact E | exact Htop].
Qed.

(** X20: a parse without a diagnostic gives a well-formed tree: no child is
    missing, and every node has the children that the later phases read
    by position. *)
Theorem parse_clean_well_formed (tokens : list Token) (ast : ASTNode) :
  parse tokens = Some (ast, []) -> IRGeneratorFacts.well_formed ast.
Proof.
  intros H. destruct (parse_spec tokens) as (kids & errs & E & _ & Hwf).
  rewrite E in H. injection H as <- ->. now apply Hwf.
Qed.

Definition minimal_tokens : list Token :=
  (Lexer.tokenize AnalyzerFacts.minimal_source).1.

Lemma parse_clean_well_formed_witness :
  parse minimal_tokens = Some (AnalyzerFacts.minimal_ast, [])
  /\ IRGeneratorFacts.well_formed AnalyzerFacts.minimal_ast.
Proof.
  assert (H : parse minimal_tokens = Some (AnalyzerFacts.minimal_ast, []))
    by (vm_compute; reflexivity).
  split; [exact H|]. exact (parse_clean_well_formed minimal_tokens _ H).
Defined.

(** X21: the IR generator returns on every tree that the parser has
    returned without a diagnostic: it reads no child that is not there. *)
Theorem parse_clean_generateIR (tokens : list Token) (ast : ASTNode) :
  parse tokens = Some (ast, []) ->
  exists ir, IRGenerator.generateIR ast = Some ir.
Proof.
  intros H. destruct (parse_spec tokens) as (kids & errs & E & _ & Hwf).
  rewrite E in H. injection H as <- ->. specialize (Hwf eq_refl).
  unfold IRGenerator.generateIR.
  destruct (IRGeneratorFacts.Runs_visitNode _ Hwf (IRGenerator.mkGen [] 0 0))
    as [[r st] ->].
  eexists. reflexivity.
Qed.

Lemma parse_clean_generateIR_witness :
  parse minimal_tokens = Some (AnalyzerFacts.minimal_ast, [])
  /\ exists ir, IRGenerator.generateIR AnalyzerFacts.minimal_ast = Some ir.
Proof.
  assert (H : parse minimal_tokens = Some (AnalyzerFacts.minimal_ast, []))
    by (vm_compute; reflexivity).
  split; [exact H|]. exact (parse_clean_generateIR minimal_tokens _ H).
Defined.

(** X22: on the tree of any parse, with or without diagnostics, semantic
    analysis ends in the global scope, when it returns and the
    identifiers drawn for the block scopes are pairwise distinct: the
    parser never nests functions. *)
Theorem parse_analyze_currentScope (rnd : nat -> string) (tokens : list Token)
    (ast : ASTNode) (perrs : list CompilerError)
    (table : Analyzer.SymbolTable) (errs : list CompilerError) :
  Inj (=) (=) rnd ->
  parse tokens = Some (ast, perrs) ->
  Analyzer.analyze rnd ast = Some (table, errs) ->
  Analyzer.currentScope table = "global".
Proof.
  intros Hinj Hp H. destruct (parse_spec tokens) as (kids & errs' & E & Htop & _).
  rewrite E in Hp. injection Hp as <- _.
  pose proof (program_nested_ok kids Htop) as Hok.
  unfold Analyzer.analyze in H.
  destruct (Analyzer.visitNode rnd (inner "Program" kids) Analyzer.initial_state)
    as [[[] st]|] eqn:Ev; [|discriminate].
  injection H as <- _.
  assert (Hpr : AnalyzerFacts.protected rnd [] (Analyzer.draws Analyzer.initial_state)
                  (Analyzer.currentScope (Analyzer.symbolTable Analyzer.initial_state)))
    by now left.
  destruct (AnalyzerFacts.Keeps_visitNode rnd Hinj _ [] Hok _ _ _ Ev Hpr) as (C & _).
  exact C.
Qed.

Lemma parse_analyze_currentScope_witness :
  Inj (=) (=) (pretty : nat -> string)
  /\ parse (Lexer.tokenize AnalyzerFacts.nested_blocks_source).1
     = Some (AnalyzerFacts.nested_blocks_ast, [])
  /\ exists table errs,
       Analyzer.analyze pretty AnalyzerFacts.nested_blocks_ast = Some (table, errs)
       /\ Analyzer.currentScope table = "global".
Proof.
  assert (Hp : parse (Lexer.tokenize AnalyzerFacts.nested_blocks_source).1
               = Some (AnalyzerFacts.nested_blocks_ast, []))
    by (vm_compute; reflexivity).
  split; [apply _|]. split; [exact Hp|].
  destruct (Analyzer.analyze pretty AnalyzerFacts.nested_blocks_ast)
    as [[table errs]|] eqn:E; [|vm_compute in E; discriminate E].
  exists table, errs. split; [reflexivity|].
  exact (parse_analyze_currentScope pretty _ _ _ table errs _ Hp E).
Defined.

End ParserProperties.

(** * Semantic analysis returns on parsed programs *)

Module AnalyzerRuns.
Import Analyzer.

Section WithRandom.

Variable rnd : nat -> string.
Hypothesis rnd_inj : Inj (=) (=) rnd.

(** The names of the scopes: the global scope, the scope of a function,
    and the scope of a block, whose identifier was drawn before the
    [d]-th draw. *)
Definition named (d : nat) (s : string) : Prop :=
  s = "global" \/ startsWith "function_" s = true
  \/ exists k, k < d /\ s = "block_" +:+ rnd k.

(** [linked sc p]: [p] is a chain of scopes of [sc], each the parent of
    the one before, up to a scope without a parent. *)
Fixpoint linked (sc : gmap string Scope) (p : list string) : Prop :=
  match p with
  | [] => False
  | a :: q =>
      exists s, sc !! a = Some s
        /\ match q with
           | [] => parent s = None
           | b :: _ => parent s = Some b /\ linked sc q
           end
  end.

(** The state of a walk whose open scopes are [p], innermost first. *)
Record Inv (p : list string) (st : AState) : Prop := mkInv {
  inv_nodup : NoDup p;
  inv_linked : linked (scopes (symbolTable st)) p;
  inv_current : head p = Some (currentScope (symbolTable st));
  inv_named : Forall (named (draws st)) p;
  inv_global : is_Some (scopes (symbolTable st) !! "global")
}.

Lemma named_nonempty d s : named d s -> s <> "".
Proof. intros [->|[H|(k & _ & ->)]]; [discriminate | now intros -> | discriminate]. Qed.



Lemma linked_agree sc sc' p :
  linked sc p ->
  (forall a s, a ∈ p -> sc !! a = Some s ->
     exists s', sc' !! a = Some s' /\ parent s' = parent s) ->
  linked sc' p.
Proof.
  induction p as [|a q IH]; [auto|]. intros (s & Hs & Hq) H.
  destruct (H a s) as (s' & Hs' & Hp); [now left | assumption|].
  exists s'. split; [assumption|]. rewrite Hp. destruct q as [|b q']; [assumption|].
  destruct Hq as [Hb Hl]. split; [assumption|]. apply IH; [assumption|].
  intros c t Hc. apply H. now right.
Qed.

Lemma linked_in sc p a : linked sc p -> a ∈ p -> is_Some (sc !! a).
Proof.
  induction p as [|b q IH]; [intros []|]. intros (s & Hs & Hq) Ha.
  apply elem_of_cons in Ha as [->|Ha]; [eauto|].
  destruct q as [|c q']; [now apply elem_of_nil in Ha|]. apply IH; [apply Hq | exact Ha].
Qed.

Lemma linked_length sc p : NoDup p -> linked sc p -> length p <= size sc.
Proof.
  intros Hn Hl. rewrite <- (size_list_to_set (C:=gset string) p Hn), <- size_dom.
  apply subseteq_size. intros a Ha. apply elem_of_list_to_set in Ha.
  apply elem_of_dom. eapply linked_in; eassumption.
Qed.

Lemma or_default_Some s d : s <> "" -> or_default (Some s) d = s.
Proof. intros H. unfold or_default. now rewrite decide_False. Qed.

Lemma resolve_from_linked sc name p :
  linked sc p -> Forall (fun s => s <> "") p ->
  forall fuel cur, head p = Some cur -> length p < fuel ->
    is_Some (resolve_from fuel sc name cur).
Proof.
  induction p as [|a q IH]; [intros []|]. intros (s & Hs & Hq) Hne fuel cur [= <-] Hf.
  apply Forall_cons in Hne as [Ha Hne]. destruct fuel as [|fuel]; [simpl in Hf; lia|].
  cbn [resolve_from]. rewrite decide_False by assumption. rewrite Hs.
  destruct (symbols s !! name); [eauto|].
  destruct q as [|b q'].
  - rewrite Hq. cbn [or_default]. destruct fuel; [simpl in Hf; lia|]. simpl. eauto.
  - destruct Hq as [Hb Hl]. rewrite Hb.
    rewrite or_default_Some by (now apply Forall_cons in Hne as [? _]).
    apply (IH Hl Hne); [reflexivity | simpl in *; lia].
Qed.


Lemma Inv_nonempty p st : Inv p st -> Forall (fun s => s <> "") p.
Proof.
  intros H. eapply Forall_impl; [apply (inv_named _ _ H)|].
  intros s. apply named_nonempty.
Qed.

Lemma Inv_fuel p st : Inv p st -> length p < S (size (scopes (symbolTable st))).
Proof.
  intros H. pose proof (linked_length _ _ (inv_nodup _ _ H) (inv_linked _ _ H)). lia.
Qed.

Lemma Inv_same p st st' :
  symbolTable st' = symbolTable st -> draws st' = draws st -> Inv p st -> Inv p st'.
Proof. intros Ht Hd [H1 H2 H3 H4 H5]. split; rewrite ?Ht, ?Hd; assumption. Qed.

Lemma Inv_current p st :
  Inv p st -> is_Some (scopes (symbolTable st) !! currentScope (symbolTable st)).
Proof.
  intros H. apply (linked_in _ p); [apply H|]. pose proof (inv_current _ _ H) as E.
  destruct p as [|a q]; [discriminate|]. injection E as <-. now left.
Qed.

(** ** Computations that return and keep the open scopes *)

Definition Total {X} (p : list string) (m : A X) : Prop :=
  forall st, Inv p st -> Sp m st (fun _ st' => Inv p st').

Lemma Total_ret {X} p (x : X) : Total p (ret x).
Proof. intros st H. now apply Sp_ret. Qed.

Lemma Total_bind {X Y} p (m : A X) (k : X -> A Y) :
  Total p m -> (forall x, Total p (k x)) -> Total p (bind m k).
Proof. intros Hm Hk st H. eapply Sp_bind; [now apply Hm|]. intros a st1. apply Hk. Qed.

Lemma Total_get p : Total p get.
Proof. intros st H. now exists st, st. Qed.

Lemma Total_push_error p msg l c : Total p (push_error msg l c).
Proof.
  intros st H. eexists _, _. split; [reflexivity|]. now apply (Inv_same p st).
Qed.

Lemma Total_error_at p msg n : Total p (error_at msg n).
Proof. apply Total_push_error. Qed.

Lemma Total_when p b (m : A unit) : Total p m -> Total p (when b m).
Proof. intros H. destruct b; [assumption | apply Total_ret]. Qed.


Lemma Total_current_scope p : Total p current_scope.
Proof.
  intros st H. unfold current_scope, bind, get, Sp.
  destruct (Inv_current p st H) as [s ->]. now exists s, st.
Qed.

Lemma Total_resolveSymbol p name n : Total p (resolveSymbol name n).
Proof.
  intros st H. unfold resolveSymbol, bind, get, Sp. cbv zeta.
  destruct (resolve_from_linked _ name p (inv_linked _ _ H) (Inv_nonempty _ _ H)
              (S (size (scopes (symbolTable st)))) _ (inv_current _ _ H)
              (Inv_fuel _ _ H)) as [[f|] ->].
  - now exists (Some f), st.
  - eexists _, _. split; [reflexivity|]. now apply (Inv_same p st).
Qed.

Lemma Total_declareSymbol p name type kind n params returnType :
  Total p (declareSymbol name type kind (Some n) params returnType).
Proof.
  intros st H. unfold declareSymbol, current_scope, bind, get, Sp.
  destruct (Inv_current p st H) as [s Hs]. rewrite Hs. cbn.
  destruct (symbols s !! name) as [prior|].
  - eexists _, _. split; [reflexivity|]. now apply (Inv_same p st).
  - eexists _, _. split; [reflexivity|]. destruct H as [H1 H2 H3 H4 H5].
    split; cbn; try assumption.
    + apply (linked_agree _ _ _ H2). intros a t Ha Ht.
      destruct (decide (a = currentScope (symbolTable st))) as [->|Hne].
      * rewrite lookup_insert_eq. eexists. split; [reflexivity|]. cbn. congruence.
      * rewrite lookup_insert_ne by congruence. eauto.
    + destruct (decide ("global" = currentScope (symbolTable st))) as [<-|Hne].
      * rewrite lookup_insert_eq. eauto.
      * now rewrite lookup_insert_ne by congruence.
Qed.

Lemma Total_mark_initialized p scopeName name : Total p (mark_initialized scopeName name).
Proof.
  intros st [H1 H2 H3 H4 H5]. eexists _, _. split; [reflexivity|].
  split; cbn; try assumption.
  - apply (linked_agree _ _ _ H2). intros a t Ha Ht.
    destruct (decide (a = scopeName)) as [->|Hne].
    + rewrite lookup_alter_eq, Ht. eexists. split; reflexivity.
    + rewrite lookup_alter_ne by congruence. eauto.
  - destruct (decide ("global" = scopeName)) as [<-|Hne].
    + rewrite lookup_alter_eq. destruct H5 as [g ->]. cbn. eauto.
    + now rewrite lookup_alter_ne by congruence.
Qed.




Lemma Total_ret_bind {X Y} p (x : X) (k : X -> A Y) :
  Total p (k x) -> Total p (bind (ret x) k).
Proof. intros H. exact H. Qed.

(** ** Reading the children of a node whose children are all there *)

Section Children.

Variable ks : list (option ASTNode).
Hypothesis Hkids : Forall is_Some ks.

Lemma child_there i : i < length ks -> exists n, ks !! i = Some (Some n).
Proof.
  intros Hi. destruct (lookup_lt_is_Some_2 ks i Hi) as [o Ho].
  rewrite Forall_forall in Hkids.
  destruct (Hkids o) as [n ->]; [eapply list_elem_of_lookup_2; eassumption|].
  now exists n.
Qed.


Lemma Total_child_get {X Y} p i (f : ASTNode -> X) (k : X -> A Y) :
  i < length ks -> (forall x, Total p (k x)) ->
  Total p (bind (child_get (Some ks) i f) k).
Proof.
  intros Hi Hk. destruct (child_there i Hi) as [n E].
  assert (Hc : child_get (S:=AState) (Some ks) i f = ret (f n)).
  { unfold child_get, child. now rewrite E. }
  rewrite Hc. apply Total_ret_bind, Hk.
Qed.

Lemma Total_children_length {Y} p (k : nat -> A Y) :
  Total p (k (length ks)) -> Total p (bind (children_length (Some ks)) k).
Proof. intros H. exact H. Qed.

End Children.

(** ** The type of an expression *)

Ltac total :=
  repeat first
    [ apply Total_ret | apply Total_error_at | apply Total_push_error
    | apply Total_resolveSymbol | apply Total_get | apply Total_current_scope
    | apply Total_mark_initialized | apply Total_declareSymbol
    | apply Total_children_length
    | apply Total_child_get; [assumption | lia | intros ?]
    | apply Total_when
    | apply Total_bind; [|intros ?]
    | match goal with
      | |- Total _ (if ?b then _ else _) => destruct b eqn:?
      | H : (_ <? _) = true |- _ => apply Nat.ltb_lt in H
      end ].

Section TypeCases.

Variables (ty : string) (v : option string) (l c : option nat).
Variable ks : list (option ASTNode).
Variable ts : list (A string).
Variable p : list string.

Hypothesis Hkids : Forall is_Some ks.
Hypothesis Hlen : length ts = length ks.
Hypothesis Hts : Forall (Total p) ts.





End TypeCases.




(** ** The walk over a tree without function declarations *)



Section VisitCases.

Variables (ty : string) (v : option string) (l c : option nat).
Variable ks : list (option ASTNode).
Variable vs : list (A unit).

Hypothesis Hkids : Forall is_Some ks.
Hypothesis Hvs : forall q, Forall (Total q) vs.
Hypothesis Hwf : Forall (from_option IRGeneratorFacts.well_formed True) ks.










End VisitCases.




(** ** Function declarations and the program *)








End WithRandom.



End AnalyzerRuns.

(** * Jumps and labels through the optimizer *)

Module ControlFlowProperties.
Import Optimizer OptimizerProperties IRGeneratorFacts.











End ControlFlowProperties.
